(** * synSugar: the jade-like micro-parser and the tag-conversion engine

    A shallow embedding of [src/synsugar.js].  The parser object
    ([MicroParser]) is a record of its four fields, threaded through a
    small state monad together with the error console; every JavaScript
    [while] loop is the combinator [loop], which runs its body under an
    explicit iteration budget.  The DOM calls of the conversion engine are
    modelled on elements that carry their tag, their ordered attribute
    list and their children. *)

From Stdlib Require Import List Arith Bool Lia String Ascii.
Import ListNotations.

Local Open Scope string_scope.
Local Open Scope list_scope.

(* ================================================================== *)
(** * JavaScript values used by the parser *)
(* ================================================================== *)

(** A character of the input: [this._c] and [this._p] hold either [null]
    or a one-character string. *)
Definition jschar := option ascii.

(** The double quote and the backslash. *)
Definition dquote : ascii := "034"%char.
Definition squote : ascii := "039"%char.
Definition backslash : ascii := "092"%char.
Definition TAB : ascii := "009"%char.
Definition LF : ascii := "010"%char.
Definition CR : ascii := "013"%char.

(** [String(v)] for a value that is a one-character string or [null]. *)
Definition to_str (c : jschar) : string :=
  match c with
  | None => "null"
  | Some a => String a EmptyString
  end.

(** [String(v)] for a value that is a string or [null]. *)
Definition to_str_s (v : option string) : string :=
  match v with
  | None => "null"
  | Some s => s
  end.

(** [c === 'x'] for a one-character literal. *)
Definition is_char (x : ascii) (c : jschar) : bool :=
  match c with
  | Some a => Ascii.eqb a x
  | None => false
  end.

(** [c === d] between two character values ([null === null] holds). *)
Definition jschar_eqb (c d : jschar) : bool :=
  match c, d with
  | Some a, Some b => Ascii.eqb a b
  | None, None => true
  | _, _ => false
  end.

Definition in_range (lo hi a : ascii) : bool :=
  Nat.leb (nat_of_ascii lo) (nat_of_ascii a) && Nat.leb (nat_of_ascii a) (nat_of_ascii hi).

Definition is_letter (a : ascii) : bool :=
  in_range "a" "z" a || in_range "A" "Z" a.

Definition is_digit (a : ascii) : bool := in_range "0" "9" a.

(** The character class of [/[a-zA-Z0-9_-]/]. *)
Definition is_identchar (a : ascii) : bool :=
  is_letter a || is_digit a || Ascii.eqb a "_" || Ascii.eqb a "-".

Fixpoint string_exists (f : ascii -> bool) (s : string) : bool :=
  match s with
  | EmptyString => false
  | String a r => f a || string_exists f r
  end.

Fixpoint string_forall (f : ascii -> bool) (s : string) : bool :=
  match s with
  | EmptyString => true
  | String a r => f a && string_forall f r
  end.

(** [/[cls]/.test(c)]: the argument is converted to a string and the
    unanchored one-class pattern looks for a matching character in it, so
    that [null] is tested as the text [null]. *)
Definition regex_test (cls : ascii -> bool) (c : jschar) : bool :=
  string_exists cls (to_str c).

(** [[' ', '\t', '\n', '\r'].indexOf(c) >= 0] *)
Definition is_blank (c : jschar) : bool :=
  is_char " " c || is_char TAB c || is_char LF c || is_char CR c.

(** [[',', ')', ' ', '\t'].indexOf(c) < 0] is the negation of this. *)
Definition is_stop (c : jschar) : bool :=
  is_char "," c || is_char ")" c || is_char " " c || is_char TAB c.

(** White space removed by [String.prototype.trim], for code units below
    256: TAB, LF, VT, FF, CR, space and the no-break space. *)
Definition is_trim_space (a : ascii) : bool :=
  in_range TAB CR a || Ascii.eqb a " " || Ascii.eqb a "160".

Fixpoint trim_left (s : string) : string :=
  match s with
  | EmptyString => EmptyString
  | String a r => if is_trim_space a then trim_left r else s
  end.

Fixpoint trim_right (s : string) : string :=
  match s with
  | EmptyString => EmptyString
  | String a r =>
      match trim_right r with
      | EmptyString => if is_trim_space a then EmptyString else String a EmptyString
      | r' => String a r'
      end
  end.

Definition trim (s : string) : string := trim_right (trim_left s).

(* ================================================================== *)
(** * Plain objects used as maps *)
(* ================================================================== *)

(** An object literal [{}] filled by [o[k] = v].  Own keys are kept in
    insertion order, which is the order of [for (k in o)] for keys that
    are not array indices; assigning to a key that is already present
    keeps its place. *)
Definition obj (V : Type) := list (string * V).

Fixpoint obj_set {V} (o : obj V) (k : string) (v : V) : obj V :=
  match o with
  | [] => [(k, v)]
  | (k', v') :: r =>
      if String.eqb k' k then (k', v) :: r else (k', v') :: obj_set r k v
  end.

Fixpoint obj_get {V} (o : obj V) (k : string) : option V :=
  match o with
  | [] => None
  | (k', v') :: r => if String.eqb k' k then Some v' else obj_get r k
  end.

Definition obj_keys {V} (o : obj V) : list string := map fst o.

(* ================================================================== *)
(** * The parser state and its monad *)
(* ================================================================== *)

(** A line written by [_syntaxError] on the console:
    [syntax error near ${this._pos} (${this._c}): ${x}]. *)
Record SyntaxError := mkSyntaxError {
  near : nat;
  at_char : jschar;
  reason : string
}.

(** The fields of a [MicroParser] and the console it writes to. *)
Record MicroParser := mkParser {
  _txt : string;
  _pos : nat;
  _c : jschar;
  _p : jschar;
  console : list SyntaxError
}.

(** A computation on the parser; [None] means that a loop used up its
    iteration budget. *)
Definition M (A : Type) := MicroParser -> option (A * MicroParser).

Definition ret {A} (a : A) : M A := fun s => Some (a, s).

Definition bind {A B} (m : M A) (k : A -> M B) : M B :=
  fun s => match m s with
           | Some (a, s') => k a s'
           | None => None
           end.

Notation "x <- m ;; k" := (bind m (fun x => k))
  (at level 61, m at next level, right associativity).
Notation "m ;;; k" := (bind m (fun _ => k))
  (at level 61, right associativity).

Definition get_c : M jschar := fun s => Some (_c s, s).
Definition get_p : M jschar := fun s => Some (_p s, s).

(** [while (...) { ... }]: the body returns [inl a] to go round again with
    the loop variables [a], and [inr r] to leave the loop with [r]. *)
Fixpoint loop {A R} (fuel : nat) (body : A -> M (A + R)) (a : A) : M R :=
  match fuel with
  | 0 => fun _ => None
  | S fuel' =>
      x <- body a ;;
      match x with
      | inl a' => loop fuel' body a'
      | inr r => ret r
      end
  end.

(** [_start(txt)] *)
Definition _start (txt : string) : MicroParser :=
  mkParser txt 0 None None [].

(** [_next()] *)
Definition _next : M bool := fun s =>
  if Nat.ltb (_pos s) (String.length (_txt s)) then
    Some (true, mkParser (_txt s) (S (_pos s)) (String.get (_pos s) (_txt s))
                         (_c s) (console s))
  else
    Some (false, mkParser (_txt s) (_pos s) None (_p s) (console s)).

(** [_syntaxError(x)]; its return value [null] is what the callers return. *)
Definition _syntaxError (x : string) : M unit := fun s =>
  Some (tt, mkParser (_txt s) (_pos s) (_c s) (_p s)
                     (console s ++ [mkSyntaxError (_pos s) (_c s) x])).

(** One round of the [while (this._next())] of [_getString]: the loop is
    left at the end of the input and at a closing character that no
    backslash precedes; any other character joins [str]. *)
Definition getString_round (dchar : jschar) (str : string) : M (string + string) :=
  b <- _next ;;
  if negb b then ret (inr str)
  else
    c <- get_c ;;
    p <- get_p ;;
    if jschar_eqb c dchar && negb (is_char backslash p)
    then ret (inr str)
    else ret (inl (str ++ to_str c)%string).

Section Parser.

(** The iteration budget given to every loop. *)
Variable N : nat.

(** [_eatblanks()] *)
Definition _eatblanks : M unit :=
  loop N (fun _ =>
    c <- get_c ;;
    if is_blank c then _next ;;; ret (inl tt) else ret (inr tt)) tt.

(** [attr += this._c] where [attr] started as [this._c]. *)
Definition js_add (v : option string) (c : jschar) : option string :=
  Some (to_str_s v ++ to_str c)%string.

(** [_getAttr()]: an identifier, or [null]. *)
Definition _getAttr : M (option string) :=
  _eatblanks ;;;
  c <- get_c ;;
  if negb (regex_test is_letter c) then ret None
  else
    attr <- loop N (fun attr =>
              b <- _next ;;
              c <- get_c ;;
              if b && regex_test is_identchar c
              then ret (inl (js_add attr c))
              else ret (inr attr)) (option_map (fun a => String a EmptyString) c) ;;
    _eatblanks ;;;
    ret attr.

(** [_getString()] *)
Definition _getString : M string :=
  dchar <- get_c ;;
  str <- loop N (getString_round dchar) EmptyString ;;
  c <- get_c ;;
  (match c with
   | None => _syntaxError "unclosed quote"
   | Some _ => ret tt
   end) ;;;
  _next ;;;
  ret str.

(** [_getValue()]: a string, or [null] for the bare word [null].  The
    scan of a bare word returns from inside its loop, without trimming,
    when the input ends. *)
Definition _getValue : M (option string) :=
  _eatblanks ;;;
  c <- get_c ;;
  if is_char dquote c || is_char squote c then
    value <- _getString ;;
    _eatblanks ;;;
    ret (Some value)
  else
    r <- loop N (fun value =>
           c <- get_c ;;
           if is_stop c then ret (inr (value, false))
           else
             let value := (value ++ to_str c)%string in
             b <- _next ;;
             if negb b then ret (inr (value, true))
             else ret (inl value)) EmptyString ;;
    let '(value, returned) := r in
    if returned : bool then ret (Some value)
    else
      let value := trim value in
      let value := if String.eqb value "null" then None else Some value in
      _eatblanks ;;;
      ret value.

End Parser.

(* ================================================================== *)
(** * Element descriptors and [parse] *)
(* ================================================================== *)

(** [{ tag: tag, id: id, classes: classes, attrs: attrs }]; [None] is the
    [null] of JavaScript, for [id] and for an attribute value. *)
Record descriptor := mkDescriptor {
  tag : string;
  id : option string;
  classes : list string;
  attrs : obj (option string)
}.

Section Parse.

Variable N : nat.

(** The [#identifier] part.  The outer [None] is the [null] that [parse]
    returns after [_syntaxError]. *)
Definition parse_id : M (option (option string)) :=
  c <- get_c ;;
  if is_char "#" c then
    _next ;;;
    i <- _getAttr N ;;
    match i with
    | None => _syntaxError "invalid ID" ;;; ret None
    | Some _ => ret (Some i)
    end
  else ret (Some None).

(** [while (this._c === '.') { ... }] *)
Definition parse_classes : M (option (list string)) :=
  loop N (fun classes =>
    c <- get_c ;;
    if is_char "." c then
      _next ;;;
      c_class <- _getAttr N ;;
      match c_class with
      | None => _syntaxError "unexpected class" ;;; ret (inr None)
      | Some cl => ret (inl (classes ++ [cl]))
      end
    else ret (inr (Some classes))) [].

(** The value of one attribute: what follows [=], or [null]. *)
Definition parse_attr_value : M (option string) :=
  c <- get_c ;;
  if is_char "=" c then
    _next ;;;
    _eatblanks N ;;;
    _getValue N
  else ret None.

(** [if (this._c === '(') { ... }], started from the empty object. *)
Definition parse_attrs : M (option (obj (option string))) :=
  c <- get_c ;;
  if is_char "(" c then
    _next ;;;
    r <- loop N (fun attrs =>
           attr <- _getAttr N ;;
           match attr with
           | None => _syntaxError "unexpected attribute" ;;; ret (inr None)
           | Some a =>
               _eatblanks N ;;;
               value <- parse_attr_value ;;
               let attrs := obj_set attrs a value in
               c <- get_c ;;
               if is_char ")" c then ret (inr (Some attrs))
               else if negb (is_char "," c) then
                 _syntaxError "unexpected character" ;;; ret (inr None)
               else _next ;;; ret (inl attrs)
           end) [] ;;
    match r with
    | None => ret None
    | Some attrs =>
        c <- get_c ;;
        if negb (is_char ")" c) then _syntaxError "expected )" ;;; ret None
        else _next ;;; ret (Some attrs)
    end
  else ret (Some []).

(** One round of the [while (true)] of [parse]: one segment of the
    chain. *)
Definition parse_segment (results : list descriptor)
  : M (list descriptor + option (list descriptor)) :=
  _next ;;;
  t <- _getAttr N ;;
  let tag := match t with None => "div" | Some t => t end in
  i <- parse_id ;;
  match i with
  | None => ret (inr None)
  | Some id =>
      cs <- parse_classes ;;
      match cs with
      | None => ret (inr None)
      | Some classes =>
          ats <- parse_attrs ;;
          match ats with
          | None => ret (inr None)
          | Some attrs =>
              _eatblanks N ;;;
              let results := results ++ [mkDescriptor tag id classes attrs] in
              c <- get_c ;;
              match c with
              | None => ret (inr (Some results))
              | Some _ =>
                  if negb (is_char ">" c) then
                    _syntaxError "expected > or EOF" ;;; ret (inr None)
                  else ret (inl results)
              end
          end
      end
  end.

Definition parse_loop : M (option (list descriptor)) :=
  loop N parse_segment [].

End Parse.

(** The outcome of a call of [parse]: the value returned, a chain or
    [null], and the lines written on the console. *)
Definition parse_result := (option (list descriptor) * list SyntaxError)%type.

(** [parse(txt)] where every loop may go round at most [N] times; [None]
    when some loop would need more. *)
Definition parse_with (N : nat) (txt : string) : option parse_result :=
  match parse_loop N (_start txt) with
  | Some (r, s) => Some (r, console s)
  | None => None
  end.

(** [parse(txt)], with a budget that is always enough (see
    [parse_with_total]). *)
Definition parse (txt : string) : option parse_result :=
  parse_with (2 * String.length txt + 2) txt.

(* ================================================================== *)
(** * The document object model, as far as the engine uses it *)
(* ================================================================== *)

(** A node of the document: an element with its local name, its
    attributes in the order of [el.attributes], and its children; or a
    text node.  The engine runs on an HTML document, where
    [createElement], [getAttribute], [setAttribute] and [removeAttribute]
    put the name they are given in ASCII lower case.  The exceptions of
    these calls on names that are no valid names are not modelled; [id]
    and [className] reflect the attributes [id] and [class]. *)
#[warnings="-register-all"]
Inductive Node :=
| Element (tagName : string) (attributes : list (string * string))
          (childNodes : list Node)
| Text (data : string).

Definition attributes (el : Node) : list (string * string) :=
  match el with
  | Element _ a _ => a
  | Text _ => []
  end.

Definition childNodes (el : Node) : list Node :=
  match el with
  | Element _ _ c => c
  | Text _ => []
  end.

Definition with_attributes (a : list (string * string)) (el : Node) : Node :=
  match el with
  | Element t _ c => Element t a c
  | Text d => Text d
  end.

Definition lower_char (a : ascii) : ascii :=
  if in_range "A" "Z" a then ascii_of_nat (nat_of_ascii a + 32) else a.

Fixpoint lower (s : string) : string :=
  match s with
  | EmptyString => EmptyString
  | String a r => String (lower_char a) (lower r)
  end.

(** [document.createElement(tag)] *)
Definition document_createElement (tag : string) : Node :=
  Element (lower tag) [] [].

(** [el.getAttributeNames()] *)
Definition getAttributeNames (el : Node) : list string :=
  map fst (attributes el).

(** [el.getAttribute(name)]: the value of the first attribute of that
    name, or [null]. *)
Definition getAttribute (el : Node) (name : string) : option string :=
  obj_get (attributes el) (lower name).

(** [el.setAttribute(name, value)]: the first attribute of that name gets
    the value; without one, a new attribute is appended. *)
Definition setAttribute (name value : string) (el : Node) : Node :=
  with_attributes (obj_set (attributes el) (lower name) value) el.

Fixpoint remove_first (k : string) (a : list (string * string))
  : list (string * string) :=
  match a with
  | [] => []
  | (k', v) :: r => if String.eqb k' k then r else (k', v) :: remove_first k r
  end.

(** [el.removeAttribute(name)] *)
Definition removeAttribute (name : string) (el : Node) : Node :=
  with_attributes (remove_first (lower name) (attributes el)) el.

(** [el.append(...nodes)] *)
Definition append (nodes : list Node) (el : Node) : Node :=
  match el with
  | Element t a c => Element t a (c ++ nodes)
  | Text d => Text d
  end.

(** ** Class lists *)

(** ASCII white space, which separates the tokens of a [class]
    attribute. *)
Definition is_ascii_ws (a : ascii) : bool :=
  Ascii.eqb a TAB || Ascii.eqb a LF || Ascii.eqb a "012" || Ascii.eqb a CR
  || Ascii.eqb a " ".

Definition flush (cur : string) (r : list string) : list string :=
  match cur with
  | EmptyString => r
  | _ => cur :: r
  end.

(** The text split on ASCII white space; [cur] is the token being read. *)
Fixpoint split_ws (s : string) (cur : string) : list string :=
  match s with
  | EmptyString => flush cur []
  | String a r =>
      if is_ascii_ws a then flush cur (split_ws r EmptyString)
      else split_ws r (cur ++ String a EmptyString)%string
  end.

Definition mem (x : string) (l : list string) : bool :=
  existsb (String.eqb x) l.

(** Appending to an ordered set. *)
Definition set_append (l : list string) (x : string) : list string :=
  if mem x l then l else l ++ [x].

(** [el.classList]: the ordered set of the tokens of the [class]
    attribute. *)
Definition classList (el : Node) : list string :=
  match getAttribute el "class" with
  | None => []
  | Some v => fold_left set_append (split_ws v EmptyString) []
  end.

(** [el.classList.add(c)]: the token joins the set, and the attribute is
    written back as the tokens separated by single spaces. *)
Definition classList_add (c : string) (el : Node) : Node :=
  setAttribute "class" (String.concat " " (set_append (classList el) c)) el.

(* ================================================================== *)
(** * The conversion engine *)
(* ================================================================== *)

(** The properties that every plain object inherits from
    [Object.prototype]: reading one of them never gives [undefined]. *)
Definition Object_prototype : list string :=
  [ "constructor"; "__defineGetter__"; "__defineSetter__"; "hasOwnProperty";
    "__lookupGetter__"; "__lookupSetter__"; "isPrototypeOf";
    "propertyIsEnumerable"; "toString"; "valueOf"; "__proto__";
    "toLocaleString" ].

(** [o[k] === undefined] *)
Definition is_undefined {V} (o : obj V) (k : string) : bool :=
  match obj_get o k with
  | Some _ => false
  | None => negb (mem k Object_prototype)
  end.

(** [createElement(def)] *)
Definition createElement (def : descriptor) : Node :=
  let el := document_createElement (tag def) in
  let el := match id def with
            | None => el
            | Some i => setAttribute "id" i el
            end in
  let el := fold_left (fun el c => classList_add c el) (classes def) el in
  fold_left (fun el kv =>
               match snd kv with
               | None => removeAttribute (fst kv) el
               | Some v => setAttribute (fst kv) v el
               end) (attrs def) el.

(** [getAttrs(el)]: the assignment [attrs[attr.name] = attr.value] of a
    string to the key [__proto__] leaves the object as it is.  The keys
    are in the order of the attributes, which is the order of the
    object built by the code when no attribute name is an array index
    (see [obj]); the statements that depend on the order of the keys
    assume so. *)
Definition getAttrs (el : Node) : obj string :=
  fold_left (fun o kv =>
               if String.eqb (fst kv) "__proto__" then o
               else obj_set o (fst kv) (snd kv)) (attributes el) [].

(** [ar.indexOf(item)], with [None] for [-1]. *)
Fixpoint indexOf (ar : list string) (item : string) : option nat :=
  match ar with
  | [] => None
  | x :: r => if String.eqb x item then Some 0 else option_map S (indexOf r item)
  end.

(** [arrayUnique(ar)] *)
Definition arrayUnique (ar : list string) : list string :=
  map snd
    (filter (fun ix => match indexOf ar (snd ix) with
                       | Some j => Nat.eqb j (fst ix)
                       | None => false
                       end)
            (combine (seq 0 (List.length ar)) ar)).

(** The attributes of the copy of [def] once the loop over
    [el.getAttributeNames()] has run. *)
Definition merge_attrs (el : Node) (attrs0 : obj (option string))
  : obj (option string) :=
  fold_left (fun attrs prop =>
               if mem prop ["class"] then attrs
               else if is_undefined attrs prop
                    then obj_set attrs prop (getAttribute el prop)
                    else attrs)
            (getAttributeNames el) attrs0.

(** [convert(el, def)]; the copy made through JSON is [def] itself, as
    the model shares nothing. *)
Definition convert (el : Node) (def : descriptor) : Node :=
  let attrs' := merge_attrs el (attrs def) in
  let classes' := arrayUnique (classes def ++ classList el) in
  let converted := createElement (mkDescriptor (tag def) (id def) classes' attrs') in
  append (childNodes el) converted.

(** ** Placeholders *)

Fixpoint drop (n : nat) (s : string) : string :=
  match n, s with
  | S n', String _ r => drop n' r
  | _, _ => s
  end.

(** The first place where [pat] occurs in [s]: the text before it and the
    text after it. *)
Fixpoint find_first (pat s : string) : option (string * string) :=
  if String.prefix pat s
  then Some (EmptyString, drop (String.length pat) s)
  else match s with
       | EmptyString => None
       | String a r =>
           match find_first pat r with
           | Some (before, after) => Some (String a before, after)
           | None => None
           end
       end.

(** The replacement text of [String.prototype.replace] for a pattern that
    is a string, hence without captures: [$$] is a dollar, [$&] the
    match, [$`] what precedes it, [$'] what follows it. *)
Fixpoint GetSubstitution (matched before after r : string) : string :=
  match r with
  | EmptyString => EmptyString
  | String a t =>
      if Ascii.eqb a "$" then
        match t with
        | EmptyString => String a EmptyString
        | String c t' =>
            if Ascii.eqb c "$" then String "$" (GetSubstitution matched before after t')
            else if Ascii.eqb c "&" then matched ++ GetSubstitution matched before after t'
            else if Ascii.eqb c "`" then before ++ GetSubstitution matched before after t'
            else if Ascii.eqb c "'" then after ++ GetSubstitution matched before after t'
            else String a (GetSubstitution matched before after t)
        end%string
      else String a (GetSubstitution matched before after t)
  end.

(** [s.replace(pat, r)] for strings [pat] and [r]: only the first
    occurrence of [pat] is replaced. *)
Definition js_replace (s pat r : string) : string :=
  match find_first pat s with
  | None => s
  | Some (before, after) =>
      (before ++ GetSubstitution pat before after r ++ after)%string
  end.

(** The template [`\$\{${attr}\}`]. *)
Definition placeholder (attr : string) : string := ("${" ++ attr ++ "}")%string.

(** The inner loop over [elAttrs], for one value of [convertedAttrs];
    [elAttrs[attr] || EmptyString] is the value itself, the empty string
    included. *)
Definition substitute (elAttrs : obj string) (v : string) : string :=
  fold_left (fun v kv =>
               let attrVal := if String.eqb (snd kv) EmptyString then EmptyString else snd kv in
               js_replace v (placeholder (fst kv)) attrVal) elAttrs v.

(** The ancestors of the chain, nested, with [inner] in the last of
    them. *)
Fixpoint nest (elements : list descriptor) (inner : Node) : Node :=
  match elements with
  | [] => inner
  | e :: r => append [nest r inner] (createElement e)
  end.

(** The target node of the body of [forEach((el) => ...)]: [el]
    converted, with the placeholders of its attribute values replaced. *)
Definition convertMatched (target : descriptor) (el : Node) : Node :=
  let elAttrs := getAttrs el in
  let converted := convert el target in
  let convertedAttrs :=
    map (fun kv => (fst kv, substitute elAttrs (snd kv))) (getAttrs converted) in
  fold_left (fun c kv => setAttribute (fst kv) (snd kv) c) convertedAttrs converted.

(** The body of [forEach((el) => ...)]: the node that takes the place of
    [el] in its parent. *)
Definition convertElement (elements : list descriptor) (target : descriptor)
           (el : Node) : Node :=
  nest elements (convertMatched target el).

(** How a call ends: normally, or with an exception. *)
Inductive completion (A : Type) :=
| Normal (a : A)
| Throw (error : string).
Arguments Normal {A} a.
Arguments Throw {A} error.

Section ConvertTags.

(** The document is a collaborator: its state, the references to its
    nodes, the selector query, the node behind a reference, and the
    replacement of a node within its parent. *)
Variable Document : Type.
Variable NodeRef : Type.
Variable querySelectorAll : string -> Document -> list NodeRef.
Variable node_of : Document -> NodeRef -> Node.
Variable replaceChild : Document -> NodeRef -> Node -> Document.

(** [elements.pop()]: the last element, and what is left. *)
Definition pop (elements : list descriptor) : option descriptor * list descriptor :=
  (last (map Some elements) None, removelast elements).

(** One rule [o : conversion].  [parse] gives [null] on a syntax error,
    and [elements.pop()] on [null] is a [TypeError].  An empty chain
    would give [undefined] for [target], which [JSON.parse] refuses at
    the first matched node.  The first case is never taken
    ([parse_with_total]). *)
Definition convertRule (o conversion : string) (doc : Document)
  : completion Document * list SyntaxError :=
  match parse conversion with
  | None => (Throw "out of budget", [])
  | Some (None, log) => (Throw "TypeError", log)
  | Some (Some elements, log) =>
      match pop elements with
      | (None, _) =>
          match querySelectorAll o doc with
          | [] => (Normal doc, log)
          | _ :: _ => (Throw "SyntaxError", log)
          end
      | (Some target, elements) =>
          (Normal
             (fold_left (fun doc el =>
                           replaceChild doc el
                             (convertElement elements target (node_of doc el)))
                        (querySelectorAll o doc) doc),
           log)
      end
  end.

(** The loop [for (let o in conversions)]: the rules in the order of
    the mapping; an exception ends it.  The result has the document as
    the loop leaves it, how it ended, and the console. *)
Fixpoint convertRules (conversions : list (string * string)) (doc : Document)
  : Document * completion unit * list SyntaxError :=
  match conversions with
  | [] => (doc, Normal tt, [])
  | (o, conversion) :: rest =>
      match convertRule o conversion doc with
      | (Throw e, log) => (doc, Throw e, log)
      | (Normal doc', log) =>
          let '(doc'', c, log') := convertRules rest doc' in
          (doc'', c, log ++ log')
      end
  end.

(** [convertTags(conversions)]; [None] is [undefined]. *)
Definition convertTags (conversions : option (list (string * string)))
           (doc : Document) : Document * completion unit * list SyntaxError :=
  match conversions with
  | None => (doc, Normal tt, [])
  | Some rules => convertRules rules doc
  end.

End ConvertTags.

(** A small document for examples: a list of nodes under one parent, a
    reference is a position in it, and a selector is a tag name. *)
Definition flat_document := list Node.

Definition flat_query (o : string) (doc : flat_document) : list nat :=
  map fst
    (filter (fun ix => match snd ix with
                       | Element tg _ _ => String.eqb tg o
                       | Text _ => false
                       end)
            (combine (seq 0 (List.length doc)) doc)).

Definition flat_node (doc : flat_document) (i : nat) : Node :=
  nth i doc (Text EmptyString).

Fixpoint flat_replace (doc : flat_document) (i : nat) (n : Node) : flat_document :=
  match doc, i with
  | [], _ => []
  | _ :: r, 0 => n :: r
  | x :: r, S j => x :: flat_replace r j n
  end.

Definition flat_convertTags :=
  convertTags flat_document nat flat_query flat_node flat_replace.



(* ================================================================== *)
(** * Options and icons *)
(* ================================================================== *)

(** The values that an option may hold, as far as the library looks at
    them: [undefined], [null], a boolean or a string. *)
Inductive jsvalue :=
| VUndefined
| VNull
| VBool (b : bool)
| VStr (s : string).

(** [String(v)] *)
Definition ToString (v : jsvalue) : string :=
  match v with
  | VUndefined => "undefined"
  | VNull => "null"
  | VBool true => "true"
  | VBool false => "false"
  | VStr s => s
  end.

(** Whether [v] counts as true in a condition. *)
Definition ToBoolean (v : jsvalue) : bool :=
  match v with
  | VUndefined => false
  | VNull => false
  | VBool b => b
  | VStr s => negb (String.eqb s EmptyString)
  end.

(** [o[k]] for a name [k] that no object inherits: the own property, or
    [undefined]. *)
Definition get_prop (o : obj jsvalue) (k : string) : jsvalue :=
  match obj_get o k with
  | Some v => v
  | None => VUndefined
  end.

(** The object [defaults] as the library starts with it. *)
Definition defaults : obj jsvalue :=
  [ ("icon_class", VStr "material-icons-outlined");
    ("icon_as_class", VBool false);
    ("convert_icons", VBool true) ].

(** [configure(options)], on the object [defaults] as it is when the
    call is made: the result is the object after the call. *)
Definition configure (options : obj jsvalue) (current : obj jsvalue) : obj jsvalue :=
  fold_left (fun d k =>
               match get_prop options k with
               | VUndefined => d
               | v => obj_set d k v
               end) (obj_keys current) current.

(** [s.split(sep)] for a separator of one character; [cur] is the piece
    being read. *)
Fixpoint js_split (sep : ascii) (s cur : string) : list string :=
  match s with
  | EmptyString => [cur]
  | String a r =>
      if Ascii.eqb a sep then cur :: js_split sep r EmptyString
      else js_split sep r (cur ++ String a EmptyString)%string
  end.

(** The exception of [classList.add] for one token: the empty string is
    a [SyntaxError], white space in it an [InvalidCharacterError]. *)
Definition token_error (t : string) : option string :=
  if String.eqb t EmptyString then Some "SyntaxError"
  else if string_exists is_ascii_ws t then Some "InvalidCharacterError"
  else None.

Fixpoint first_token_error (tokens : list string) : option string :=
  match tokens with
  | [] => None
  | t :: r =>
      match token_error t with
      | Some e => Some e
      | None => first_token_error r
      end
  end.

(** [el.classList.add(...tokens)]: every token is checked before any is
    added; the attribute is then written back, unless there is none and
    no token either. *)
Definition classList_add_all (tokens : list string) (el : Node) : completion Node :=
  match first_token_error tokens with
  | Some e => Throw e
  | None =>
      let tokens' := fold_left set_append tokens (classList el) in
      match getAttribute el "class", tokens' with
      | None, [] => Normal el
      | _, _ => Normal (setAttribute "class" (String.concat " " tokens') el)
      end
  end.

(** [el.dataset[name]], by the name of the attribute that holds it:
    [iconLeft] is read from [data-icon-left]. *)
Definition dataset (el : Node) (attribute : string) : option string :=
  obj_get (attributes el) attribute.

(** [el.prepend(n)] *)
Definition prepend (n : Node) (el : Node) : Node :=
  match el with
  | Element t a c => Element t a (n :: c)
  | Text d => Text d
  end.

(** [el.appendChild(n)] *)
Definition appendChild (n : Node) (el : Node) : Node := append [n] el.

(** [icon_class || options.icon_class] *)
Definition or_default (icon_class : jsvalue) (options : obj jsvalue) : jsvalue :=
  if ToBoolean icon_class then icon_class else get_prop options "icon_class".

Section Icons.

(** The markup parser behind [i.innerHTML = text] is a collaborator:
    the children that it makes of the text. *)
Variable parse_fragment : string -> list Node.

(** [i.innerHTML = html] *)
Definition set_innerHTML (html : string) (el : Node) : Node :=
  match el with
  | Element t a _ => Element t a (parse_fragment html)
  | Text d => Text d
  end.

(** The element [i] that [convertIcons] builds for one icon. *)
Definition make_icon (options : obj jsvalue) (icon_class : jsvalue) (icon : string)
  : completion Node :=
  let i := document_createElement "i" in
  match classList_add_all [ToString icon_class] i with
  | Throw e => Throw e
  | Normal i =>
      if ToBoolean (get_prop options "icon_as_class")
      then classList_add_all (js_split " " icon EmptyString) i
      else Normal (set_innerHTML icon i)
  end.

(** The body of [icons.forEach(function(el) ...)]: the element as the
    call leaves it, and how the call ends. *)
Definition convertIcon (options : obj jsvalue) (el : Node) : Node * completion unit :=
  let icon := dataset el "data-icon" in
  let icon_left := dataset el "data-icon-left" in
  let icon_right := dataset el "data-icon-right" in
  let icon_class := match dataset el "data-icon-class" with
                    | Some c => VStr c
                    | None => VUndefined
                    end in
  let icon_left := match icon_left with
                   | None => icon
                   | Some _ => icon_left
                   end in
  let on_right (el : Node) (icon_class : jsvalue) :=
    match icon_right with
    | None => (el, Normal tt)
    | Some r =>
        let icon_class := or_default icon_class options in
        match make_icon options icon_class r with
        | Throw e => (el, Throw e)
        | Normal i => (appendChild i el, Normal tt)
        end
    end in
  match icon_left with
  | None => on_right el icon_class
  | Some l =>
      let icon_class := or_default icon_class options in
      match make_icon options icon_class l with
      | Throw e => (el, Throw e)
      | Normal i => on_right (prepend i el) icon_class
      end
  end.

End Icons.

(** ** The icons of the document, and the listener *)

(** [ar.indexOf(item)] and [arrayUnique(ar)] on an array of any items;
    [same x y] is [x === y]. *)
Fixpoint indexOf_of {A} (same : A -> A -> bool) (ar : list A) (item : A) : option nat :=
  match ar with
  | [] => None
  | x :: r => if same x item then Some 0 else option_map S (indexOf_of same r item)
  end.

Definition arrayUnique_of {A} (same : A -> A -> bool) (ar : list A) : list A :=
  map snd
    (filter (fun ix => match indexOf_of same ar (snd ix) with
                       | Some j => Nat.eqb j (fst ix)
                       | None => false
                       end)
            (combine (seq 0 (List.length ar)) ar)).

Section Ready.

(** The document is a collaborator, as for [convertTags]; here the
    elements are changed in place, and two references are compared. *)
Variable Document : Type.
Variable NodeRef : Type.
Variable same_node : NodeRef -> NodeRef -> bool.
Variable querySelectorAll : string -> Document -> list NodeRef.
Variable node_of : Document -> NodeRef -> Node.
Variable replaceChild : Document -> NodeRef -> Node -> Document.
Variable set_node : Document -> NodeRef -> Node -> Document.
Variable parse_fragment : string -> list Node.

(** [icons.forEach(...)]: an exception ends the loop. *)
Fixpoint forEach_icon (options : obj jsvalue) (icons : list NodeRef) (doc : Document)
  : Document * completion unit :=
  match icons with
  | [] => (doc, Normal tt)
  | el :: rest =>
      let '(n, c) := convertIcon parse_fragment options (node_of doc el) in
      let doc' := set_node doc el n in
      match c with
      | Throw e => (doc', Throw e)
      | Normal _ => forEach_icon options rest doc'
      end
  end.

(** [convertIcons(options)] *)
Definition convertIcons (options : obj jsvalue) (doc : Document)
  : Document * completion unit :=
  let icons :=
    arrayUnique_of same_node
      (querySelectorAll "[data-icon]" doc
       ++ querySelectorAll "[data-icon-right]" doc
       ++ querySelectorAll "[data-icon-left]" doc) in
  forEach_icon options icons doc.

(** The listener of [DOMContentLoaded]: [conversions] is
    [window.synSugar.conversions], [None] when it is not set, and
    [current] is the object [defaults] at that time. *)
Definition onDOMContentLoaded (conversions : option (list (string * string)))
           (current : obj jsvalue) (doc : Document)
  : Document * completion unit * list SyntaxError :=
  let rules := match conversions with
               | Some rules => rules
               | None => []
               end in
  let '(doc1, c, log) :=
    convertTags Document NodeRef querySelectorAll node_of replaceChild (Some rules) doc in
  match c with
  | Throw e => (doc1, Throw e, log)
  | Normal _ =>
      if ToBoolean (get_prop current "convert_icons")
      then let '(doc2, c2) := convertIcons current doc1 in (doc2, c2, log)
      else (doc1, Normal tt, log)
  end.

End Ready.


(* ================================================================== *)
(** * Notions used by the statements *)
(* ================================================================== *)

(** The descriptor of an empty segment. *)
Definition default_div : descriptor := mkDescriptor "div" None [] [].

(** Whether the text [rest] that follows a character [p] holds a closing
    character [dchar] that no backslash precedes. *)
Fixpoint closes (dchar p : jschar) (rest : string) : bool :=
  match rest with
  | EmptyString => false
  | String x r =>
      if jschar_eqb (Some x) dchar && negb (is_char backslash p) then true
      else closes dchar (Some x) r
  end.

Fixpoint last_char (s : string) : jschar :=
  match s with
  | EmptyString => None
  | String a EmptyString => Some a
  | String _ r => last_char r
  end.

(** The lines of the console that report an unclosed quote. *)
Definition is_unclosed_quote (e : SyntaxError) : Prop :=
  reason e = "unclosed quote".

(** An identifier of the notation: a letter, then letters, digits, [_]
    and [-]. *)
Definition is_identifier (s : string) : bool :=
  match s with
  | EmptyString => false
  | String a r => is_letter a && string_forall is_identchar r
  end.

(** A token that [classList.add] accepts: not empty, without white
    space. *)
Definition is_token (s : string) : bool :=
  match s with
  | EmptyString => false
  | _ => string_forall (fun a => negb (is_ascii_ws a)) s
  end.

(** The descriptors that [parse] builds ([parse_well_formed]). *)
Definition well_formed (d : descriptor) : Prop :=
  is_identifier (tag d) = true /\
  (forall i, id d = Some i -> is_identifier i = true) /\
  Forall (fun c => is_identifier c = true) (classes d) /\
  Forall (fun k => is_identifier k = true) (obj_keys (attrs d)).

(** Whether a name starts with a digit.  A key that does not is no array
    index, so that an object lists it in the order of insertion. *)
Definition starts_with_digit (n : string) : bool :=
  match n with
  | EmptyString => false
  | String a _ => is_digit a
  end.

(** The elements of an HTML document the engine is given: the names of
    their attributes differ from each other, are in lower case, and do
    not start with a digit. *)
Definition html_element (el : Node) : Prop :=
  NoDup (getAttributeNames el) /\
  Forall (fun n => lower n = n) (getAttributeNames el) /\
  Forall (fun n => starts_with_digit n = false) (getAttributeNames el).

(** The value that a run of [setAttribute] and [removeAttribute] calls,
    one for each entry of [ops] as in [createElement], leaves for the
    attribute [k] that had the value [init]. *)
Definition final_value (k : string) (ops : obj (option string))
           (init : option string) : option string :=
  fold_left (fun cur kv => if String.eqb (lower (fst kv)) k then snd kv else cur)
            ops init.

(** The input is exhausted: [_c] is [null] and nothing is left. *)
Definition at_eof (s : MicroParser) : Prop :=
  _c s = None /\ String.length (_txt s) <= _pos s.

(** What is left to read, counted twice, plus one while a character is
    held: every call of [_next] that changes the state lowers it. *)
Definition mu (s : MicroParser) : nat :=
  (String.length (_txt s) - _pos s) + (String.length (_txt s) - _pos s)
  + match _c s with Some _ => 1 | None => 0 end.

(** ** The notation, written out *)

(** The first character of a text, [null] for the empty text. *)
Definition first_char (u : string) : jschar :=
  match u with
  | EmptyString => None
  | String a _ => Some a
  end.

(** The text without its first character. *)
Definition but_first (u : string) : string :=
  match u with
  | EmptyString => EmptyString
  | String _ r => r
  end.

(** [P] holds of a character that is not [null]. *)
Definition char_in (P : ascii -> bool) (c : jschar) : bool :=
  match c with
  | Some a => P a
  | None => false
  end.

(** A run of the blanks that [_eatblanks] skips. *)
Definition blanks (w : string) : bool :=
  string_forall (fun a => is_blank (Some a)) w.

(** Where a name ends and the blanks after it stop: the character is
    [null], or it is neither a blank nor a character of a name. *)
Definition delim (c : jschar) : bool :=
  negb (is_blank c) && negb (char_in is_identchar c).

(** A text that can stand between two quotes [q]: it holds no [q] that
    closes it, and it does not end in a backslash, which would keep the
    closing [q] from closing. *)
Definition quoted_value (q : ascii) (v : string) : Prop :=
  closes (Some q) (Some q) v = false /\ last_char v <> Some backslash.

(** A text that can stand without quotes: it holds none of the
    characters that end a bare word, starts with no quote, has no white
    space at either end and is not the word [null]. *)
Definition bare_value (v : string) : Prop :=
  string_forall (fun a => negb (is_stop (Some a))) v = true /\
  trim v = v /\ v <> "null" /\
  is_char dquote (first_char v) = false /\ is_char squote (first_char v) = false.


(** How a value is written: as a bare word, between single quotes or
    between double quotes. *)
Inductive quote_style := Bare | Single | Double.

(** The choices left to the writer of a definition: the blanks put
    around every name, value and mark, whether the tag [div] is left
    out, and how each value is quoted. *)
Record style := mkStyle {
  pad : string;
  omit_div : bool;
  quoting : string -> quote_style
}.

Section Print.

Variable st : style.

Definition print_value (v : string) : string :=
  match quoting st v with
  | Bare => v
  | Single => String squote (v ++ String squote EmptyString)%string
  | Double => String dquote (v ++ String dquote EmptyString)%string
  end.

Definition print_opt_value (v : option string) : string :=
  match v with
  | None => EmptyString
  | Some v => ("=" ++ pad st ++ print_value v ++ pad st)%string
  end.

Definition print_entry (kv : string * option string) : string :=
  (pad st ++ fst kv ++ pad st ++ print_opt_value (snd kv))%string.

Definition print_entries (a : obj (option string)) : string :=
  String.concat "," (map print_entry a).

Definition print_attrs (a : obj (option string)) : string :=
  match a with
  | [] => EmptyString
  | _ :: _ => ("(" ++ print_entries a ++ ")" ++ pad st)%string
  end.

Definition print_tag (t : string) : string :=
  if omit_div st && String.eqb t "div" then EmptyString else (t ++ pad st)%string.

Definition print_id (i : option string) : string :=
  match i with
  | None => EmptyString
  | Some i => ("#" ++ pad st ++ i ++ pad st)%string
  end.

Definition print_classes (cs : list string) : string :=
  fold_right (fun c r => "." ++ pad st ++ c ++ pad st ++ r)%string EmptyString cs.

Definition print_segment (d : descriptor) : string :=
  (pad st ++ print_tag (tag d) ++ print_id (id d) ++ print_classes (classes d)
   ++ print_attrs (attrs d))%string.


(** A value that the style can write. *)
Definition writable (v : string) : Prop :=
  match quoting st v with
  | Bare => bare_value v
  | Single => quoted_value squote v
  | Double => quoted_value dquote v
  end.

(** A descriptor that the style can write. *)
Definition printable (d : descriptor) : Prop :=
  well_formed d /\ forall k v, In (k, Some v) (attrs d) -> writable v.

End Print.

(** The attribute map that the assignments [attrs[k] = v], made in the
    order of the entries, build: a name that comes again keeps its place
    and takes the later value. *)
Definition assigned (a : obj (option string)) : obj (option string) :=
  fold_left (fun o kv => obj_set o (fst kv) (snd kv)) a [].

Definition normal (d : descriptor) : descriptor :=
  mkDescriptor (tag d) (id d) (classes d) (assigned (attrs d)).

(** ** Definitions that [parse] gives up on *)

(** A character that can only follow a segment: it is no blank, no
    character of a name and none of the marks that go on with a
    segment or start the next one. *)
Definition stray (a : ascii) : bool :=
  negb (is_blank (Some a)) && negb (is_identchar a)
  && negb (Ascii.eqb a "#") && negb (Ascii.eqb a ".")
  && negb (Ascii.eqb a "(") && negb (Ascii.eqb a ">").

(** The character is one of [l]. *)
Definition one_of (l : list ascii) (c : jschar) : bool :=
  match c with
  | None => false
  | Some a => existsb (Ascii.eqb a) l
  end.

(** A segment that stops where a name is due: after the [#], after the
    [.] of a class, or between the parentheses, after the [(] or after
    the [,] that follows an entry. *)
Inductive opening :=
| UpToId (t : string)
| UpToClass (t : string) (i : option string) (cs : list string)
| UpToAttr (t : string) (i : option string) (cs : list string)
           (a : obj (option string)).

(** What an opening has of a descriptor. *)
Definition written (o : opening) : descriptor :=
  match o with
  | UpToId t => mkDescriptor t None [] []
  | UpToClass t i cs => mkDescriptor t i cs []
  | UpToAttr t i cs a => mkDescriptor t i cs a
  end.

(** The message for the name that is missing. *)
Definition reason_due (o : opening) : string :=
  match o with
  | UpToId _ => "invalid ID"
  | UpToClass _ _ _ => "unexpected class"
  | UpToAttr _ _ _ _ => "unexpected attribute"
  end.

Section PrintOpening.

Variable st : style.

(** The segments of a chain, each with the [>] that goes on to the
    next. *)
Definition print_before (chain : list descriptor) : string :=
  fold_right (fun d r => print_segment st d ++ ">" ++ r)%string EmptyString chain.

(** The entries between parentheses, each with the [,] that goes on to
    the next. *)
Definition print_entries_before (a : obj (option string)) : string :=
  fold_right (fun e r => print_entry st e ++ "," ++ r)%string EmptyString a.

Definition print_opening (o : opening) : string :=
  (pad st ++ print_tag st (tag (written o))
   ++ match o with
      | UpToId _ => "#"
      | UpToClass _ i cs => print_id st i ++ print_classes st cs ++ "."
      | UpToAttr _ i cs a =>
          print_id st i ++ print_classes st cs ++ "(" ++ print_entries_before a
      end)%string.

End PrintOpening.

(** What can stand after the entry of value [v] so that [parse] stops
    there: neither [,] nor [)]; after a name without a value, moreover,
    no blank, no character of a name and no [=]; after a closing quote,
    no blank; after a bare word, nothing but the end of the input, since
    a bare word takes in every character up to a [,], a [)], a space or
    a tab. *)
Definition ends_entry (st : style) (v : option string) (bad : string) : Prop :=
  one_of [","; ")"]%char (first_char bad) = false /\
  match v with
  | None => delim (first_char bad) = true /\ is_char "=" (first_char bad) = false
  | Some x =>
      match quoting st x with
      | Bare => bad = EmptyString
      | _ => is_blank (first_char bad) = false
      end
  end.

(** ** What [parse] reports and returns *)

(** The reasons that [parse] itself gives [_syntaxError] when it
    returns [null] and that can reach the console. *)
Definition parse_reasons : list string :=
  [ "invalid ID"; "unexpected class"; "unexpected attribute";
    "unexpected character"; "expected > or EOF" ].

(** What [parse] writes on the console when it fails: one line, or the
    line of an unclosed quote and the line that follows from it. *)
Definition log_shape (l : list SyntaxError) : Prop :=
  (exists e, l = [e] /\ In (reason e) parse_reasons) \/
  (exists n m, l = [mkSyntaxError n None "unclosed quote";
                    mkSyntaxError m None "unexpected character"]).

(** The names of the attributes of a descriptor differ from each
    other. *)
Definition distinct_names (d : descriptor) : Prop := NoDup (obj_keys (attrs d)).

(** The definition parses: [parse] returns a chain. *)
Definition parses (conversion : string) : Prop :=
  exists chain, parse conversion = Some (Some chain, []).

(** ** Nodes *)

Definition tagName (el : Node) : string :=
  match el with
  | Element t _ _ => t
  | Text _ => EmptyString
  end.

(** The node reached from [n] by going [k] times to an only child. *)
Fixpoint only_child (k : nat) (n : Node) : option Node :=
  match k with
  | 0 => Some n
  | S k' =>
      match childNodes n with
      | [c] => only_child k' c
      | _ => None
      end
  end.

(** ** Icons *)

(** The icon on the left: [data-icon-left], or else [data-icon]. *)
Definition left_icon (el : Node) : option string :=
  match dataset el "data-icon-left" with
  | Some l => Some l
  | None => dataset el "data-icon"
  end.

(** The class of the icons of [el]: [data-icon-class] unless it is
    missing or empty, or else the option [icon_class], as a string. *)
Definition icon_class_of (options : obj jsvalue) (el : Node) : string :=
  match dataset el "data-icon-class" with
  | Some c => if String.eqb c EmptyString then ToString (get_prop options "icon_class") else c
  | None => ToString (get_prop options "icon_class")
  end.

Definition no_space (t : string) : bool :=
  string_forall (fun a => negb (Ascii.eqb a " ")) t.

(** The element [i] of class [cls] whose contents are the markup
    [icon]. *)
Definition text_icon (parse_fragment : string -> list Node) (cls icon : string) : Node :=
  Element "i" [("class", cls)] (parse_fragment icon).

(** The element [i] whose classes are [cls] and then the tokens [ts]
    that are not there yet. *)
Definition class_icon (cls : string) (ts : list string) : Node :=
  Element "i" [("class", String.concat " " (fold_left set_append ts [cls]))] [].

Definition opt_list {A} (o : option A) : list A :=
  match o with
  | Some x => [x]
  | None => []
  end.


(* ================================================================== *)
(** * Notions used by the proofs *)
(* ================================================================== *)

(** Total correctness: the computation gives a result, which satisfies
    [Q]. *)
Definition wp {A} (m : M A) (Q : A -> MicroParser -> Prop) (s : MicroParser) : Prop :=
  exists a s', m s = Some (a, s') /\ Q a s'.

(** Partial correctness: a result, if there is one, satisfies [Q]. *)
Definition wlp {A} (m : M A) (Q : A -> MicroParser -> Prop) (s : MicroParser) : Prop :=
  forall a s', m s = Some (a, s') -> Q a s'.

(** [m'] gives every result that [m] gives. *)
Definition le_M {A} (m m' : M A) : Prop :=
  forall s r, m s = Some r -> m' s = Some r.

(** Something was written on the console between [s] and [s']. *)
Definition reported (s s' : MicroParser) : Prop :=
  exists l, l <> [] /\ console s' = console s ++ l.

(** A returned value [null] comes with a line on the console, any other
    value with none. *)
Definition silent_or_reported {A} (s : MicroParser) (r : option A)
           (s' : MicroParser) : Prop :=
  match r with
  | Some _ => console s' = console s
  | None => reported s s'
  end.

(** One entry of [def.attrs] in [createElement], on the attribute list. *)
Definition apply_op (a : list (string * string)) (kv : string * option string)
  : list (string * string) :=
  match snd kv with
  | None => remove_first (lower (fst kv)) a
  | Some v => obj_set a (lower (fst kv)) v
  end.

Definition nws (a : ascii) : bool := negb (is_ascii_ws a).

(** The class list read off an attribute list. *)
Definition class_tokens (a : list (string * string)) : list string :=
  match obj_get a "class" with
  | None => []
  | Some v => fold_left set_append (split_ws v EmptyString) []
  end.

(** [classList.add(c)] on the attribute list. *)
Definition add_class (a : list (string * string)) (c : string)
  : list (string * string) :=
  obj_set a "class" (String.concat " " (set_append (class_tokens a) c)).

(** The attributes that [createElement] gives the node it builds for
    [convert(el, def)]: the id, then the classes, then one call for each
    entry of the merged attribute map. *)
Definition built_attrs (el : Node) (def : descriptor) : list (string * string) :=
  fold_left apply_op (merge_attrs el (attrs def))
    (fold_left add_class (arrayUnique (classes def ++ classList el))
       match id def with
       | None => []
       | Some i => [("id", i)]
       end).

Definition lower_keys {V} (a : obj V) : Prop :=
  Forall (fun k => lower k = k) (obj_keys a).

Definition not_proto (kv : string * string) : bool :=
  negb (String.eqb (fst kv) "__proto__").

(** The attributes of the target node of a match: one [setAttribute] for
    each attribute of the converted node, with its value after
    substitution. *)
Definition substituted_attrs (el : Node) (target : descriptor)
  : list (string * string) :=
  fold_left apply_op
    (map (fun kv => (fst kv, Some (substitute (getAttrs el) (snd kv))))
         (filter not_proto (built_attrs el target)))
    (built_attrs el target).

Definition is_dollar (a : ascii) : bool := Ascii.eqb a "$".

Definition ident_or_null (v : option string) : Prop :=
  forall x, v = Some x -> is_identifier x = true.

(** The runs of two computations, side by side: their results, if both
    have one, are related by [Q]. *)
Definition rwlp {A B} (m : M A) (m' : M B)
           (Q : A -> MicroParser -> B -> MicroParser -> Prop)
           (s s' : MicroParser) : Prop :=
  forall a s1 b s1', m s = Some (a, s1) -> m' s' = Some (b, s1') -> Q a s1 b s1'.

(** At the end of the input a call leaves the parser where it is. *)
Definition frozen (s s1 : MicroParser) : Prop :=
  _txt s1 = _txt s /\ _pos s1 = _pos s /\ _c s1 = None /\ console s1 = console s.

Section Relations.

(** The text [t]; the other run reads [t] followed by [>]. *)
Variable t : string.

(** The run on [t] and the run on [t] followed by [>] are at the same
  place, with the same characters in hand. *)
Definition aligned (s s' : MicroParser) : Prop :=
_txt s = t /\ _txt s' = (t ++ ">")%string /\ _pos s' = _pos s /\
_pos s <= String.length t /\ _c s' = _c s /\ _p s' = _p s /\
console s' = console s.

Definition sync (s s' : MicroParser) : Prop := aligned s s' /\ _c s <> None.

(** The run on [t] has found the end of its input, where the other run
  has read the [>]. *)
Definition gt_eof (s s' : MicroParser) : Prop :=
_txt s = t /\ _txt s' = (t ++ ">")%string /\ _pos s = String.length t /\
_pos s' = S (String.length t) /\ _c s = None /\ _c s' = Some ">"%char /\
console s' = console s.

Definition related (s s' : MicroParser) : Prop := sync s s' \/ gt_eof s s'.

(** The runs give the same value and stay related, unless the run on [t]
  has found the end of its input. *)
Definition same_or_eof {A} (v : A) (s1 : MicroParser) (v' : A) (s1' : MicroParser) : Prop :=
at_eof s1 \/ (v' = v /\ related s1 s1').

(** A value other than [null] is returned by both runs, which stay
  related. *)
Definition same_if_value {A} (r : option A) (s1 : MicroParser)
         (r' : option A) (s1' : MicroParser) : Prop :=
forall x, r = Some x -> r' = Some x /\ related s1 s1'.

(** One segment: the run on [t] followed by [>] goes round again where
  the run on [t] does, and also where the run on [t] returns its
  chain. *)
Definition segment_rel (x : list descriptor + option (list descriptor))
         (s1 : MicroParser)
         (x' : list descriptor + option (list descriptor))
         (s1' : MicroParser) : Prop :=
match x with
| inl r => x' = inl r /\ aligned s1 s1'
| inr (Some chain) => x' = inl chain /\ gt_eof s1 s1'
| inr None => True
end.

End Relations.

(** ** The parser at a place of its input *)

(** What is left of the input after the character in hand. *)
Definition rest (s : MicroParser) : string := drop (_pos s) (_txt s).

(** The parser has the first character of [u] in hand and the others
    left to read; at the end of the input [u] is empty. *)
Definition looking (s : MicroParser) (u : string) : Prop :=
  _c s = first_char u /\ rest s = but_first u.

(** The character is [null], one of [l], or a stray character. *)
Definition among (l : list ascii) (c : jschar) : bool :=
  match c with
  | None => true
  | Some a => existsb (Ascii.eqb a) l || stray a
  end.

(** A line of the console fits the input [txt]: it names a place within
    the input and the character that stands there, the last one read,
    or [null] and the end of the input. *)
Definition line_fits (txt : string) (e : SyntaxError) : Prop :=
  near e <= String.length txt /\
  match at_char e with
  | Some a => 0 < near e /\ String.get (near e - 1) txt = Some a
  | None => near e = String.length txt
  end.

(** The parser is within its input, and so are the lines it has
    written. *)
Definition within (txt : string) (s : MicroParser) : Prop :=
  _txt s = txt /\ _pos s <= String.length txt /\
  Forall (line_fits txt) (console s).

(** Moreover the character in hand is the one before the position, or
    [null] at the end of the input: so it is once [_next] has been
    called. *)
Definition placed (txt : string) (s : MicroParser) : Prop :=
  within txt s /\
  match _c s with
  | Some a => 0 < _pos s /\ String.get (_pos s - 1) txt = Some a
  | None => _pos s = String.length txt
  end.

(** One round of the loop of [parse_attrs]: one entry. *)
Definition attrs_round (N : nat) (attrs : obj (option string))
  : M (obj (option string) + option (obj (option string))) :=
  attr <- _getAttr N ;;
  match attr with
  | None => _syntaxError "unexpected attribute" ;;; ret (inr None)
  | Some a =>
      _eatblanks N ;;;
      value <- parse_attr_value N ;;
      let attrs := obj_set attrs a value in
      c <- get_c ;;
      if is_char ")" c then ret (inr (Some attrs))
      else if negb (is_char "," c) then
        _syntaxError "unexpected character" ;;; ret (inr None)
      else _next ;;; ret (inl attrs)
  end.

(** A returned [null] comes with such lines, any other value with
    none. *)
Definition silent_or_shaped {A} (s : MicroParser) (r : option A)
           (s' : MicroParser) : Prop :=
  match r with
  | Some _ => console s' = console s
  | None => exists l, console s' = console s ++ l /\ log_shape l
  end.

(** The attributes that [createElement] gives the node it builds: the
    id, then the classes, then one call for each entry of the attribute
    map. *)
Definition created_attrs (d : descriptor) : list (string * string) :=
  fold_left apply_op (attrs d)
    (fold_left add_class (classes d)
       match id d with
       | None => []
       | Some i => [("id", i)]
       end).

(** One round of the loop of [configure]. *)
Definition configure_step (options : obj jsvalue) (d : obj jsvalue) (k : string) : obj jsvalue :=
  match get_prop options k with
  | VUndefined => d
  | v => obj_set d k v
  end.


(* ================================================================== *)
(** * Reasoning about parser computations *)
(* ================================================================== *)

Lemma wp_ret {A} (a : A) Q s : Q a s -> wp (ret a) Q s.
Proof. intros H. exists a, s. split; [reflexivity | exact H]. Qed.

Lemma wp_bind {A B} (m : M A) (k : A -> M B) Q s :
  wp m (fun a s1 => wp (k a) Q s1) s -> wp (bind m k) Q s.
Proof.
  intros (a & s1 & E & b & s2 & E2 & H).
  exists b, s2. unfold bind. rewrite E. auto.
Qed.

Lemma wp_conseq {A} (m : M A) (P Q : A -> MicroParser -> Prop) s :
  wp m P s -> (forall a s', P a s' -> Q a s') -> wp m Q s.
Proof. intros (a & s' & E & H) HPQ. exists a, s'. auto. Qed.

Lemma wp_get_c Q s : Q (_c s) s -> wp get_c Q s.
Proof. intros H. exists (_c s), s. auto. Qed.

Lemma wp_get_p Q s : Q (_p s) s -> wp get_p Q s.
Proof. intros H. exists (_p s), s. auto. Qed.

Lemma wlp_ret {A} (a : A) (Q : A -> MicroParser -> Prop) s : Q a s -> wlp (ret a) Q s.
Proof. intros H a' s' E. inversion E; subst; exact H. Qed.

Lemma wlp_bind {A B} (m : M A) (k : A -> M B) Q s :
  wlp m (fun a s1 => wlp (k a) Q s1) s -> wlp (bind m k) Q s.
Proof.
  intros H b s2 E. unfold bind in E.
  destruct (m s) as [[a s1]|] eqn:E1; [|discriminate].
  exact (H a s1 E1 b s2 E).
Qed.

Lemma wlp_conseq {A} (m : M A) (P Q : A -> MicroParser -> Prop) s :
  wlp m P s -> (forall a s', P a s' -> Q a s') -> wlp m Q s.
Proof. intros H HPQ a s' E. auto. Qed.

Lemma wlp_get_c Q s : Q (_c s) s -> wlp get_c Q s.
Proof. intros H a s' E. inversion E; subst; exact H. Qed.

Lemma wlp_get_p Q s : Q (_p s) s -> wlp get_p Q s.
Proof. intros H a s' E. inversion E; subst; exact H. Qed.

(** A loop whose body lowers [mu] whenever it goes round again ends
    within [mu] rounds. *)
Lemma wp_loop {A R} (body : A -> M (A + R)) (bound : nat) :
  (forall a s, mu s < bound ->
     wp (body a) (fun x s' => mu s' <= mu s /\
                              match x with inl _ => mu s' < mu s | inr _ => True end) s) ->
  forall n a s, mu s < n -> mu s < bound ->
    wp (loop n body a) (fun _ s' => mu s' <= mu s) s.
Proof.
  intros Hbody. induction n as [|n IH]; intros a s Hn Hb; [lia|].
  simpl. apply wp_bind.
  eapply wp_conseq; [apply Hbody; exact Hb|].
  intros [a'|r] s' [Hle Hlt].
  - eapply wp_conseq; [apply IH; lia|]. simpl. intros; lia.
  - apply wp_ret. exact Hle.
Qed.

(** The invariant rule for loops. *)
Lemma wlp_loop {A R} (body : A -> M (A + R)) (I : A -> MicroParser -> Prop)
      (Q : R -> MicroParser -> Prop) :
  (forall a s, I a s ->
     wlp (body a) (fun x s' => match x with inl a' => I a' s' | inr r => Q r s' end) s) ->
  forall n a s, I a s -> wlp (loop n body a) Q s.
Proof.
  intros Hbody. induction n as [|n IH]; intros a s HI.
  - intros r s' E. discriminate.
  - simpl. apply wlp_bind.
    eapply wlp_conseq; [apply Hbody; exact HI|].
    intros [a'|r] s' H.
    + apply IH. exact H.
    + apply wlp_ret. exact H.
Qed.

Lemma le_M_refl {A} (m : M A) : le_M m m.
Proof. intros s r E. exact E. Qed.

Lemma le_M_bind {A B} (m m' : M A) (k k' : A -> M B) :
  le_M m m' -> (forall a, le_M (k a) (k' a)) -> le_M (bind m k) (bind m' k').
Proof.
  intros Hm Hk s r E. unfold bind in *.
  destruct (m s) as [[a s1]|] eqn:E1; [|discriminate].
  rewrite (Hm _ _ E1). apply Hk. exact E.
Qed.

Lemma le_M_loop {A R} (body body' : A -> M (A + R)) :
  (forall a, le_M (body a) (body' a)) ->
  forall n n' a, n <= n' -> le_M (loop n body a) (loop n' body' a).
Proof.
  intros Hb. induction n as [|n IH]; intros n' a Hle s r E; [discriminate|].
  destruct n' as [|n']; [lia|].
  simpl in *. revert s r E. apply le_M_bind; [apply Hb|].
  intros [a'|x]; [apply IH; lia | apply le_M_refl].
Qed.

(** ** [_next] *)

Lemma get_lt (s : string) n : n < String.length s -> exists a, String.get n s = Some a.
Proof.
  revert n. induction s as [|c s IH]; simpl; intros n H; [lia|].
  destruct n as [|n]; [eauto | apply IH; lia].
Qed.

Lemma next_true s :
  _pos s < String.length (_txt s) ->
  exists a, String.get (_pos s) (_txt s) = Some a /\
    _next s = Some (true, mkParser (_txt s) (S (_pos s)) (Some a) (_c s) (console s)).
Proof.
  intros H. destruct (get_lt _ _ H) as [a Ha]. exists a. split; [exact Ha|].
  unfold _next. apply Nat.ltb_lt in H. rewrite H, Ha. reflexivity.
Qed.

Lemma next_false s :
  String.length (_txt s) <= _pos s ->
  _next s = Some (false, mkParser (_txt s) (_pos s) None (_p s) (console s)).
Proof.
  intros H. unfold _next. apply Nat.ltb_ge in H. rewrite H. reflexivity.
Qed.

(** [_next] either reads a character and moves on by one, or finds the
    end of the input and sets [_c] to [null]. *)
Lemma next_cases s :
  (exists a, _pos s < String.length (_txt s) /\
             String.get (_pos s) (_txt s) = Some a /\
     _next s = Some (true, mkParser (_txt s) (S (_pos s)) (Some a) (_c s) (console s)))
  \/ (String.length (_txt s) <= _pos s /\
      _next s = Some (false, mkParser (_txt s) (_pos s) None (_p s) (console s))).
Proof.
  destruct (Nat.lt_ge_cases (_pos s) (String.length (_txt s))) as [H|H].
  - left. destruct (next_true s H) as (a & Ha & E). eauto.
  - right. split; [exact H | apply next_false; exact H].
Qed.

Lemma wp_next s :
  wp _next (fun b s' =>
              mu s' <= mu s /\
              (b = true -> mu s' < mu s) /\
              (b = false -> _c s' = None /\ (_c s <> None -> mu s' < mu s))) s.
Proof.
  destruct (next_cases s) as [(a & Hlt & Ha & E)|(Hge & E)];
    eexists _, _; (split; [exact E|]); unfold mu; simpl.
  - destruct (_c s); repeat split; intros; try discriminate; lia.
  - destruct (_c s); repeat split; intros; try congruence; lia.
Qed.

Lemma is_blank_Some c : is_blank c = true -> c <> None.
Proof. destruct c; [discriminate | intros H; discriminate H]. Qed.

Lemma is_char_Some x c : is_char x c = true -> c <> None.
Proof. destruct c; [discriminate | intros H; discriminate H]. Qed.

(* ================================================================== *)
(** * Termination of the parser *)
(* ================================================================== *)

Lemma wp_syntaxError x s :
  wp (_syntaxError x) (fun _ s' => mu s' = mu s) s.
Proof. eexists _, _. split; reflexivity. Qed.

(** Steps through binds, reads of the fields and returns. *)
Ltac wp_simple :=
  repeat match goal with
         | |- wp (bind _ _) _ _ => apply wp_bind
         | |- wp get_c _ _ => apply wp_get_c
         | |- wp get_p _ _ => apply wp_get_p
         | |- wp (ret _) _ _ => apply wp_ret
         end.

(** Uses the termination lemma [L] of a callee. *)
Ltac wp_call L :=
  wp_simple; eapply wp_conseq; [apply L; try lia | cbv beta; intros ? ? ?]; wp_simple.

Ltac wp_next_step b Hle Ht Hf :=
  wp_simple; eapply wp_conseq; [apply wp_next | cbv beta; intros b ? (Hle & Ht & Hf)];
  wp_simple.

Ltac wp_error :=
  wp_simple; eapply wp_conseq; [apply wp_syntaxError | cbv beta; intros ? ? ?]; wp_simple.

Section Termination.

Variable N : nat.

Lemma eatblanks_terminates s :
  mu s < N -> wp (_eatblanks N) (fun _ s' => mu s' <= mu s) s.
Proof.
  intros H. unfold _eatblanks.
  apply wp_loop with (bound := N); [|exact H|exact H].
  clear s H. intros _ s H. wp_simple.
  destruct (is_blank (_c s)) eqn:E.
  - wp_next_step b Hle Ht Hf.
    apply is_blank_Some in E.
    destruct b; [specialize (Ht eq_refl) | destruct (Hf eq_refl) as [_ Hf']; specialize (Hf' E)]; lia.
  - wp_simple. lia.
Qed.

Lemma getAttr_terminates s :
  mu s < N -> wp (_getAttr N) (fun _ s' => mu s' <= mu s) s.
Proof.
  intros H. unfold _getAttr.
  wp_call eatblanks_terminates.
  destruct (negb _); wp_simple; [lia|].
  eapply wp_conseq.
  - apply wp_loop with (bound := N); [|lia|lia].
    intros attr s1 H1. wp_next_step b Hle Ht Hf.
    destruct (b && _) eqn:E; wp_simple; (split; [lia|]); [|exact I].
    apply andb_prop in E. destruct E as [E _]. apply Ht in E. lia.
  - cbv beta. intros attr s1 H1.
    wp_call eatblanks_terminates. lia.
Qed.

Lemma getString_terminates s :
  mu s < N -> wp (_getString N) (fun _ s' => mu s' <= mu s) s.
Proof.
  intros H. unfold _getString. wp_simple.
  eapply wp_conseq.
  - apply wp_loop with (bound := N); [|lia|lia].
    intros str s1 H1. unfold getString_round. wp_next_step b Hle Ht Hf.
    destruct b; simpl; wp_simple.
    + specialize (Ht eq_refl).
      destruct (_ && _); wp_simple; (split; [lia|]); [exact I | lia].
    + split; [lia | exact I].
  - cbv beta. intros str s1 H1. wp_simple.
    destruct (_c s1) eqn:Ec.
    + wp_simple. wp_next_step b Hle Ht Hf. lia.
    + wp_error. wp_next_step b Hle Ht Hf. lia.
Qed.

Lemma getValue_terminates s :
  mu s < N -> wp (_getValue N) (fun _ s' => mu s' <= mu s) s.
Proof.
  intros H. unfold _getValue.
  wp_call eatblanks_terminates.
  destruct (_ || _).
  - wp_call getString_terminates. wp_call eatblanks_terminates. lia.
  - wp_simple. eapply wp_conseq.
    + apply wp_loop with (bound := N); [|lia|lia].
      intros value s1 H1. wp_simple.
      destruct (is_stop (_c s1)); wp_simple; [split; [lia | exact I]|].
      wp_next_step b Hle Ht Hf.
      destruct b; simpl; wp_simple; (split; [lia|]); [|exact I].
      specialize (Ht eq_refl). lia.
    + cbv beta. intros [value [|]] s1 H1; wp_simple; [lia|].
      wp_call eatblanks_terminates. lia.
Qed.

Lemma parse_id_terminates s :
  mu s < N -> wp (parse_id N) (fun _ s' => mu s' <= mu s) s.
Proof.
  intros H. unfold parse_id. wp_simple.
  destruct (is_char "#" (_c s)); wp_simple; [|lia].
  wp_next_step b Hle Ht Hf.
  wp_call getAttr_terminates.
  destruct a as [i|]; wp_simple; [lia|].
  wp_error. lia.
Qed.

Lemma parse_classes_terminates s :
  mu s < N -> wp (parse_classes N) (fun _ s' => mu s' <= mu s) s.
Proof.
  intros H. unfold parse_classes.
  apply wp_loop with (bound := N); [|lia|lia].
  clear s H. intros cls s H. wp_simple.
  destruct (is_char "." (_c s)) eqn:E; wp_simple; [|split; [lia | exact I]].
  apply is_char_Some in E.
  wp_next_step b Hle Ht Hf.
  assert (mu s' < mu s)
    by (destruct b; [specialize (Ht eq_refl) | destruct (Hf eq_refl) as [_ Hf']; specialize (Hf' E)]; lia).
  wp_call getAttr_terminates.
  destruct a as [cl|]; wp_simple; [split; lia|].
  wp_error. split; [lia | exact I].
Qed.

Lemma parse_attr_value_terminates s :
  mu s < N -> wp (parse_attr_value N) (fun _ s' => mu s' <= mu s) s.
Proof.
  intros H. unfold parse_attr_value. wp_simple.
  destruct (is_char "=" (_c s)); wp_simple; [|lia].
  wp_next_step b Hle Ht Hf.
  wp_call eatblanks_terminates.
  wp_call getValue_terminates. lia.
Qed.

Lemma parse_attrs_terminates s :
  mu s < N -> wp (parse_attrs N) (fun _ s' => mu s' <= mu s) s.
Proof.
  intros H. unfold parse_attrs. wp_simple.
  destruct (is_char "(" (_c s)); wp_simple; [|lia].
  wp_next_step b Hle Ht Hf.
  eapply wp_conseq.
  - apply wp_loop with (bound := N); [|lia|lia].
    intros ats s1 H1.
    wp_call getAttr_terminates.
    destruct a as [a|]; wp_simple; [|wp_error; split; [lia | exact I]].
    wp_call eatblanks_terminates.
    wp_call parse_attr_value_terminates.
    destruct (is_char ")" (_c s'2)); wp_simple; [split; [lia | exact I]|].
    destruct (negb (is_char "," (_c s'2))) eqn:E; wp_simple.
    + wp_error. split; [lia | exact I].
    + apply negb_false_iff, is_char_Some in E.
      wp_next_step b' Hle' Ht' Hf'.
      assert (mu s'3 < mu s'2)
        by (destruct b'; [specialize (Ht' eq_refl) | destruct (Hf' eq_refl) as [_ Hf'']; specialize (Hf'' E)]; lia).
      split; lia.
  - cbv beta. intros [ats|] s1 H1; wp_simple; [|lia].
    destruct (negb _); wp_simple.
    + wp_error. lia.
    + wp_next_step b' Hle' Ht' Hf'. lia.
Qed.

Lemma parse_segment_terminates results s :
  mu s < N ->
  wp (parse_segment N results)
     (fun x s' => mu s' <= mu s /\
                  match x with inl _ => mu s' < mu s | inr _ => True end) s.
Proof.
  intros H. unfold parse_segment.
  wp_next_step b Hle Ht Hf.
  wp_call getAttr_terminates.
  wp_call parse_id_terminates.
  destruct a0 as [i|]; wp_simple; [|split; [lia | exact I]].
  wp_call parse_classes_terminates.
  destruct a0 as [cs|]; wp_simple; [|split; [lia | exact I]].
  wp_call parse_attrs_terminates.
  destruct a0 as [ats|]; wp_simple; [|split; [lia | exact I]].
  wp_call eatblanks_terminates.
  destruct (_c s'4) as [c|] eqn:Ec; wp_simple; [|split; [lia | exact I]].
  destruct (negb _); wp_simple.
  - wp_error. split; [lia | exact I].
  - split; [lia|].
    destruct b; [specialize (Ht eq_refl); lia|].
    destruct (Hf eq_refl) as [Hn _].
    unfold mu in *. rewrite Ec, Hn in *. lia.
Qed.

Lemma parse_loop_terminates s :
  mu s < N -> wp (parse_loop N) (fun _ s' => mu s' <= mu s) s.
Proof.
  intros H. unfold parse_loop.
  apply wp_loop with (bound := N); [|lia|lia].
  intros results s1 H1. apply parse_segment_terminates. exact H1.
Qed.

End Termination.

(* ================================================================== *)
(** * A larger budget changes no result *)
(* ================================================================== *)

Create HintDb mono discriminated.

Ltac le_M_step :=
  match goal with
  | |- le_M ?m ?m => apply le_M_refl
  | |- le_M (bind _ _) (bind _ _) => apply le_M_bind; [|intros ?]
  | |- le_M (loop _ _ _) (loop _ _ _) => apply le_M_loop; [intros ?|assumption]
  | |- le_M (if ?b then _ else _) (if ?b then _ else _) => destruct b
  | |- le_M (match ?x with _ => _ end) (match ?x with _ => _ end) => destruct x
  | |- le_M _ _ => solve [auto with mono]
  end.

Ltac le_M_auto := repeat le_M_step.

Section Monotone.

Variables N N' : nat.
Hypothesis HN : N <= N'.

Lemma eatblanks_mono : le_M (_eatblanks N) (_eatblanks N').
Proof using HN. unfold _eatblanks. le_M_auto. Qed.
Hint Resolve eatblanks_mono : mono.

Lemma getAttr_mono : le_M (_getAttr N) (_getAttr N').
Proof using HN. unfold _getAttr. le_M_auto. Qed.
Hint Resolve getAttr_mono : mono.

Lemma getString_mono : le_M (_getString N) (_getString N').
Proof using HN. unfold _getString. le_M_auto. Qed.
Hint Resolve getString_mono : mono.

Lemma getValue_mono : le_M (_getValue N) (_getValue N').
Proof using HN. unfold _getValue. le_M_auto. Qed.
Hint Resolve getValue_mono : mono.

Lemma parse_id_mono : le_M (parse_id N) (parse_id N').
Proof using HN. unfold parse_id. le_M_auto. Qed.
Hint Resolve parse_id_mono : mono.

Lemma parse_classes_mono : le_M (parse_classes N) (parse_classes N').
Proof using HN. unfold parse_classes. le_M_auto. Qed.
Hint Resolve parse_classes_mono : mono.

Lemma parse_attr_value_mono : le_M (parse_attr_value N) (parse_attr_value N').
Proof using HN. unfold parse_attr_value. le_M_auto. Qed.
Hint Resolve parse_attr_value_mono : mono.

Lemma parse_attrs_mono : le_M (parse_attrs N) (parse_attrs N').
Proof using HN. unfold parse_attrs. le_M_auto. Qed.
Hint Resolve parse_attrs_mono : mono.

Lemma parse_segment_mono results :
  le_M (parse_segment N results) (parse_segment N' results).
Proof using HN. unfold parse_segment. le_M_auto. Qed.

Lemma parse_loop_gen_mono n n' results :
  n <= n' ->
  le_M (loop n (parse_segment N) results) (loop n' (parse_segment N') results).
Proof using HN.
  intros Hn. apply le_M_loop; [intros; apply parse_segment_mono | exact Hn].
Qed.

End Monotone.

Lemma parse_with_mono N N' txt r :
  N <= N' -> parse_with N txt = Some r -> parse_with N' txt = Some r.
Proof.
  unfold parse_with, parse_loop. intros HN E.
  destruct (loop N (parse_segment N) [] (_start txt)) as [[x s]|] eqn:E1; [|discriminate].
  rewrite (parse_loop_gen_mono N N' HN N N' [] HN _ _ E1). exact E.
Qed.

Lemma parse_with_total N txt :
  2 * String.length txt < N -> exists r, parse_with N txt = Some r.
Proof.
  intros HN. unfold parse_with.
  destruct (parse_loop_terminates N (_start txt)) as (r & s' & E & _).
  - unfold mu. simpl. lia.
  - rewrite E. eauto.
Qed.

(* ================================================================== *)
(** * What the parser writes on the console *)
(* ================================================================== *)

Lemma wlp_next (Q : bool -> MicroParser -> Prop) s :
  (forall a, _pos s < String.length (_txt s) ->
             String.get (_pos s) (_txt s) = Some a ->
             Q true (mkParser (_txt s) (S (_pos s)) (Some a) (_c s) (console s))) ->
  (String.length (_txt s) <= _pos s ->
   Q false (mkParser (_txt s) (_pos s) None (_p s) (console s))) ->
  wlp _next Q s.
Proof.
  intros Ht Hf b s' E.
  destruct (next_cases s) as [(a & Hlt & Ha & E')|(Hge & E')];
    rewrite E' in E; inversion E; subst; auto.
Qed.

Lemma wlp_syntaxError x (Q : unit -> MicroParser -> Prop) s :
  Q tt (mkParser (_txt s) (_pos s) (_c s) (_p s)
                 (console s ++ [mkSyntaxError (_pos s) (_c s) x])) ->
  wlp (_syntaxError x) Q s.
Proof. intros H a s' E. inversion E; subst. exact H. Qed.

Ltac wlp_simple :=
  repeat match goal with
         | |- wlp (bind _ _) _ _ => apply wlp_bind
         | |- wlp get_c _ _ => apply wlp_get_c
         | |- wlp get_p _ _ => apply wlp_get_p
         | |- wlp (ret _) _ _ => apply wlp_ret
         | |- wlp (_syntaxError _) _ _ => apply wlp_syntaxError
         | |- wlp (let _ := _ in _) _ _ => cbv zeta
         end.

Ltac wlp_call L :=
  wlp_simple; eapply wlp_conseq; [apply L | cbv beta; intros ? ? ?]; wlp_simple.

Tactic Notation "wlp_use" constr(L) "as" ident(a) ident(s) ident(H) :=
  wlp_simple; eapply wlp_conseq; [apply L | cbv beta; intros a s H]; wlp_simple.

Ltac wlp_next_step :=
  wlp_simple; apply wlp_next; [intros ? ? ? | intros ?];
  cbn [andb negb]; wlp_simple; cbn [_c _p _pos _txt console andb negb] in *.

Lemma app_neq_self {A} (l : list A) x : l ++ [x] <> l.
Proof.
  intros H. apply (f_equal (@List.length A)) in H.
  rewrite length_app in H. simpl in H. lia.
Qed.

Section Console.

Variable N : nat.

(** Blanks are skipped silently; at the end of the input nothing
    changes. *)
Lemma eatblanks_console s :
  wlp (_eatblanks N)
      (fun _ s' => console s' = console s /\ (at_eof s -> at_eof s')) s.
Proof.
  unfold _eatblanks.
  apply wlp_loop with
    (I := fun _ s1 => console s1 = console s /\ (at_eof s -> at_eof s1));
    [|tauto].
  intros _ s1 [H1 H2]. wlp_simple.
  destruct (is_blank (_c s1)) eqn:E; wlp_simple; [|tauto].
  wlp_next_step; (split; [exact H1|]); intros He.
  - destruct (H2 He) as [Hc _]. rewrite Hc in E. discriminate.
  - split; [reflexivity | assumption].
Qed.

Lemma getAttr_console s :
  wlp (_getAttr N) (fun _ s' => console s' = console s) s.
Proof.
  unfold _getAttr.
  wlp_call eatblanks_console.
  destruct H as [H _]. destruct (negb _); wlp_simple; [exact H|].
  eapply wlp_conseq.
  - apply wlp_loop with (I := fun _ s1 => console s1 = console s)
                        (Q := fun _ s1 => console s1 = console s); [|exact H].
    intros attr s1 H1. wlp_next_step.
    + destruct (regex_test _ _); wlp_simple; exact H1.
    + exact H1.
  - cbv beta. intros attr s1 H1.
    wlp_call eatblanks_console. destruct H0 as [H0 _]. congruence.
Qed.

(** [_getString] writes on the console exactly when its scan ends at the
    end of the input, and then leaves the parser there. *)
Lemma getString_console s :
  wlp (_getString N)
      (fun _ s' =>
         console s' = console s \/
         (exists n, console s' = console s ++ [mkSyntaxError n None "unclosed quote"])
         /\ at_eof s') s.
Proof.
  unfold _getString. wlp_simple.
  eapply wlp_conseq.
  - apply wlp_loop with
      (I := fun _ s1 => console s1 = console s)
      (Q := fun _ s1 => console s1 = console s /\ (_c s1 = None -> at_eof s1));
      [|reflexivity].
    intros str s1 H1. unfold getString_round. wlp_next_step.
    + destruct (_ && _); wlp_simple; simpl; try exact H1.
      split; [exact H1 | discriminate].
    + split; [exact H1|]. intros _. split; [reflexivity | assumption].
  - cbv beta. intros str s1 [H1 H2]. wlp_simple.
    destruct (_c s1) as [c|] eqn:Ec; wlp_simple.
    + wlp_next_step; left; exact H1.
    + destruct (H2 eq_refl) as [_ Hge].
      wlp_next_step; [lia|].
      right. split; [|split; [reflexivity | assumption]].
      rewrite H1, Ec. eauto.
Qed.

Lemma getValue_console s :
  wlp (_getValue N)
      (fun _ s' =>
         console s' = console s \/
         (exists n, console s' = console s ++ [mkSyntaxError n None "unclosed quote"])
         /\ at_eof s') s.
Proof.
  unfold _getValue.
  wlp_call eatblanks_console. destruct H as [H _].
  destruct (_ || _).
  - wlp_call getString_console.
    wlp_call eatblanks_console. destruct H1 as [H1 H2].
    destruct H0 as [H0|[[n H0] He]]; [left; congruence|].
    right. split; [exists n; congruence | auto].
  - wlp_simple. eapply wlp_conseq.
    + apply wlp_loop with (I := fun _ s1 => console s1 = console s)
                          (Q := fun _ s1 => console s1 = console s); [|exact H].
      intros value s1 H1. wlp_simple.
      destruct (is_stop _); wlp_simple; [exact H1|].
      wlp_next_step; exact H1.
    + cbv beta. intros [value [|]] s1 H1; wlp_simple; [left; exact H1|].
      wlp_call eatblanks_console. destruct H0 as [H0 _]. left; congruence.
Qed.

Lemma parse_attr_value_console s :
  wlp (parse_attr_value N)
      (fun _ s' =>
         console s' = console s \/
         (exists n, console s' = console s ++ [mkSyntaxError n None "unclosed quote"])
         /\ at_eof s') s.
Proof.
  unfold parse_attr_value. wlp_simple.
  destruct (is_char "=" _); wlp_simple; [|left; reflexivity].
  wlp_next_step.
  - wlp_call eatblanks_console. destruct H1 as [H1 _].
    wlp_call getValue_console. simpl in H1. rewrite H1 in H2. exact H2.
  - wlp_call eatblanks_console. destruct H0 as [H0 _].
    wlp_call getValue_console. simpl in H0. rewrite H0 in H1. exact H1.
Qed.

End Console.

Lemma reported_one s s' e : console s' = console s ++ [e] -> reported s s'.
Proof. intros H. exists [e]. split; [discriminate | exact H]. Qed.

Lemma reported_two s s' e1 e2 :
  console s' = (console s ++ [e1]) ++ [e2] -> reported s s'.
Proof.
  intros H. exists [e1; e2]. split; [discriminate|].
  rewrite H, <- app_assoc. reflexivity.
Qed.

Lemma reported_trans s s1 s' :
  console s1 = console s -> reported s1 s' -> reported s s'.
Proof. intros H (l & Hl & E). exists l. rewrite <- H. auto. Qed.

Section ConsoleParse.

Variable N : nat.

Lemma parse_id_console s :
  wlp (parse_id N) (silent_or_reported s) s.
Proof.
  unfold parse_id. wlp_simple.
  destruct (is_char "#" _); wlp_simple; [|reflexivity].
  wlp_next_step; wlp_use getAttr_console as i s1 H1;
    (destruct i; wlp_simple; [exact H1|]);
    eapply reported_one; simpl; rewrite H1; reflexivity.
Qed.

Lemma parse_classes_console s :
  wlp (parse_classes N) (silent_or_reported s) s.
Proof.
  unfold parse_classes.
  apply wlp_loop with (I := fun _ s1 => console s1 = console s); [|reflexivity].
  intros cls s1 H1. wlp_simple.
  destruct (is_char "." _); wlp_simple; [|exact H1].
  wlp_next_step; wlp_use getAttr_console as cl s2 H2;
    (destruct cl; wlp_simple; [simpl in *; congruence|]);
    eapply reported_one; simpl; rewrite H2; simpl; rewrite H1; reflexivity.
Qed.

Lemma parse_attrs_console s :
  wlp (parse_attrs N) (silent_or_reported s) s.
Proof.
  unfold parse_attrs. wlp_simple.
  destruct (is_char "(" _); wlp_simple; [|reflexivity].
  assert (Hloop : forall s0, console s0 = console s ->
    wlp (loop N (fun attrs =>
           attr <- _getAttr N ;;
           match attr with
           | None => _syntaxError "unexpected attribute" ;;; ret (inr None)
           | Some a =>
               _eatblanks N ;;;
               value <- parse_attr_value N ;;
               let attrs := obj_set attrs a value in
               c <- get_c ;;
               if is_char ")" c then ret (inr (Some attrs))
               else if negb (is_char "," c) then
                 _syntaxError "unexpected character" ;;; ret (inr None)
               else _next ;;; ret (inl attrs)
           end) []) (silent_or_reported s) s0).
  { intros s0 H0.
    apply wlp_loop with (I := fun _ s1 => console s1 = console s); [|exact H0].
    intros ats s1 H1.
    wlp_use getAttr_console as a s2 H.
    destruct a as [a|]; wlp_simple;
      [|eapply reported_one; simpl; rewrite H, H1; reflexivity].
    wlp_use eatblanks_console as u s3 H2. destruct H2 as [H2 _].
    wlp_use parse_attr_value_console as v s4 H3.
    destruct H3 as [H3|[[n H3] [Hc _]]].
    - destruct (is_char ")" (_c s4)); wlp_simple;
        [unfold silent_or_reported; congruence|].
      destruct (negb (is_char "," (_c s4))); wlp_simple.
      + eapply reported_one. simpl. rewrite H3, H2, H, H1. reflexivity.
      + wlp_next_step; simpl; congruence.
    - rewrite Hc. simpl. wlp_simple.
      eapply reported_two. simpl. rewrite H3, H2, H, H1. reflexivity. }
  wlp_next_step.
  - eapply wlp_conseq; [apply Hloop; reflexivity|].
    cbv beta. intros [ats|] s1 H1; wlp_simple; [|exact H1].
    destruct (negb _); wlp_simple.
    + eapply reported_one. simpl. simpl in H1. rewrite H1. reflexivity.
    + wlp_next_step; exact H1.
  - eapply wlp_conseq; [apply Hloop; reflexivity|].
    cbv beta. intros [ats|] s1 H1; wlp_simple; [|exact H1].
    destruct (negb _); wlp_simple.
    + eapply reported_one. simpl. simpl in H1. rewrite H1. reflexivity.
    + wlp_next_step; exact H1.
Qed.

(** One segment: going round again or returning a chain is silent, and
    a returned chain is not empty; returning [null] is reported. *)
Lemma parse_segment_console results s :
  wlp (parse_segment N results)
      (fun x s' =>
         match x with
         | inl _ => console s' = console s
         | inr (Some chain) => console s' = console s /\ chain <> []
         | inr None => reported s s'
         end) s.
Proof.
  unfold parse_segment.
  assert (Hrest : forall s0, console s0 = console s ->
    wlp (t <- _getAttr N ;;
         let tag := match t with None => "div" | Some t => t end in
         i <- parse_id N ;;
         match i with
         | None => ret (inr None)
         | Some id =>
             cs <- parse_classes N ;;
             match cs with
             | None => ret (inr None)
             | Some classes =>
                 ats <- parse_attrs N ;;
                 match ats with
                 | None => ret (inr None)
                 | Some attrs =>
                     _eatblanks N ;;;
                     let results := results ++ [mkDescriptor tag id classes attrs] in
                     c <- get_c ;;
                     match c with
                     | None => ret (inr (Some results))
                     | Some _ =>
                         if negb (is_char ">" c) then
                           _syntaxError "expected > or EOF" ;;; ret (inr None)
                         else ret (inl results)
                     end
                 end
             end
         end)
        (fun x s' =>
           match x with
           | inl _ => console s' = console s
           | inr (Some chain) => console s' = console s /\ chain <> []
           | inr None => reported s s'
           end) s0).
  { intros s0 H0.
    wlp_use getAttr_console as t s1 H1.
    assert (E1 : console s1 = console s) by congruence.
    wlp_use parse_id_console as i s2 H2.
    destruct i as [i|]; wlp_simple;
      [|eapply reported_trans; [exact E1 | exact H2]].
    simpl in H2.
    assert (E2 : console s2 = console s) by congruence.
    wlp_use parse_classes_console as cs s3 H3.
    destruct cs as [cs|]; wlp_simple;
      [|eapply reported_trans; [exact E2 | exact H3]].
    simpl in H3.
    assert (E3 : console s3 = console s) by congruence.
    wlp_use parse_attrs_console as ats s4 H4.
    destruct ats as [ats|]; wlp_simple;
      [|eapply reported_trans; [exact E3 | exact H4]].
    simpl in H4.
    wlp_use eatblanks_console as u s5 H5. destruct H5 as [H5 _].
    assert (E4 : console s5 = console s) by congruence.
    destruct (_c s5); wlp_simple.
    - destruct (negb _); wlp_simple; [|congruence].
      eapply reported_one. simpl. rewrite E4. reflexivity.
    - split; [congruence|]. intros HH. destruct results; discriminate. }
  apply wlp_bind, wlp_next; intros; apply Hrest; reflexivity.
Qed.

Lemma parse_loop_gen_console n results s :
  wlp (loop n (parse_segment N) results)
      (fun r s' =>
         match r with
         | Some chain => console s' = console s /\ chain <> []
         | None => reported s s'
         end) s.
Proof.
  apply wlp_loop with (I := fun _ s1 => console s1 = console s); [|reflexivity].
  intros res s1 H1.
  eapply wlp_conseq; [apply parse_segment_console|].
  cbv beta. intros [res'|[chain|]] s2 H2.
  - congruence.
  - destruct H2 as [H2 Hne]. split; [congruence | exact Hne].
  - eapply reported_trans; [exact H1 | exact H2].
Qed.

End ConsoleParse.

(** [parse] returns a chain, which is not empty, and stays silent, or
    returns [null] and has reported an error. *)
Lemma parse_with_console N txt r log :
  parse_with N txt = Some (r, log) ->
  match r with
  | Some chain => log = [] /\ chain <> []
  | None => log <> []
  end.
Proof.
  unfold parse_with, parse_loop. intros E.
  destruct (loop N (parse_segment N) [] (_start txt)) as [[x s]|] eqn:E1; [|discriminate].
  inversion E; subst. clear E.
  apply parse_loop_gen_console in E1. destruct r as [chain|].
  - exact E1.
  - destruct E1 as (l & Hl & E1). simpl in E1. rewrite E1. exact Hl.
Qed.

(* ================================================================== *)
(** * Quoted values *)
(* ================================================================== *)

Lemma drop_get (s : string) n a :
  String.get n s = Some a -> drop n s = String a (drop (S n) s).
Proof.
  revert n. induction s as [|c s IH]; intros n H; [destruct n; discriminate|].
  destruct n as [|n]; simpl in *.
  - inversion H; subst. destruct s; reflexivity.
  - rewrite (IH n H). reflexivity.
Qed.

Lemma last_char_snoc (s : string) a :
  last_char (s ++ String a EmptyString) = Some a.
Proof.
  induction s as [|c s IH]; [reflexivity|].
  simpl. destruct (s ++ String a EmptyString)%string eqn:E; [|exact IH].
  destruct s; discriminate.
Qed.

Section Quoted.

Variable N : nat.

(** A quote that is closed has read contents that do not end in a
    backslash. *)
Lemma getString_closed s :
  wlp (_getString N)
      (fun v s' => console s' = console s -> last_char v <> Some backslash) s.
Proof.
  unfold _getString. wlp_simple.
  eapply wlp_conseq.
  - apply wlp_loop with
      (I := fun str s1 => console s1 = console s /\
                          (last_char str = None \/ last_char str = _c s1))
      (Q := fun str s1 => console s1 = console s /\
                          (_c s1 <> None -> last_char str <> Some backslash));
      [|split; [reflexivity | left; reflexivity]].
    intros str s1 [H1 H2]. unfold getString_round. wlp_next_step.
    + destruct (_ && negb (is_char backslash (_c s1))) eqn:E; wlp_simple; simpl.
      * split; [exact H1|]. intros _ Hl.
        apply andb_prop in E. destruct E as [_ E].
        apply negb_true_iff in E.
        destruct H2 as [H2|H2]; [congruence|].
        rewrite <- H2, Hl in E. discriminate E.
      * split; [exact H1|]. right. apply last_char_snoc.
    + split; [exact H1|]. intros Hc. congruence.
  - cbv beta. intros str s1 [H1 H2]. wlp_simple.
    destruct (_c s1) as [c|] eqn:Ec; wlp_simple.
    + wlp_next_step; intros _; apply H2; discriminate.
    + wlp_next_step; simpl; rewrite H1; intros Hc;
        exfalso; exact (app_neq_self _ _ Hc).
Qed.

(** Without a closing character in what is left of the input,
    [_getString] reads to the end and reports an unclosed quote. *)
Lemma getString_unclosed s :
  _pos s <= String.length (_txt s) ->
  closes (_c s) (_c s) (drop (_pos s) (_txt s)) = false ->
  wlp (_getString N)
      (fun _ s' =>
         console s' = console s ++
           [mkSyntaxError (String.length (_txt s)) None "unclosed quote"]
         /\ at_eof s') s.
Proof.
  intros Hpos Hcl. unfold _getString. wlp_simple.
  eapply wlp_conseq.
  - apply wlp_loop with
      (I := fun _ s1 => console s1 = console s /\ _txt s1 = _txt s /\
                        _pos s1 <= String.length (_txt s1) /\
                        closes (_c s) (_c s1) (drop (_pos s1) (_txt s1)) = false)
      (Q := fun _ s1 => console s1 = console s /\ _txt s1 = _txt s /\
                        _c s1 = None /\ _pos s1 = String.length (_txt s1));
      [|auto].
    intros str s1 (H1 & H2 & Hp & H3). unfold getString_round. wlp_next_step.
    + rewrite (drop_get _ _ _ H0) in H3. cbn [closes] in H3.
      destruct (jschar_eqb (Some a) (_c s) && negb (is_char backslash (_c s1)));
        [discriminate|].
      wlp_simple. simpl. auto.
    + repeat split; auto. lia.
  - cbv beta. intros str s1 (H1 & H2 & H3 & H4). wlp_simple.
    rewrite H3. wlp_simple. wlp_next_step; [lia|].
    rewrite H1, H3, H4, H2. split; [reflexivity|].
    split; simpl; [reflexivity | lia].
Qed.

End Quoted.

(* ================================================================== *)
(** * The parser: termination, the null sentinel, quotes *)
(* ================================================================== *)

(** C8. [parse] terminates on every input: it returns a chain, which is
    not empty and comes with a silent console, or it returns [null] after
    reporting a syntax error.  The budget [2 * length txt + 2] of [parse]
    is enough for every loop and a larger one gives the same result.  The
    loops are bounded because each call of [_next] either moves the
    position forward by one or finds the end of the input and sets [_c]
    to [null]. *)
Theorem parse_terminates (txt : string) :
  ((exists chain, chain <> [] /\ parse txt = Some (Some chain, [])) \/
   (exists log, log <> [] /\ parse txt = Some (None, log)))
  /\ (forall N, 2 * String.length txt + 2 <= N -> parse_with N txt = parse txt)
  /\ (forall s b s', _next s = Some (b, s') ->
        if b then _pos s' = S (_pos s) /\ _pos s' <= String.length (_txt s')
        else _pos s' = _pos s /\ _c s' = None).
Proof.
  destruct (parse_with_total (2 * String.length txt + 2) txt) as [[r log] E]; [lia|].
  split; [|split].
  - pose proof (parse_with_console _ _ _ _ E) as H.
    unfold parse. rewrite E. destruct r as [chain|].
    + destruct H as [-> Hne]. left. eauto.
    + right. eauto.
  - intros N HN. unfold parse. rewrite E.
    apply parse_with_mono with (N := 2 * String.length txt + 2); assumption.
  - intros s b s' H.
    destruct (next_cases s) as [(a & Hlt & Ha & E')|(Hge & E')];
      rewrite E' in H; inversion H; subst; simpl; split; auto.
Qed.

Lemma parse_terminates_witness :
  parse_with 100 "a > b.c(x=1)" = parse "a > b.c(x=1)".
Proof.
  apply (proj1 (proj2 (parse_terminates "a > b.c(x=1)")) 100).
  vm_compute. lia.
Defined.

(** C4. The bare word [null] as the value of an attribute gives the null
    sentinel, the quoted text ['null'] gives the string of four
    characters, and an attribute without [=] gets the null sentinel:
    whenever the character that follows the name is not [=], the value is
    [null] and nothing is read. *)
Theorem null_sentinel :
  (None : option string) <> Some "null"
  /\ parse "a(x=null)" = Some (Some [mkDescriptor "a" None [] [("x", None)]], [])
  /\ parse "a(x='null')" =
       Some (Some [mkDescriptor "a" None [] [("x", Some "null")]], [])
  /\ parse "a(x)" = Some (Some [mkDescriptor "a" None [] [("x", None)]], [])
  /\ parse "a(x, y=1)" =
       Some (Some [mkDescriptor "a" None [] [("x", None); ("y", Some "1")]], [])
  /\ (forall N s, is_char "=" (_c s) = false ->
        parse_attr_value N s = Some (None, s)).
Proof.
  split; [discriminate|].
  repeat split; try (vm_compute; reflexivity).
  intros N s H. unfold parse_attr_value, bind, get_c. rewrite H. reflexivity.
Qed.

Lemma null_sentinel_witness :
  parse_attr_value 3 (mkParser "a(x)" 4 (Some ")"%char) (Some "x"%char) [])
  = Some (None, mkParser "a(x)" 4 (Some ")"%char) (Some "x"%char) []).
Proof.
  apply (proj2 (proj2 (proj2 (proj2 (proj2 null_sentinel))))). reflexivity.
Defined.

(** C5. When the input ends inside a quoted value, that is when what is
    left of the input after the opening character holds no closing
    character that no backslash precedes, [_getString] reports an unclosed
    quote and leaves the parser at the end of the input; and a call of
    [parse] that has reported an unclosed quote returns [null], never a
    chain. *)
Theorem unclosed_quote_is_fatal :
  (forall N s,
      mu s < N ->
      _pos s <= String.length (_txt s) ->
      closes (_c s) (_c s) (drop (_pos s) (_txt s)) = false ->
      exists v s',
        _getString N s = Some (v, s') /\
        console s' = console s ++
          [mkSyntaxError (String.length (_txt s)) None "unclosed quote"] /\
        at_eof s')
  /\ (forall txt r log,
        parse txt = Some (r, log) -> Exists is_unclosed_quote log -> r = None)
  /\ parse ("a(x=" ++ String dquote "unterminated") =
       Some (None, [mkSyntaxError 17 None "unclosed quote";
                    mkSyntaxError 17 None "unexpected character"]).
Proof.
  split; [|split].
  - intros N s Hmu Hpos Hcl.
    destruct (getString_terminates N s Hmu) as (v & s' & E & _).
    exists v, s'. split; [exact E|].
    exact (getString_unclosed N s Hpos Hcl v s' E).
  - intros txt r log E Hex. apply parse_with_console in E.
    destruct r as [chain|]; [|reflexivity].
    destruct E as [-> _]. inversion Hex.
  - vm_compute. reflexivity.
Qed.

Lemma unclosed_quote_is_fatal_witness :
  (exists v s',
      _getString 20 (mkParser ("a(x=" ++ String dquote "un") 5 (Some dquote)
                              (Some "="%char) []) = Some (v, s') /\
      console s' = [mkSyntaxError 7 None "unclosed quote"] /\ at_eof s')
  /\ fst (None : option (list descriptor),
          [mkSyntaxError 17 None "unclosed quote";
           mkSyntaxError 17 None "unexpected character"]) = None.
Proof.
  split.
  - apply (proj1 unclosed_quote_is_fatal 20
                 (mkParser ("a(x=" ++ String dquote "un") 5 (Some dquote)
                           (Some "="%char) [])).
    + vm_compute. lia.
    + vm_compute. lia.
    + reflexivity.
  - apply (proj1 (proj2 unclosed_quote_is_fatal)
                 ("a(x=" ++ String dquote "unterminated")%string None
                 [mkSyntaxError 17 None "unclosed quote";
                  mkSyntaxError 17 None "unexpected character"]).
    + vm_compute. reflexivity.
    + left. reflexivity.
Defined.

(** C10. In a quoted value a closing character that follows a backslash is
    read as contents, whatever precedes the backslash; hence the contents
    of a quote that was closed never end in a backslash; and in
    [a(x="ab\\")] the last quote does not close the value, the scan runs
    to the end of the input. *)
Theorem backslash_always_escapes :
  (forall q str s,
      _c s = Some backslash ->
      String.get (_pos s) (_txt s) = Some q ->
      getString_round (Some q) str s =
        Some (inl (str ++ String q EmptyString)%string,
              mkParser (_txt s) (S (_pos s)) (Some q) (Some backslash) (console s)))
  /\ (forall N s v s',
        _getString N s = Some (v, s') ->
        console s' = console s -> last_char v <> Some backslash)
  /\ parse ("a(x=" ++ String dquote ("ab" ++ String backslash
              (String backslash (String dquote ")")))) =
       Some (None, [mkSyntaxError 11 None "unclosed quote";
                    mkSyntaxError 11 None "unexpected character"]).
Proof.
  split; [|split].
  - intros q str s Hc Hq.
    assert (Hlt : _pos s < String.length (_txt s)).
    { destruct (Nat.lt_ge_cases (_pos s) (String.length (_txt s))) as [H|H]; [exact H|].
      destruct (next_cases s) as [(a & Hlt & _)|(Hge & _)]; [exact Hlt|].
      exfalso. revert Hq Hge. generalize (_pos s) (_txt s).
      intros n t. revert n. induction t as [|c t IH]; intros n Hq Hge.
      - destruct n; discriminate.
      - destruct n as [|n]; simpl in *; [lia|]. apply (IH n Hq). lia. }
    unfold getString_round, bind.
    destruct (next_true s Hlt) as (a & Ha & E). rewrite E.
    rewrite Hq in Ha. inversion Ha; subst a.
    simpl. rewrite Hc, Ascii.eqb_refl. simpl. reflexivity.
  - intros N s v s' E. exact (getString_closed N s v s' E).
  - vm_compute. reflexivity.
Qed.

Lemma backslash_always_escapes_witness :
  getString_round (Some dquote) "ab"
    (mkParser (String dquote (String backslash (String dquote EmptyString))) 2
              (Some backslash) (Some dquote) [])
  = Some (inl (String "a" (String "b" (String dquote EmptyString))),
          mkParser (String dquote (String backslash (String dquote EmptyString))) 3
                   (Some dquote) (Some backslash) [])
  /\ last_char "ab" <> Some backslash.
Proof.
  split.
  - apply (proj1 backslash_always_escapes dquote "ab"
             (mkParser (String dquote (String backslash (String dquote EmptyString))) 2
                       (Some backslash) (Some dquote) [])); reflexivity.
  - apply (proj1 (proj2 backslash_always_escapes) 10
             (mkParser "'ab'" 1 (Some squote) None [])
             "ab" (mkParser "'ab'" 4 None (Some "b"%char) [])); reflexivity.
Defined.

(* ================================================================== *)
(** * Objects and attribute lists *)
(* ================================================================== *)

Lemma obj_get_set_eq {V} (o : obj V) k v : obj_get (obj_set o k v) k = Some v.
Proof.
  induction o as [|[k' v'] o IH]; simpl.
  - rewrite String.eqb_refl. reflexivity.
  - destruct (String.eqb k' k) eqn:E; simpl; rewrite E; [reflexivity | exact IH].
Qed.

Lemma obj_get_set_neq {V} (o : obj V) k k' v :
  k <> k' -> obj_get (obj_set o k v) k' = obj_get o k'.
Proof.
  intros Hne. induction o as [|[k0 v0] o IH]; simpl.
  - apply String.eqb_neq in Hne. rewrite Hne. reflexivity.
  - destruct (String.eqb k0 k) eqn:E; simpl.
    + apply String.eqb_eq in E. subst k0.
      apply String.eqb_neq in Hne. rewrite Hne. reflexivity.
    + destruct (String.eqb k0 k'); [reflexivity | exact IH].
Qed.

Lemma obj_get_None {V} (o : obj V) k :
  obj_get o k = None <-> ~ In k (obj_keys o).
Proof.
  induction o as [|[k' v'] o IH]; simpl; [tauto|].
  destruct (String.eqb k' k) eqn:E.
  - apply String.eqb_eq in E. split; [discriminate | intros H; exfalso; auto].
  - apply String.eqb_neq in E. rewrite IH. tauto.
Qed.

Lemma obj_get_Some_In {V} (o : obj V) k v :
  obj_get o k = Some v -> In (k, v) o.
Proof.
  induction o as [|[k' v'] o IH]; simpl; [discriminate|].
  destruct (String.eqb k' k) eqn:E.
  - apply String.eqb_eq in E. intros H. inversion H; subst. auto.
  - auto.
Qed.

Lemma obj_get_In {V} (o : obj V) k v :
  NoDup (obj_keys o) -> In (k, v) o -> obj_get o k = Some v.
Proof.
  induction o as [|[k' v'] o IH]; simpl; [tauto|].
  intros Hnd [H|H]; inversion Hnd; subst.
  - inversion H; subst. rewrite String.eqb_refl. reflexivity.
  - destruct (String.eqb k' k) eqn:E; [|auto].
    apply String.eqb_eq in E. subst k'. exfalso. apply H2.
    change k with (fst (k, v)). apply in_map. exact H.
Qed.

Lemma obj_set_new {V} (o : obj V) k v :
  obj_get o k = None -> obj_set o k v = o ++ [(k, v)].
Proof.
  induction o as [|[k' v'] o IH]; simpl; [reflexivity|].
  destruct (String.eqb k' k); [discriminate|].
  intros H. rewrite (IH H). reflexivity.
Qed.

Lemma obj_get_app {V} (o o' : obj V) k :
  obj_get (o ++ o') k = match obj_get o k with
                        | Some v => Some v
                        | None => obj_get o' k
                        end.
Proof.
  induction o as [|[k' v'] o IH]; simpl; [reflexivity|].
  destruct (String.eqb k' k); [reflexivity | exact IH].
Qed.

Lemma obj_keys_set_In {V} (o : obj V) k v x :
  In x (obj_keys (obj_set o k v)) <-> In x (obj_keys o) \/ x = k.
Proof.
  induction o as [|[k' v'] o IH]; simpl.
  - split; [intros [H|[]]; auto | intros [[]|H]; auto].
  - destruct (String.eqb k' k) eqn:E; simpl.
    + apply String.eqb_eq in E. subst. intuition congruence.
    + rewrite IH. tauto.
Qed.

Lemma obj_set_NoDup {V} (o : obj V) k v :
  NoDup (obj_keys o) -> NoDup (obj_keys (obj_set o k v)).
Proof.
  induction o as [|[k' v'] o IH]; simpl; intros H.
  - constructor; [tauto | constructor].
  - inversion H; subst. destruct (String.eqb k' k) eqn:E; simpl.
    + constructor; assumption.
    + constructor; [|auto].
      rewrite obj_keys_set_In. intros [Hin|Heq]; [auto|].
      subst. rewrite String.eqb_refl in E. discriminate.
Qed.

Lemma remove_first_get_neq (a : list (string * string)) k k' :
  k <> k' -> obj_get (remove_first k a) k' = obj_get a k'.
Proof.
  intros Hne. induction a as [|[k0 v0] a IH]; simpl; [reflexivity|].
  destruct (String.eqb k0 k) eqn:E; simpl.
  - apply String.eqb_eq in E. subst.
    apply String.eqb_neq in Hne. rewrite Hne. reflexivity.
  - destruct (String.eqb k0 k'); [reflexivity | exact IH].
Qed.

Lemma remove_first_In (a : list (string * string)) k x :
  In x (obj_keys (remove_first k a)) -> In x (obj_keys a).
Proof.
  induction a as [|[k0 v0] a IH]; simpl; [tauto|].
  destruct (String.eqb k0 k); simpl; [auto|].
  intros [H|H]; auto.
Qed.

Lemma remove_first_NoDup (a : list (string * string)) k :
  NoDup (obj_keys a) -> NoDup (obj_keys (remove_first k a)).
Proof.
  induction a as [|[k0 v0] a IH]; simpl; intros H; [constructor|].
  inversion H; subst. destruct (String.eqb k0 k); simpl; [assumption|].
  constructor; [|auto]. intros Hin. apply H2. eapply remove_first_In. exact Hin.
Qed.

Lemma remove_first_get_eq (a : list (string * string)) k :
  NoDup (obj_keys a) -> obj_get (remove_first k a) k = None.
Proof.
  induction a as [|[k0 v0] a IH]; simpl; intros H; [reflexivity|].
  inversion H; subst. destruct (String.eqb k0 k) eqn:E; simpl.
  - apply String.eqb_eq in E. subst. apply obj_get_None. assumption.
  - rewrite E. auto.
Qed.

Lemma lower_char_idem a : lower_char (lower_char a) = lower_char a.
Proof.
  destruct a as [[] [] [] [] [] [] [] []]; reflexivity.
Qed.

Lemma lower_idem s : lower (lower s) = lower s.
Proof.
  induction s as [|a s IH]; simpl; [reflexivity|].
  rewrite lower_char_idem, IH. reflexivity.
Qed.

Lemma apply_op_NoDup a kv : NoDup (obj_keys a) -> NoDup (obj_keys (apply_op a kv)).
Proof.
  unfold apply_op. destruct (snd kv);
    [apply obj_set_NoDup | apply remove_first_NoDup].
Qed.

Lemma fold_ops_NoDup ops a :
  NoDup (obj_keys a) -> NoDup (obj_keys (fold_left apply_op ops a)).
Proof.
  revert a. induction ops as [|kv ops IH]; simpl; intros a H; [exact H|].
  apply IH, apply_op_NoDup, H.
Qed.

Lemma fold_ops_element ops t a c :
  fold_left (fun el kv =>
               match snd kv with
               | None => removeAttribute (fst kv) el
               | Some v => setAttribute (fst kv) v el
               end) ops (Element t a c)
  = Element t (fold_left apply_op ops a) c.
Proof.
  revert a. induction ops as [|kv ops IH]; intros a; simpl; [reflexivity|].
  unfold apply_op at 2. destruct (snd kv); simpl; apply IH.
Qed.

(** The attribute [k] after the calls for [ops]: the last entry whose
    name is [k] in lower case decides. *)
Lemma fold_ops_get ops a k :
  NoDup (obj_keys a) ->
  obj_get (fold_left apply_op ops a) k = final_value k ops (obj_get a k).
Proof.
  revert a. induction ops as [|[k' v'] ops IH]; intros a Hnd; simpl; [reflexivity|].
  rewrite IH by (apply apply_op_NoDup; exact Hnd).
  f_equal. unfold apply_op. simpl.
  destruct (String.eqb (lower k') k) eqn:E.
  - apply String.eqb_eq in E. subst k. destruct v' as [v'|].
    + apply obj_get_set_eq.
    + apply remove_first_get_eq. exact Hnd.
  - apply String.eqb_neq in E. destruct v' as [v'|].
    + apply obj_get_set_neq. exact E.
    + apply remove_first_get_neq. exact E.
Qed.

Lemma final_value_app k ops ops' init :
  final_value k (ops ++ ops') init = final_value k ops' (final_value k ops init).
Proof. unfold final_value. apply fold_left_app. Qed.

Lemma final_value_untouched k ops init :
  (forall k' v, In (k', v) ops -> lower k' <> k) ->
  final_value k ops init = init.
Proof.
  revert init. induction ops as [|[k' v'] ops IH]; intros init H; simpl; [reflexivity|].
  assert (E : String.eqb (lower k') k = false)
    by (apply String.eqb_neq; apply (H k' v'); left; reflexivity).
  unfold final_value in *. simpl. rewrite E. apply IH.
  intros k0 v0 Hin. apply (H k0 v0). right. exact Hin.
Qed.

(* ================================================================== *)
(** * [arrayUnique] *)
(* ================================================================== *)

Lemma indexOf_nth ar x j : indexOf ar x = Some j -> nth_error ar j = Some x.
Proof.
  revert j. induction ar as [|y ar IH]; simpl; intros j H; [discriminate|].
  destruct (String.eqb y x) eqn:E.
  - apply String.eqb_eq in E. inversion H; subst. reflexivity.
  - destruct (indexOf ar x) as [i|]; [|discriminate].
    inversion H; subst. simpl. apply IH. reflexivity.
Qed.

Lemma indexOf_In ar x : In x ar -> exists j, indexOf ar x = Some j.
Proof.
  induction ar as [|y ar IH]; simpl; [tauto|].
  intros H. destruct (String.eqb y x) eqn:E; [eauto|].
  destruct H as [H|H]; [subst; rewrite String.eqb_refl in E; discriminate|].
  destruct (IH H) as [j Hj]. rewrite Hj. simpl. eauto.
Qed.

Lemma in_combine_seq (ar : list string) k i x :
  In (i, x) (combine (seq k (List.length ar)) ar) <->
  k <= i /\ nth_error ar (i - k) = Some x.
Proof.
  revert k. induction ar as [|y ar IH]; intros k; simpl.
  - split; [tauto|]. intros [_ H]. destruct (i - k); discriminate.
  - rewrite IH. split.
    + intros [H|[H1 H2]].
      * inversion H; subst. rewrite Nat.sub_diag. auto.
      * split; [lia|]. replace (i - k) with (S (i - S k)) by lia. exact H2.
    + intros [H1 H2]. destruct (Nat.eq_dec i k) as [->|Hne].
      * rewrite Nat.sub_diag in H2. simpl in H2. inversion H2. auto.
      * right. split; [lia|].
        replace (i - k) with (S (i - S k)) in H2 by lia. exact H2.
Qed.

Lemma NoDup_combine_seq (ar : list string) k :
  NoDup (combine (seq k (List.length ar)) ar).
Proof.
  revert k. induction ar as [|y ar IH]; intros k; simpl; constructor; [|apply IH].
  rewrite in_combine_seq. lia.
Qed.

Lemma arrayUnique_In ar x : In x (arrayUnique ar) <-> In x ar.
Proof.
  unfold arrayUnique. rewrite in_map_iff. split.
  - intros ([i y] & Hy & Hin). simpl in Hy. subst y.
    apply filter_In in Hin. destruct Hin as [Hin _].
    apply in_combine_r in Hin. exact Hin.
  - intros Hin. destruct (indexOf_In ar x Hin) as [j Hj].
    exists (j, x). split; [reflexivity|].
    apply filter_In. split.
    + apply in_combine_seq. split; [lia|].
      rewrite Nat.sub_0_r. apply indexOf_nth. exact Hj.
    + simpl. rewrite Hj. apply Nat.eqb_refl.
Qed.

Lemma arrayUnique_NoDup ar : NoDup (arrayUnique ar).
Proof.
  unfold arrayUnique.
  apply NoDup_map_NoDup_ForallPairs.
  - intros [i x] [j y] Hx Hy Hxy. simpl in Hxy. subst y.
    apply filter_In in Hx. apply filter_In in Hy.
    destruct Hx as [_ Hx]. destruct Hy as [_ Hy]. simpl in *.
    destruct (indexOf ar x) as [n|]; [|discriminate].
    apply Nat.eqb_eq in Hx. apply Nat.eqb_eq in Hy. congruence.
  - apply NoDup_filter, NoDup_combine_seq.
Qed.

(* ================================================================== *)
(** * Class lists *)
(* ================================================================== *)

Lemma append_empty_r (s : string) : (s ++ EmptyString)%string = s.
Proof. induction s as [|a s IH]; simpl; [reflexivity | rewrite IH; reflexivity]. Qed.

Lemma append_assoc_s (s t u : string) : ((s ++ t) ++ u)%string = (s ++ (t ++ u))%string.
Proof. induction s as [|a s IH]; simpl; [reflexivity | rewrite IH; reflexivity]. Qed.

Lemma string_forall_app f (s t : string) :
  string_forall f (s ++ t) = string_forall f s && string_forall f t.
Proof.
  induction s as [|a s IH]; simpl; [reflexivity|].
  rewrite IH. apply andb_assoc.
Qed.

Lemma mem_In x l : mem x l = true <-> In x l.
Proof.
  unfold mem. rewrite existsb_exists. split.
  - intros (y & Hy & E). apply String.eqb_eq in E. subst. exact Hy.
  - intros H. exists x. split; [exact H | apply String.eqb_refl].
Qed.

Lemma mem_false x l : mem x l = false <-> ~ In x l.
Proof.
  rewrite <- mem_In. destruct (mem x l); split; intros; congruence.
Qed.

Lemma is_token_flush cur r :
  string_forall nws cur = true ->
  Forall (fun t => is_token t = true) r ->
  Forall (fun t => is_token t = true) (flush cur r).
Proof.
  intros Hc Hr. destruct cur as [|a cur]; simpl; [exact Hr|].
  constructor; [exact Hc | exact Hr].
Qed.

Lemma split_ws_tokens s cur :
  string_forall nws cur = true ->
  Forall (fun t => is_token t = true) (split_ws s cur).
Proof.
  revert cur. induction s as [|a s IH]; intros cur Hc; simpl.
  - apply is_token_flush; [exact Hc | constructor].
  - destruct (is_ascii_ws a) eqn:E.
    + apply is_token_flush; [exact Hc | apply IH; reflexivity].
    + apply IH. rewrite string_forall_app, Hc. simpl.
      unfold nws. rewrite E. reflexivity.
Qed.

Lemma split_ws_app_token t s cur :
  string_forall nws t = true ->
  split_ws (t ++ s) cur = split_ws s (cur ++ t).
Proof.
  revert cur. induction t as [|a t IH]; intros cur H; simpl.
  - rewrite append_empty_r. reflexivity.
  - simpl in H. apply andb_prop in H. destruct H as [Ha Ht].
    unfold nws in Ha. apply negb_true_iff in Ha. rewrite Ha.
    rewrite (IH _ Ht), append_assoc_s. reflexivity.
Qed.

Lemma is_token_nws t : is_token t = true -> string_forall nws t = true /\ t <> EmptyString.
Proof.
  destruct t as [|a t]; simpl; [discriminate|]. intros H. split; [exact H | discriminate].
Qed.

Lemma split_token t :
  is_token t = true -> split_ws t EmptyString = [t].
Proof.
  intros H. destruct (is_token_nws t H) as [Hn Hne].
  rewrite <- (append_empty_r t) at 1.
  rewrite (split_ws_app_token t EmptyString EmptyString Hn). simpl.
  destruct t; [congruence | reflexivity].
Qed.

(** Joining tokens with single spaces and splitting again gives the
    tokens back. *)
Lemma split_join ts :
  Forall (fun t => is_token t = true) ts ->
  split_ws (String.concat " " ts) EmptyString = ts.
Proof.
  induction ts as [|t ts IH]; intros H; [reflexivity|].
  inversion H as [|? ? Ht Hts]; subst.
  destruct ts as [|t2 ts].
  - simpl. apply split_token. exact Ht.
  - change (String.concat " " (t :: t2 :: ts))
      with (t ++ (String " " (String.concat " " (t2 :: ts))))%string.
    destruct (is_token_nws t Ht) as [Hn Hne].
    rewrite (split_ws_app_token t _ EmptyString Hn).
    cbn [split_ws is_ascii_ws]. simpl is_ascii_ws. cbv iota.
    rewrite (IH Hts). simpl. destruct t; [congruence | reflexivity].
Qed.

Lemma set_append_In l x y : In y (set_append l x) <-> In y l \/ y = x.
Proof.
  unfold set_append. destruct (mem x l) eqn:E.
  - apply mem_In in E. split; [auto|]. intros [H|H]; [exact H | subst; exact E].
  - rewrite in_app_iff. simpl. intuition congruence.
Qed.

Lemma set_append_NoDup l x : NoDup l -> NoDup (set_append l x).
Proof.
  intros H. unfold set_append. destruct (mem x l) eqn:E; [exact H|].
  apply mem_false in E. apply NoDup_app; [exact H | repeat constructor; tauto |].
  intros y Hy [Hx|[]]. subst. auto.
Qed.

Lemma fold_set_append_In l acc y :
  In y (fold_left set_append l acc) <-> In y acc \/ In y l.
Proof.
  revert acc. induction l as [|x l IH]; intros acc; simpl; [tauto|].
  rewrite IH, set_append_In. intuition congruence.
Qed.

Lemma fold_set_append_NoDup l acc :
  NoDup acc -> NoDup (fold_left set_append l acc).
Proof.
  revert acc. induction l as [|x l IH]; intros acc H; simpl; [exact H|].
  apply IH, set_append_NoDup, H.
Qed.

Lemma fold_set_append_id l acc :
  NoDup (acc ++ l) -> fold_left set_append l acc = acc ++ l.
Proof.
  revert acc. induction l as [|x l IH]; intros acc H; simpl.
  - rewrite app_nil_r. reflexivity.
  - assert (E : mem x acc = false).
    { apply mem_false. intros Hin. apply NoDup_remove_2 in H.
      apply H. apply in_or_app. left. exact Hin. }
    unfold set_append at 2. rewrite E.
    rewrite IH; rewrite <- app_assoc; [reflexivity | exact H].
Qed.

Lemma fold_set_append_tokens l acc :
  Forall (fun t => is_token t = true) acc ->
  Forall (fun t => is_token t = true) l ->
  Forall (fun t => is_token t = true) (fold_left set_append l acc).
Proof.
  intros Ha Hl. apply Forall_forall. intros y Hy.
  apply fold_set_append_In in Hy. rewrite Forall_forall in Ha, Hl.
  destruct Hy; auto.
Qed.

Lemma classList_element t a c : classList (Element t a c) = class_tokens a.
Proof. reflexivity. Qed.

Lemma class_tokens_NoDup a : NoDup (class_tokens a).
Proof.
  unfold class_tokens. destruct (obj_get a "class"); [|constructor].
  apply fold_set_append_NoDup. constructor.
Qed.

Lemma class_tokens_valid a : Forall (fun t => is_token t = true) (class_tokens a).
Proof.
  unfold class_tokens. destruct (obj_get a "class"); [|constructor].
  apply fold_set_append_tokens; [constructor | apply split_ws_tokens; reflexivity].
Qed.

Lemma class_tokens_add a c :
  is_token c = true -> class_tokens (add_class a c) = set_append (class_tokens a) c.
Proof.
  intros Hc. unfold add_class.
  set (L := set_append (class_tokens a) c).
  unfold class_tokens at 1. rewrite obj_get_set_eq.
  assert (HL : Forall (fun t => is_token t = true) L).
  { apply Forall_forall. intros y Hy. apply set_append_In in Hy.
    destruct Hy as [Hy| ->]; [|exact Hc].
    pose proof (class_tokens_valid a) as Hv. rewrite Forall_forall in Hv. auto. }
  rewrite (split_join L HL).
  apply (fold_set_append_id L []). simpl.
  apply set_append_NoDup, class_tokens_NoDup.
Qed.

Lemma fold_add_class_element cs t a ch :
  fold_left (fun el c => classList_add c el) cs (Element t a ch)
  = Element t (fold_left add_class cs a) ch.
Proof.
  revert a. induction cs as [|c cs IH]; intros a; simpl; [reflexivity|].
  apply IH.
Qed.

Lemma fold_add_class_tokens cs a :
  Forall (fun t => is_token t = true) cs ->
  class_tokens (fold_left add_class cs a) = fold_left set_append cs (class_tokens a).
Proof.
  revert a. induction cs as [|c cs IH]; intros a H; simpl; [reflexivity|].
  inversion H; subst. rewrite IH by assumption.
  rewrite class_tokens_add by assumption. reflexivity.
Qed.

Lemma fold_add_class_get cs a k :
  k <> "class" -> obj_get (fold_left add_class cs a) k = obj_get a k.
Proof.
  intros Hk. revert a. induction cs as [|c cs IH]; intros a; simpl; [reflexivity|].
  rewrite IH. unfold add_class. apply obj_get_set_neq. congruence.
Qed.

Lemma fold_add_class_NoDup cs a :
  NoDup (obj_keys a) -> NoDup (obj_keys (fold_left add_class cs a)).
Proof.
  revert a. induction cs as [|c cs IH]; intros a H; simpl; [exact H|].
  apply IH. unfold add_class. apply obj_set_NoDup. exact H.
Qed.

(* ================================================================== *)
(** * The node built by [convert] *)
(* ================================================================== *)

Lemma convert_element el def :
  convert el def = Element (lower (tag def)) (built_attrs el def) (childNodes el).
Proof.
  unfold convert, createElement, built_attrs, document_createElement.
  cbn [tag id classes attrs].
  destruct (id def) as [i|]; cbn [setAttribute with_attributes attributes];
    rewrite fold_add_class_element, fold_ops_element; reflexivity.
Qed.

Lemma is_undefined_app {V} (o acc : obj V) n :
  ~ In n (obj_keys acc) -> is_undefined (o ++ acc) n = is_undefined o n.
Proof.
  intros H. unfold is_undefined. rewrite obj_get_app.
  destruct (obj_get o n); [reflexivity|].
  apply obj_get_None in H. rewrite H. reflexivity.
Qed.

Lemma is_undefined_None {V} (o : obj V) n :
  is_undefined o n = true -> obj_get o n = None.
Proof. unfold is_undefined. destruct (obj_get o n); [discriminate | reflexivity]. Qed.

(** The merged attribute map: the entries of the descriptor, then the
    attributes of [el] other than [class] that the descriptor does not
    name. *)
Lemma merge_attrs_spec el a0 :
  NoDup (getAttributeNames el) ->
  merge_attrs el a0 =
    a0 ++ map (fun n => (n, getAttribute el n))
              (filter (fun n => negb (mem n ["class"]) && is_undefined a0 n)
                      (getAttributeNames el)).
Proof.
  unfold merge_attrs. intros Hnd.
  rewrite <- (app_nil_r a0) at 1.
  assert (Hgen : forall names acc,
    NoDup names ->
    (forall n, In n names -> ~ In n (obj_keys acc)) ->
    fold_left (fun attrs prop =>
                 if mem prop ["class"] then attrs
                 else if is_undefined attrs prop
                      then obj_set attrs prop (getAttribute el prop)
                      else attrs) names (a0 ++ acc)
    = a0 ++ acc ++ map (fun n => (n, getAttribute el n))
                       (filter (fun n => negb (mem n ["class"]) && is_undefined a0 n)
                               names)).
  { induction names as [|n names IH]; intros acc Hn Hacc; cbn [fold_left filter].
    - simpl. rewrite app_nil_r. reflexivity.
    - inversion Hn; subst.
      destruct (mem n ["class"]) eqn:Ec; cbn [negb andb].
      + apply IH; [assumption | intros m Hm; apply Hacc; right; exact Hm].
      + rewrite is_undefined_app by (apply Hacc; left; reflexivity).
        destruct (is_undefined a0 n) eqn:Eu.
        * rewrite obj_set_new.
          -- rewrite <- app_assoc. rewrite IH; [|assumption|].
             ++ cbn [map]. rewrite <- app_assoc. reflexivity.
             ++ intros m Hm. unfold obj_keys. rewrite map_app, in_app_iff.
                simpl. intros [Hin|[Heq|[]]].
                ** apply (Hacc m); [right; exact Hm | exact Hin].
                ** subst. auto.
          -- rewrite obj_get_app, (is_undefined_None _ _ Eu).
             apply obj_get_None. apply Hacc. left. reflexivity.
        * apply IH; [assumption | intros m Hm; apply Hacc; right; exact Hm]. }
  rewrite (Hgen _ [] Hnd); [reflexivity | intros n _ []].
Qed.

Lemma classList_attributes el : classList el = class_tokens (attributes el).
Proof. destruct el; reflexivity. Qed.

Lemma merge_attrs_class el a0 k' v :
  html_element el ->
  In (k', v) (merge_attrs el a0) ->
  lower k' = "class" ->
  In (k', v) a0.
Proof.
  intros (Hnd & Hlow & _) Hin Hl.
  rewrite (merge_attrs_spec el a0 Hnd) in Hin.
  apply in_app_or in Hin. destruct Hin as [Hin|Hin]; [exact Hin|].
  exfalso. apply in_map_iff in Hin. destruct Hin as (n & Hn & Hf).
  inversion Hn; subst. apply filter_In in Hf. destruct Hf as [Hf1 Hf2].
  rewrite Forall_forall in Hlow. rewrite (Hlow _ Hf1) in Hl. subst.
  discriminate Hf2.
Qed.

(** C7 (counterexample).  The descriptor parsed from [div.b.c(class=null)]
    has the classes [b] and [c] and the attribute entry [class: null];
    merged with a node of classes [a] and [b], it gives a node without
    any class. *)
Lemma class_union_counterexample :
  parse "div.b.c(class=null)" =
    Some (Some [mkDescriptor "div" None ["b"; "c"] [("class", None)]], [])
  /\ classList (Element "p" [("class", "a b")] []) = ["a"; "b"]
  /\ classList (convert (Element "p" [("class", "a b")] [])
                        (mkDescriptor "div" None ["b"; "c"] [("class", None)])) = [].
Proof. repeat split; vm_compute; reflexivity. Qed.

(** C7 (amended).  For a descriptor whose attribute map has no entry
    named [class], the class list of the node built by the merge has no
    duplicates and is, as a set, the union of the classes of the node and
    of the descriptor. *)
Theorem class_union (el : Node) (def : descriptor) :
  html_element el ->
  Forall (fun c => is_token c = true) (classes def) ->
  (forall k v, In (k, v) (attrs def) -> lower k <> "class") ->
  NoDup (classList (convert el def)) /\
  (forall c, In c (classList (convert el def)) <->
             In c (classList el) \/ In c (classes def)).
Proof.
  intros Hel Htok Hkeys.
  set (L := arrayUnique (classes def ++ classList el)).
  assert (HL : classList (convert el def) = L).
  { rewrite convert_element, classList_element. unfold built_attrs. fold L.
    unfold class_tokens at 1. rewrite fold_ops_get.
    - rewrite final_value_untouched.
      + fold (class_tokens (fold_left add_class L
                 match id def with Some i => [("id", i)] | None => [] end)).
        rewrite fold_add_class_tokens.
        * replace (class_tokens match id def with Some i => [("id", i)] | None => [] end)
            with (@nil string) by (destruct (id def); reflexivity).
          apply (fold_set_append_id L []). simpl. apply arrayUnique_NoDup.
        * apply Forall_forall. intros c Hc. unfold L in Hc.
          apply (proj1 (arrayUnique_In _ _)) in Hc. apply in_app_or in Hc. destruct Hc as [Hc|Hc].
          -- rewrite Forall_forall in Htok. auto.
          -- rewrite classList_attributes in Hc.
             pose proof (class_tokens_valid (attributes el)) as Hv.
             rewrite Forall_forall in Hv. auto.
      + intros k' v Hin Hl.
        apply (Hkeys k' v); [|exact Hl].
        eapply merge_attrs_class; eassumption.
    - apply fold_add_class_NoDup. destruct (id def); repeat constructor; simpl; tauto. }
  rewrite HL. split; [apply arrayUnique_NoDup|].
  intros c. unfold L. rewrite arrayUnique_In, in_app_iff. tauto.
Qed.

Lemma class_union_witness :
  NoDup (classList (convert (Element "p" [("class", "a b")] [])
                            (mkDescriptor "div" None ["b"; "c"] []))) /\
  (forall c, In c (classList (convert (Element "p" [("class", "a b")] [])
                                      (mkDescriptor "div" None ["b"; "c"] []))) <->
             In c (classList (Element "p" [("class", "a b")] [])) \/
             In c (classes (mkDescriptor "div" None ["b"; "c"] []))).
Proof.
  apply class_union.
  - repeat split; repeat constructor; simpl; tauto.
  - repeat constructor.
  - intros k v [].
Defined.

Lemma final_value_unique k v ops init :
  NoDup (obj_keys ops) ->
  Forall (fun k' => lower k' = k') (obj_keys ops) ->
  In (k, v) ops ->
  final_value k ops init = v.
Proof.
  revert init. induction ops as [|[k' v'] ops IH]; intros init Hnd Hlow Hin; [destruct Hin|].
  inversion Hnd; subst. inversion Hlow; subst. simpl in *.
  unfold final_value in *. simpl.
  destruct Hin as [Hin|Hin].
  - inversion Hin; subst. rewrite H3, String.eqb_refl.
    apply (final_value_untouched k ops v).
    intros k0 v0 Hin0 Hl. rewrite Forall_forall in H4.
    rewrite (H4 k0) in Hl by (change k0 with (fst (k0, v0)); apply in_map; exact Hin0).
    subst. apply H1. change k with (fst (k, v0)). apply in_map. exact Hin0.
  - destruct (String.eqb (lower k') k) eqn:E.
    + apply String.eqb_eq in E. rewrite H3 in E. subst. exfalso. apply H1.
      change k with (fst (k, v)). apply in_map. exact Hin.
    + apply IH; assumption.
Qed.

(** C2 (counterexample).  The node takes over the id of [el]: with a
    descriptor without id it has the id of [el], and with a descriptor of
    id [d] it has the id of [el] as well, not [d]. *)
Lemma id_carried_counterexample :
  parse "div" = Some (Some [mkDescriptor "div" None [] []], [])
  /\ getAttribute (convert (Element "p" [("id", "e")] [])
                           (mkDescriptor "div" None [] [])) "id" = Some "e"
  /\ parse "div#d" = Some (Some [mkDescriptor "div" (Some "d") [] []], [])
  /\ getAttribute (convert (Element "p" [("id", "e")] [])
                           (mkDescriptor "div" (Some "d") [] [])) "id" = Some "e".
Proof. repeat split; vm_compute; reflexivity. Qed.

(** C2 (amended).  For a descriptor whose attribute map has no entry
    named [id]: when [el] has an [id] attribute, the built node has the
    id of [el]; when [el] has none, the built node has the id of the
    descriptor when there is one, and no id otherwise. *)
Theorem built_id (el : Node) (def : descriptor) :
  html_element el ->
  (forall k v, In (k, v) (attrs def) -> lower k <> "id") ->
  getAttribute (convert el def) "id" =
    match getAttribute el "id" with
    | Some i => Some i
    | None => id def
    end.
Proof.
  intros Hel Hkeys.
  rewrite convert_element. unfold getAttribute at 1. cbn [attributes].
  change (lower "id") with "id".
  unfold built_attrs. rewrite fold_ops_get
    by (apply fold_add_class_NoDup; destruct (id def); repeat constructor; simpl; tauto).
  rewrite fold_add_class_get by discriminate.
  match goal with
  | |- final_value _ _ ?x = _ =>
      replace x with (id def) by (destruct (id def); reflexivity)
  end.
  destruct Hel as (Hnd & Hlow & _).
  rewrite (merge_attrs_spec el (attrs def) Hnd), final_value_app.
  rewrite (final_value_untouched "id" (attrs def)) by exact Hkeys.
  assert (Hundef : is_undefined (attrs def) "id" = true).
  { unfold is_undefined.
    destruct (obj_get (attrs def) "id") eqn:E; [|reflexivity].
    apply obj_get_Some_In in E. exfalso. exact (Hkeys _ _ E eq_refl). }
  set (names := filter (fun n => negb (mem n ["class"]) && is_undefined (attrs def) n)
                       (getAttributeNames el)).
  assert (Hnames_nd : NoDup (obj_keys (map (fun n => (n, getAttribute el n)) names))).
  { unfold obj_keys. rewrite map_map. simpl. rewrite map_id.
    apply NoDup_filter. exact Hnd. }
  assert (Hnames_low :
            Forall (fun k' => lower k' = k')
                   (obj_keys (map (fun n => (n, getAttribute el n)) names))).
  { unfold obj_keys. rewrite map_map. simpl. rewrite map_id.
    apply Forall_forall. intros n Hn. apply filter_In in Hn.
    rewrite Forall_forall in Hlow. apply Hlow. tauto. }
  destruct (getAttribute el "id") as [i|] eqn:Eid.
  - apply (final_value_unique "id" (Some i)); [assumption|assumption|].
    apply in_map_iff. exists "id". split; [rewrite Eid; reflexivity|].
    apply filter_In. split.
    + unfold getAttribute in Eid. change (lower "id") with "id" in Eid.
      apply obj_get_Some_In in Eid.
      change "id" with (fst ("id", i)). apply in_map. exact Eid.
    + rewrite Hundef. reflexivity.
  - apply final_value_untouched. intros k' v Hin Hl.
    apply in_map_iff in Hin. destruct Hin as (n & Hn & Hf). inversion Hn; subst.
    apply filter_In in Hf. destruct Hf as [Hf _].
    rewrite Forall_forall in Hlow. rewrite (Hlow _ Hf) in Hl. subst.
    unfold getAttribute in Eid. change (lower "id") with "id" in Eid.
    apply obj_get_None in Eid. exact (Eid Hf).
Qed.

Lemma built_id_witness :
  getAttribute (convert (Element "p" [("id", "e"); ("title", "t")] [])
                        (mkDescriptor "div" (Some "d") ["c"] [("title", None)])) "id"
  = Some "e".
Proof.
  apply (built_id (Element "p" [("id", "e"); ("title", "t")] [])
                  (mkDescriptor "div" (Some "d") ["c"] [("title", None)])).
  - repeat split; repeat constructor; simpl; intuition discriminate.
  - intros k v [H|[]]. inversion H; subst. discriminate.
Defined.

(* ================================================================== *)
(** * Placeholders *)
(* ================================================================== *)

Lemma obj_set_lower_keys {V} (a : obj V) k v :
  lower_keys a -> lower k = k -> lower_keys (obj_set a k v).
Proof.
  unfold lower_keys. rewrite !Forall_forall. intros H Hk x Hx.
  apply obj_keys_set_In in Hx. destruct Hx as [Hx| ->]; auto.
Qed.

Lemma apply_op_lower_keys a kv : lower_keys a -> lower_keys (apply_op a kv).
Proof.
  unfold apply_op. intros H. destruct (snd kv).
  - apply obj_set_lower_keys; [exact H | apply lower_idem].
  - unfold lower_keys in *. rewrite Forall_forall in *. intros x Hx.
    apply H. eapply remove_first_In. exact Hx.
Qed.

Lemma fold_ops_lower_keys ops a : lower_keys a -> lower_keys (fold_left apply_op ops a).
Proof.
  revert a. induction ops as [|kv ops IH]; intros a H; simpl; [exact H|].
  apply IH, apply_op_lower_keys, H.
Qed.

Lemma fold_add_class_lower_keys cs a :
  lower_keys a -> lower_keys (fold_left add_class cs a).
Proof.
  revert a. induction cs as [|c cs IH]; intros a H; simpl; [exact H|].
  apply IH. unfold add_class. apply obj_set_lower_keys; [exact H | reflexivity].
Qed.

Lemma built_attrs_keys el def :
  NoDup (obj_keys (built_attrs el def)) /\ lower_keys (built_attrs el def).
Proof.
  unfold built_attrs. split.
  - apply fold_ops_NoDup, fold_add_class_NoDup.
    destruct (id def); repeat constructor; simpl; tauto.
  - apply fold_ops_lower_keys, fold_add_class_lower_keys.
    destruct (id def); repeat constructor.
Qed.

(** [getAttrs] of a node whose attribute names differ from each other:
    its attributes, without [__proto__]. *)
Lemma getAttrs_spec el :
  NoDup (getAttributeNames el) ->
  getAttrs el = filter not_proto (attributes el).
Proof.
  unfold getAttrs, getAttributeNames.
  assert (Hgen : forall a acc,
    NoDup (map fst a) ->
    (forall k, In k (map fst a) -> ~ In k (obj_keys acc)) ->
    fold_left (fun o kv =>
                 if String.eqb (fst kv) "__proto__" then o
                 else obj_set o (fst kv) (snd kv)) a acc
    = acc ++ filter not_proto a).
  { induction a as [|[k v] a IH]; intros acc Hnd Hacc; cbn [fold_left filter].
    - rewrite app_nil_r. reflexivity.
    - inversion Hnd; subst. unfold not_proto at 1. cbn [fst snd].
      destruct (String.eqb k "__proto__"); cbn [negb].
      + apply IH; [assumption | intros k' Hk'; apply Hacc; right; exact Hk'].
      + rewrite obj_set_new by (apply obj_get_None, Hacc; left; reflexivity).
        rewrite IH; [rewrite <- app_assoc; reflexivity | assumption |].
        intros k' Hk'. unfold obj_keys. rewrite map_app, in_app_iff. simpl.
        intros [Hin|[Heq|[]]].
        * apply (Hacc k'); [right; exact Hk' | exact Hin].
        * subst. auto. }
  intros Hnd. rewrite (Hgen _ [] Hnd); [reflexivity | intros k _ []].
Qed.

Lemma fold_set_element l t a c :
  fold_left (fun el kv => setAttribute (fst kv) (snd kv) el) l (Element t a c)
  = Element t (fold_left apply_op (map (fun kv => (fst kv, Some (snd kv))) l) a) c.
Proof.
  revert a. induction l as [|kv l IH]; intros a; simpl; [reflexivity|].
  apply IH.
Qed.

Lemma convertMatched_element target el :
  convertMatched target el =
    Element (lower (tag target)) (substituted_attrs el target) (childNodes el).
Proof.
  unfold convertMatched. rewrite convert_element.
  rewrite (getAttrs_spec (Element (lower (tag target)) (built_attrs el target)
                                  (childNodes el)))
    by (apply (proj1 (built_attrs_keys el target))).
  cbn [attributes]. rewrite fold_set_element, map_map. reflexivity.
Qed.

Lemma NoDup_map_filter {A B} (f : A -> B) (P : A -> bool) (l : list A) :
  NoDup (map f l) -> NoDup (map f (filter P l)).
Proof.
  induction l as [|x l IH]; intros H; [constructor|].
  inversion H; subst. cbn [filter]. destruct (P x); cbn [map]; [|auto].
  constructor; [|auto]. intros Hi. apply H2. apply in_map_iff in Hi.
  destruct Hi as (y & Hy & Hf). apply filter_In in Hf. destruct Hf as [Hf _].
  rewrite <- Hy. apply in_map. exact Hf.
Qed.

(** After the substitution, every attribute of the converted node other
    than [__proto__] has the value that [substitute] gives. *)
Lemma substituted_get el target k v :
  In (k, v) (built_attrs el target) ->
  k <> "__proto__" ->
  obj_get (substituted_attrs el target) k = Some (substitute (getAttrs el) v).
Proof.
  intros Hin Hk. destruct (built_attrs_keys el target) as [Hnd Hlow].
  unfold substituted_attrs. rewrite fold_ops_get by exact Hnd.
  apply final_value_unique.
  - unfold obj_keys. rewrite map_map. cbn [fst].
    apply (NoDup_map_filter (fun x : string * string => fst x)). exact Hnd.
  - unfold lower_keys, obj_keys in *. rewrite map_map. cbn [fst].
    rewrite Forall_forall in *. intros x Hx. apply in_map_iff in Hx.
    destruct Hx as (y & Hy & Hf). apply filter_In in Hf. destruct Hf as [Hf _].
    apply Hlow. rewrite <- Hy. apply in_map. exact Hf.
  - apply in_map_iff. exists (k, v). split; [reflexivity|].
    apply filter_In. split; [exact Hin|].
    unfold not_proto. cbn [fst]. apply negb_true_iff, String.eqb_neq. exact Hk.
Qed.

(** An attribute that the converted node lacks is not brought back by the
    substitution. *)
Lemma substituted_get_None el target k :
  lower k = k ->
  obj_get (built_attrs el target) k = None ->
  obj_get (substituted_attrs el target) k = None.
Proof.
  intros Hk Hget. destruct (built_attrs_keys el target) as [Hnd Hlow].
  unfold substituted_attrs. rewrite fold_ops_get by exact Hnd.
  rewrite Hget. apply final_value_untouched.
  intros k' v Hin Hl. apply in_map_iff in Hin.
  destruct Hin as ([k0 v0] & Heq & Hf). cbn [fst snd] in Heq.
  injection Heq as E1 E2. rewrite <- E1 in Hl. clear E1 E2.
  apply filter_In in Hf. destruct Hf as [Hf _].
  unfold lower_keys in Hlow. rewrite Forall_forall in Hlow.
  assert (Hk0 : In k0 (obj_keys (built_attrs el target)))
    by (change k0 with (fst (k0, v0)); apply in_map; exact Hf).
  rewrite (Hlow _ Hk0) in Hl. rewrite Hl in Hk0.
  apply obj_get_None in Hget. exact (Hget Hk0).
Qed.

Lemma prefix_cons a s b t :
  String.prefix (String a s) (String b t) = true -> a = b /\ String.prefix s t = true.
Proof. simpl. destruct (ascii_dec a b); [auto | discriminate]. Qed.

Lemma prefix_href n : String.prefix (n ++ "}") "href}" = true -> n = "href".
Proof.
  intros H.
  do 4 (destruct n as [|? n]; [discriminate H|];
        change (String.prefix (String a (n ++ "}")) "href}" = true) in H ||
        idtac;
        cbn [String.append] in H; apply prefix_cons in H; destruct H as [-> H]).
  destruct n as [|? n]; [reflexivity|].
  cbn [String.append] in H. apply prefix_cons in H. destruct H as [_ H].
  destruct n; discriminate H.
Qed.

Lemma find_first_other n : n <> "href" -> find_first (placeholder n) "${href}" = None.
Proof.
  intros Hn.
  assert (E0 : find_first (placeholder n) "${href}" =
               if String.prefix (n ++ "}") "href}"
               then Some (EmptyString, drop (String.length (n ++ "}")) "href}")
               else None) by reflexivity.
  rewrite E0. destruct (String.prefix (n ++ "}") "href}") eqn:E; [|reflexivity].
  apply prefix_href in E. contradiction.
Qed.

Lemma find_first_x n : find_first (placeholder n) "x" = None.
Proof. reflexivity. Qed.

Lemma substitute_unchanged l v :
  (forall kv, In kv l -> find_first (placeholder (fst kv)) v = None) ->
  substitute l v = v.
Proof.
  unfold substitute. induction l as [|kv l IH]; intros H; [reflexivity|].
  cbn [fold_left]. unfold js_replace at 2.
  rewrite (H kv) by (left; reflexivity).
  apply IH. intros kv' Hin. apply H. right. exact Hin.
Qed.

Lemma substitute_app l l' v :
  substitute (l ++ l') v = substitute l' (substitute l v).
Proof. unfold substitute. apply fold_left_app. Qed.

(** The placeholder of [href] alone, for a node whose [href] is [x]. *)
Lemma substitute_href el :
  html_element el ->
  getAttribute el "href" = Some "x" ->
  substitute (getAttrs el) "${href}" = "x".
Proof.
  intros (Hnd & Hlow & _) Hget.
  rewrite (getAttrs_spec el Hnd).
  assert (Hin : In ("href", "x") (filter not_proto (attributes el))).
  { apply filter_In. split; [|reflexivity].
    apply obj_get_Some_In. exact Hget. }
  assert (Hnd' : NoDup (map fst (filter not_proto (attributes el))))
    by (apply NoDup_map_filter; exact Hnd).
  destruct (in_split _ _ Hin) as (l1 & l2 & E). rewrite E in *.
  rewrite map_app in Hnd'. cbn [map fst] in Hnd'.
  rewrite substitute_app.
  rewrite (substitute_unchanged l1).
  - change (substitute (("href", "x") :: l2) "${href}") with (substitute l2 "x").
    apply substitute_unchanged. intros kv _. apply find_first_x.
  - intros [k v] Hkv. apply find_first_other. cbn [fst]. intros ->.
    apply NoDup_remove_2 in Hnd'. apply Hnd'. apply in_or_app. left.
    change "href" with (fst ("href", v)). apply in_map. exact Hkv.
Qed.

(** An entry of the attribute map of the descriptor, with a name in lower
    case, decides the attribute of the built node. *)
Lemma built_attrs_explicit el def k v :
  html_element el ->
  NoDup (obj_keys (attrs def)) ->
  lower_keys (attrs def) ->
  In (k, v) (attrs def) ->
  obj_get (built_attrs el def) k = v.
Proof.
  intros (Hnd & Hlow & _) Hnd' Hlow' Hin. unfold built_attrs.
  rewrite fold_ops_get
    by (apply fold_add_class_NoDup; destruct (id def); repeat constructor; simpl; tauto).
  rewrite (merge_attrs_spec el (attrs def) Hnd), final_value_app.
  rewrite (final_value_unique k v (attrs def)) by assumption.
  apply final_value_untouched. intros k' v' Hin' Hl.
  apply in_map_iff in Hin'. destruct Hin' as (n & Hn & Hf).
  injection Hn as E1 E2. rewrite <- E1 in Hl. clear E1 E2.
  apply filter_In in Hf. destruct Hf as [Hf1 Hf2].
  rewrite Forall_forall in Hlow. rewrite (Hlow _ Hf1) in Hl. subst n.
  apply andb_prop in Hf2. destruct Hf2 as [_ Hu].
  apply is_undefined_None in Hu.
  rewrite (obj_get_In _ _ _ Hnd' Hin) in Hu. discriminate.
Qed.

(** C6. A node with the attribute [href] of value [x], merged with a
    descriptor whose attribute map is [{href: null}], gives a node
    without [href]; merged with [{href: "${href}"}] it gives a node whose
    [href] is [x] once the placeholders are replaced. *)
Theorem href_removal_and_override
        (el : Node) (t : string) (i : option string) (cls : list string) :
  html_element el ->
  getAttribute el "href" = Some "x" ->
  getAttribute (convertMatched (mkDescriptor t i cls [("href", None)]) el) "href"
    = None
  /\ getAttribute
       (convertMatched (mkDescriptor t i cls [("href", Some "${href}")]) el) "href"
     = Some "x".
Proof.
  intros Hel Hget. split.
  - rewrite convertMatched_element. unfold getAttribute. cbn [attributes].
    change (lower "href") with "href".
    apply substituted_get_None; [reflexivity|].
    apply built_attrs_explicit; [exact Hel | | | left; reflexivity];
      repeat constructor; simpl; tauto.
  - rewrite convertMatched_element. unfold getAttribute at 1. cbn [attributes].
    change (lower "href") with "href".
    rewrite (substituted_get el _ "href" "${href}"); [|  | discriminate].
    + rewrite (substitute_href el Hel Hget). reflexivity.
    + apply obj_get_Some_In.
      apply built_attrs_explicit; [exact Hel | | | left; reflexivity];
        repeat constructor; simpl; tauto.
Qed.

Lemma href_removal_and_override_witness :
  getAttribute (convertMatched (mkDescriptor "a" None [] [("href", None)])
                               (Element "a" [("href", "x")] [Text "Go"])) "href"
    = None
  /\ getAttribute
       (convertMatched (mkDescriptor "a" None [] [("href", Some "${href}")])
                       (Element "a" [("href", "x")] [Text "Go"])) "href"
     = Some "x".
Proof.
  apply href_removal_and_override.
  - repeat split; repeat constructor; simpl; tauto.
  - reflexivity.
Defined.

Lemma find_first_eq pat s :
  find_first pat s =
    if String.prefix pat s then Some (EmptyString, drop (String.length pat) s)
    else match s with
         | EmptyString => None
         | String a r =>
             match find_first pat r with
             | Some (before, after) => Some (String a before, after)
             | None => None
             end
         end.
Proof. destruct s; reflexivity. Qed.

Lemma prefix_app pat a : String.prefix pat (pat ++ a) = true.
Proof.
  induction pat as [|c pat IH]; simpl; [destruct a; reflexivity|].
  destruct (ascii_dec c c); [exact IH | congruence].
Qed.

Lemma drop_app pat a : drop (String.length pat) (pat ++ a) = a.
Proof. induction pat as [|c pat IH]; simpl; [destruct a; reflexivity | exact IH]. Qed.

Lemma prefix_split pat s :
  String.prefix pat s = true -> s = (pat ++ drop (String.length pat) s)%string.
Proof.
  revert s. induction pat as [|c pat IH]; intros s H; simpl.
  - destruct s; reflexivity.
  - destruct s as [|d s]; [discriminate H|].
    apply prefix_cons in H. destruct H as [-> H].
    rewrite <- (IH s H). reflexivity.
Qed.

(** [find_first] finds the first occurrence. *)
Lemma find_first_min pat b a :
  (forall b' a', (b ++ pat ++ a)%string = (b' ++ pat ++ a')%string ->
                 String.length b <= String.length b') ->
  find_first pat (b ++ pat ++ a) = Some (b, a).
Proof.
  induction b as [|c b IH]; intros Hmin; rewrite find_first_eq.
  - cbn [String.append]. rewrite prefix_app, drop_app. reflexivity.
  - destruct (String.prefix pat (String c b ++ pat ++ a)) eqn:E.
    + apply prefix_split in E.
      specialize (Hmin EmptyString _ E). simpl in Hmin. lia.
    + cbn [String.append]. rewrite IH; [reflexivity|].
      intros b' a' Heq.
      specialize (Hmin (String c b') a'). cbn [String.append] in Hmin.
      rewrite Heq in Hmin. specialize (Hmin eq_refl). simpl in Hmin. lia.
Qed.

Lemma GetSubstitution_plain matched before after r :
  string_exists is_dollar r = false -> GetSubstitution matched before after r = r.
Proof.
  induction r as [|c r IH]; intros H; [reflexivity|].
  simpl in H. apply orb_false_iff in H. destruct H as [Hc Hr].
  unfold is_dollar in Hc. cbn [GetSubstitution]. rewrite Hc, (IH Hr). reflexivity.
Qed.

(** Every attribute of the merged target node, other than one named
    [__proto__], ends with the value that the calls of [replace] give
    it: the attributes of [el] are gone through in their order, one call
    for each. *)
Lemma substituted_value (el : Node) (target : descriptor) k v :
  In (k, v) (attributes (convert el target)) ->
  k <> "__proto__" ->
  getAttribute (convertMatched target el) k =
    Some (fold_left (fun v kv => js_replace v (placeholder (fst kv)) (snd kv))
                    (getAttrs el) v).
Proof.
  intros Hin Hk. rewrite convert_element in Hin. cbn [attributes] in Hin.
  rewrite convertMatched_element. unfold getAttribute. cbn [attributes].
  destruct (built_attrs_keys el target) as [_ Hlow].
  unfold lower_keys in Hlow. rewrite Forall_forall in Hlow.
  rewrite (Hlow k) by (change k with (fst (k, v)); apply in_map; exact Hin).
  rewrite (substituted_get el target k v Hin Hk). f_equal.
  unfold substitute. generalize v. clear.
  induction (getAttrs el) as [|kv l IH]; intros v; [reflexivity|].
  cbn [fold_left]. rewrite IH. f_equal. f_equal.
  destruct (String.eqb_spec (snd kv) EmptyString); congruence.
Qed.

(** One call of [replace] with the placeholder as a string pattern: the
    first occurrence is replaced, and what follows it is left as it
    is. *)
Lemma js_replace_first name val before after :
  (forall b' a',
      (before ++ placeholder name ++ after)%string
      = (b' ++ placeholder name ++ a')%string ->
      String.length before <= String.length b') ->
  string_exists is_dollar val = false ->
  js_replace (before ++ placeholder name ++ after) (placeholder name) val
  = (before ++ val ++ after)%string.
Proof.
  intros Hmin Hval. unfold js_replace.
  rewrite (find_first_min _ _ _ Hmin), (GetSubstitution_plain _ _ _ _ Hval).
  reflexivity.
Qed.

(** C3.  The placeholders after the first are left in place.  The
    definition [b(title='${href}-${href}')] parses, and on a node whose
    [href] is [x] the title of the target node is [x-${href}], where the
    claim asks for [x-x].  More generally, whatever follows a first
    placeholder in the value of the definition, further placeholders of
    the same name included, reaches the target node as it is. *)
Theorem placeholder_later_occurrences_left :
  parse "b(title='${href}-${href}')" =
    Some (Some [mkDescriptor "b" None [] [("title", Some "${href}-${href}")]], [])
  /\ getAttribute
       (convertMatched (mkDescriptor "b" None [] [("title", Some "${href}-${href}")])
                       (Element "a" [("href", "x")] [Text "Go"])) "title"
     = Some "x-${href}"
  /\ (forall after : string,
        getAttribute
          (convertMatched
             (mkDescriptor "b" None [] [("title", Some ("${href}" ++ after)%string)])
             (Element "a" [("href", "x")] [Text "Go"])) "title"
        = Some ("x" ++ after)%string).
Proof.
  split; [vm_compute; reflexivity|]. split; [vm_compute; reflexivity|].
  intros after.
  rewrite (substituted_value _ _ "title" ("${href}" ++ after)%string);
    [|vm_compute; left; reflexivity | discriminate].
  change (getAttrs (Element "a" [("href", "x")] [Text "Go"])) with [("href", "x")].
  cbn [fold_left fst snd]. f_equal.
  apply (js_replace_first "href" "x" EmptyString after); [|reflexivity].
  intros b' a' _. simpl. lia.
Qed.

(* ================================================================== *)
(** * A rule that does not parse *)
(* ================================================================== *)

(** C1.  The definition [b(] does not parse: [parse] reports the error
    and returns [null], and [elements.pop()] then throws.  Whatever the
    document and the selector engine are, [convertTags] ends there with a
    [TypeError], the document is as it was, and none of the rules that
    follow is applied.  In the small document, the rule that turns [i]
    into [em] is applied when it stands alone and is not applied when it
    follows the rule that does not parse. *)
Theorem parse_failure_aborts_convertTags :
  (forall (Document NodeRef : Type)
          (querySelectorAll : string -> Document -> list NodeRef)
          (node_of : Document -> NodeRef -> Node)
          (replaceChild : Document -> NodeRef -> Node -> Document)
          (o : string) (rest : list (string * string)) (doc : Document),
      convertTags Document NodeRef querySelectorAll node_of replaceChild
                  (Some ((o, "b(") :: rest)) doc
      = (doc, Throw "TypeError", [mkSyntaxError 2 None "unexpected attribute"]))
  /\ flat_convertTags (Some [("i", "em")]) [Element "i" [] [Text "x"]]
     = ([Element "em" [] [Text "x"]], Normal tt, [])
  /\ flat_convertTags (Some [("p", "b("); ("i", "em")]) [Element "i" [] [Text "x"]]
     = ([Element "i" [] [Text "x"]], Throw "TypeError",
        [mkSyntaxError 2 None "unexpected attribute"]).
Proof.
  assert (E : parse "b(" = Some (None, [mkSyntaxError 2 None "unexpected attribute"]))
    by (vm_compute; reflexivity).
  split; [|split; vm_compute; reflexivity].
  intros. cbn [convertTags convertRules]. unfold convertRule. rewrite E. reflexivity.
Qed.

(* ================================================================== *)
(** * The descriptors that [parse] builds *)
(* ================================================================== *)

Lemma is_identifier_snoc x a :
  is_identifier x = true -> is_identchar a = true ->
  is_identifier (x ++ String a EmptyString) = true.
Proof.
  destruct x as [|c x]; [discriminate|]. simpl.
  intros H Ha. apply andb_prop in H. destruct H as [Hc Hx].
  rewrite Hc, string_forall_app, Hx. simpl. rewrite Ha. reflexivity.
Qed.

Lemma identchar_nws a : is_identchar a = true -> nws a = true.
Proof.
  destruct a as [[] [] [] [] [] [] [] []]; intros H; try reflexivity; discriminate H.
Qed.

Lemma letter_identchar a : is_letter a = true -> is_identchar a = true.
Proof. unfold is_identchar. intros ->. reflexivity. Qed.

Lemma is_identifier_token x : is_identifier x = true -> is_token x = true.
Proof.
  destruct x as [|c x]; [discriminate|]. cbn [is_identifier is_token].
  intros H. apply andb_prop in H. destruct H as [Hc Hx].
  cbn [string_forall]. fold (nws c).
  rewrite (identchar_nws c (letter_identchar c Hc)). simpl.
  induction x as [|d x IH]; [reflexivity|].
  simpl in Hx. apply andb_prop in Hx. destruct Hx as [Hd Hx].
  cbn [string_forall]. fold (nws d). rewrite (identchar_nws d Hd). exact (IH Hx).
Qed.

Lemma well_formed_tokens d :
  well_formed d -> Forall (fun c => is_token c = true) (classes d).
Proof.
  intros (_ & _ & H & _). rewrite Forall_forall in *.
  intros c Hc. apply is_identifier_token. auto.
Qed.

Section WellFormed.

Variable N : nat.

Lemma getAttr_identifier s :
  wlp (_getAttr N) (fun v _ => ident_or_null v) s.
Proof.
  unfold _getAttr.
  wlp_use eatblanks_console as u s1 H1.
  destruct (negb (regex_test is_letter (_c s1))) eqn:E; wlp_simple;
    [intros x Hx; discriminate|].
  apply negb_false_iff in E.
  eapply wlp_conseq.
  - apply wlp_loop with (I := fun attr _ => ident_or_null attr)
                        (Q := fun attr _ => ident_or_null attr).
    + intros attr s2 H2. wlp_next_step; [|exact H2].
      unfold regex_test. cbn [to_str string_exists]. rewrite orb_false_r.
      destruct (is_identchar a) eqn:Ea; wlp_simple; [|exact H2].
      intros x Hx. injection Hx as <-.
      destruct attr as [y|]; cbn [to_str_s].
      * apply is_identifier_snoc; [apply H2; reflexivity | exact Ea].
      * simpl. rewrite Ea. reflexivity.
    + destruct (_c s1) as [a|]; intros x Hx; [|discriminate].
      injection Hx as <-. unfold regex_test in E. simpl in E.
      rewrite orb_false_r in E. simpl. rewrite E. reflexivity.
  - cbv beta. intros attr s2 H2.
    wlp_use eatblanks_console as u' s3 H3. exact H2.
Qed.

Lemma parse_id_identifier s :
  wlp (parse_id N)
      (fun r _ => forall i, r = Some (Some i) -> is_identifier i = true) s.
Proof.
  unfold parse_id. wlp_simple.
  destruct (is_char "#" (_c s)); wlp_simple; [|intros i Hi; discriminate].
  wlp_next_step; wlp_use getAttr_identifier as r s1 H1;
    (destruct r as [x|]; wlp_simple; intros i Hi; [|discriminate]);
    injection Hi as <-; apply H1; reflexivity.
Qed.

Lemma parse_classes_identifier s :
  wlp (parse_classes N)
      (fun r _ => forall l, r = Some l ->
                            Forall (fun c => is_identifier c = true) l) s.
Proof.
  unfold parse_classes.
  apply wlp_loop with
    (I := fun l _ => Forall (fun c => is_identifier c = true) l); [|constructor].
  intros l s1 Hl. wlp_simple.
  destruct (is_char "." (_c s1)); wlp_simple;
    [|intros l' Hl'; injection Hl' as <-; exact Hl].
  wlp_next_step; wlp_use getAttr_identifier as r s2 H2;
    (destruct r as [x|]; wlp_simple; [|intros l' Hl'; discriminate]);
    (apply Forall_app; split; [exact Hl | constructor; [apply H2; reflexivity | constructor]]).
Qed.

Lemma parse_attrs_identifier s :
  wlp (parse_attrs N)
      (fun r _ => forall ats, r = Some ats ->
                              Forall (fun k => is_identifier k = true) (obj_keys ats)) s.
Proof.
  unfold parse_attrs. wlp_simple.
  destruct (is_char "(" (_c s)); wlp_simple;
    [|intros ats Ha; injection Ha as <-; constructor].
  assert (Hloop : forall s0,
    wlp (loop N (fun attrs =>
           attr <- _getAttr N ;;
           match attr with
           | None => _syntaxError "unexpected attribute" ;;; ret (inr None)
           | Some a =>
               _eatblanks N ;;;
               value <- parse_attr_value N ;;
               let attrs := obj_set attrs a value in
               c <- get_c ;;
               if is_char ")" c then ret (inr (Some attrs))
               else if negb (is_char "," c) then
                 _syntaxError "unexpected character" ;;; ret (inr None)
               else _next ;;; ret (inl attrs)
           end) [])
        (fun r _ => forall ats, r = Some ats ->
                                Forall (fun k => is_identifier k = true) (obj_keys ats))
        s0).
  { intros s0.
    apply wlp_loop with
      (I := fun ats _ => Forall (fun k => is_identifier k = true) (obj_keys ats));
      [|constructor].
    intros ats s1 Hats.
    wlp_use getAttr_identifier as r s2 H2.
    destruct r as [a|]; wlp_simple; [|intros ? ?; discriminate].
    wlp_use eatblanks_console as u s3 H3.
    wlp_use parse_attr_value_console as v s4 H4.
    assert (Hset : Forall (fun k => is_identifier k = true)
                          (obj_keys (obj_set ats a v))).
    { apply Forall_forall. intros k Hk. apply obj_keys_set_In in Hk.
      rewrite Forall_forall in Hats.
      destruct Hk as [Hk| ->]; [auto | apply H2; reflexivity]. }
    destruct (is_char ")" (_c s4)); wlp_simple;
      [intros ats' Ha; injection Ha as <-; exact Hset|].
    destruct (negb (is_char "," (_c s4))); wlp_simple;
      [intros ? ?; discriminate|].
    wlp_next_step; exact Hset. }
  wlp_next_step;
    (eapply wlp_conseq; [apply Hloop|]; cbv beta; intros [ats|] s1 H1; wlp_simple;
     [|intros ? ?; discriminate];
     destruct (negb (is_char ")" (_c s1))); wlp_simple; [intros ? ?; discriminate|];
     wlp_next_step; exact H1).
Qed.

Lemma parse_segment_well_formed results s :
  Forall well_formed results ->
  wlp (parse_segment N results)
      (fun x _ =>
         match x with
         | inl chain | inr (Some chain) => Forall well_formed chain
         | inr None => True
         end) s.
Proof.
  intros Hres. unfold parse_segment.
  apply wlp_bind, wlp_next; intros;
    (wlp_use getAttr_identifier as t s1 H1;
     wlp_use parse_id_identifier as i s2 H2;
     destruct i as [i|]; wlp_simple; [|exact I];
     wlp_use parse_classes_identifier as cs s3 H3;
     destruct cs as [cs|]; wlp_simple; [|exact I];
     wlp_use parse_attrs_identifier as ats s4 H4;
     destruct ats as [ats|]; wlp_simple; [|exact I];
     wlp_use eatblanks_console as u s5 H5;
     assert (Hd : Forall well_formed
                    (results ++ [mkDescriptor match t with Some t0 => t0 | None => "div" end
                                              i cs ats]));
     [ apply Forall_app; split; [exact Hres|]; constructor; [|constructor];
       unfold well_formed; cbn [tag id classes attrs]; repeat split;
       [ destruct t as [t0|]; [apply H1; reflexivity | reflexivity]
       | intros i0 Hi0; apply H2; rewrite Hi0; reflexivity
       | apply H3; reflexivity
       | apply H4; reflexivity ]
     | destruct (_c s5); wlp_simple; [|exact Hd];
       destruct (negb _); wlp_simple; [exact I | exact Hd] ]).
Qed.

End WellFormed.

(** Every descriptor of a chain that [parse] returns is well formed. *)
Lemma parse_well_formed txt chain log :
  parse txt = Some (Some chain, log) -> Forall well_formed chain.
Proof.
  unfold parse, parse_with, parse_loop.
  set (N := 2 * String.length txt + 2). intros E.
  destruct (loop N (parse_segment N) [] (_start txt)) as [[x s]|] eqn:E1; [|discriminate].
  injection E as -> _.
  refine (wlp_loop (parse_segment N)
            (fun res _ => Forall well_formed res)
            (fun r _ => forall c, r = Some c -> Forall well_formed c)
            _ N [] (_start txt) (Forall_nil _) _ _ E1 chain eq_refl).
  intros res s0 Hres.
  eapply wlp_conseq; [apply parse_segment_well_formed; exact Hres|].
  cbv beta. intros [c|[c|]] s1 H1; [exact H1 | | intros ? ?; discriminate].
  intros c' Hc'. injection Hc' as <-. exact H1.
Qed.

(** In particular the classes of a parsed descriptor are tokens. *)
Lemma parsed_classes_are_tokens txt chain log d :
  parse txt = Some (Some chain, log) ->
  In d chain ->
  Forall (fun c => is_token c = true) (classes d).
Proof.
  intros E Hin. apply well_formed_tokens.
  pose proof (parse_well_formed _ _ _ E) as H.
  rewrite Forall_forall in H. auto.
Qed.

(* ================================================================== *)
(** * A trailing [>] *)
(* ================================================================== *)

Lemma rwlp_ret {A B} (a : A) (b : B) (Q : A -> MicroParser -> B -> MicroParser -> Prop) s s' :
  Q a s b s' -> rwlp (ret a) (ret b) Q s s'.
Proof. intros H a0 s1 b0 s1' E E'. inversion E; inversion E'; subst. exact H. Qed.

Lemma rwlp_bind {A B C D} (m : M A) (m' : M B) (k : A -> M C) (k' : B -> M D) Q s s' :
  rwlp m m' (fun a s1 b s1' => rwlp (k a) (k' b) Q s1 s1') s s' ->
  rwlp (bind m k) (bind m' k') Q s s'.
Proof.
  intros H c s2 d s2' E E'. unfold bind in E, E'.
  destruct (m s) as [[a s1]|] eqn:E1; [|discriminate].
  destruct (m' s') as [[b s1']|] eqn:E1'; [|discriminate].
  exact (H a s1 b s1' E1 E1' c s2 d s2' E E').
Qed.

Lemma rwlp_conseq {A B} (m : M A) (m' : M B)
      (P Q : A -> MicroParser -> B -> MicroParser -> Prop) s s' :
  rwlp m m' P s s' -> (forall a s1 b s1', P a s1 b s1' -> Q a s1 b s1') ->
  rwlp m m' Q s s'.
Proof. intros H HPQ a s1 b s1' E E'. eauto. Qed.

Lemma rwlp_get_c (Q : jschar -> MicroParser -> jschar -> MicroParser -> Prop) s s' :
  Q (_c s) s (_c s') s' -> rwlp get_c get_c Q s s'.
Proof. intros H a s1 b s1' E E'. inversion E; inversion E'; subst. exact H. Qed.

Lemma rwlp_get_p (Q : jschar -> MicroParser -> jschar -> MicroParser -> Prop) s s' :
  Q (_p s) s (_p s') s' -> rwlp get_p get_p Q s s'.
Proof. intros H a s1 b s1' E E'. inversion E; inversion E'; subst. exact H. Qed.

(** The left run alone decides. *)
Lemma rwlp_left {A B} (m : M A) (m' : M B)
      (Q : A -> MicroParser -> B -> MicroParser -> Prop) s s' :
  wlp m (fun a s1 => forall b s1', Q a s1 b s1') s -> rwlp m m' Q s s'.
Proof. intros H a s1 b s1' E E'. exact (H a s1 E b s1'). Qed.

(** Each run on its own. *)
Lemma rwlp_both {A B} (m : M A) (m' : M B) (P : A -> MicroParser -> Prop)
      (P' : B -> MicroParser -> Prop)
      (Q : A -> MicroParser -> B -> MicroParser -> Prop) s s' :
  wlp m P s -> wlp m' P' s' ->
  (forall a s1 b s1', P a s1 -> P' b s1' -> Q a s1 b s1') ->
  rwlp m m' Q s s'.
Proof. intros H H' HQ a s1 b s1' E E'. eauto. Qed.

(** Two loops that go round together; the left one may leave first, and
    then what the right one still does has to keep [Q]. *)
Lemma rwlp_loop {A R A' R'} (body : A -> M (A + R)) (body' : A' -> M (A' + R'))
      (I : A -> MicroParser -> A' -> MicroParser -> Prop)
      (Q : R -> MicroParser -> R' -> MicroParser -> Prop) :
  (forall a a' s s', I a s a' s' ->
     rwlp (body a) (body' a')
          (fun x s1 x' s1' =>
             match x, x' with
             | inl b, inl b' => I b s1 b' s1'
             | inr r, inr r' => Q r s1 r' s1'
             | inr r, inl b' =>
                 forall n, wlp (loop n body' b') (fun r' s2' => Q r s1 r' s2') s1'
             | inl _, inr _ => False
             end) s s') ->
  forall n n' a a' s s', I a s a' s' ->
    rwlp (loop n body a) (loop n' body' a') Q s s'.
Proof.
  intros Hbody. induction n as [|n IH]; intros n' a a' s s' HI r s1 r' s1' E E';
    [discriminate|].
  destruct n' as [|n']; [discriminate|].
  cbn [loop] in E, E'. unfold bind in E, E'.
  destruct (body a s) as [[x s2]|] eqn:E1; [|discriminate].
  destruct (body' a' s') as [[x' s2']|] eqn:E1'; [|discriminate].
  pose proof (Hbody a a' s s' HI x s2 x' s2' E1 E1') as H.
  destruct x as [b|r0], x' as [b'|r0'].
  - exact (IH n' b b' s2 s2' H r s1 r' s1' E E').
  - destruct H.
  - inversion E; subst. exact (H n' r' s1' E').
  - inversion E; inversion E'; subst. exact H.
Qed.

Ltac rwlp_simple :=
  repeat match goal with
         | |- rwlp (bind _ _) (bind _ _) _ _ _ => apply rwlp_bind
         | |- rwlp get_c get_c _ _ _ => apply rwlp_get_c
         | |- rwlp get_p get_p _ _ _ => apply rwlp_get_p
         | |- rwlp (ret _) (ret _) _ _ _ => apply rwlp_ret
         | |- rwlp (let _ := _ in _) _ _ _ _ => cbv zeta
         end.

Tactic Notation "rwlp_use" constr(L) "as" ident(a) ident(s) ident(b) ident(s') ident(H) :=
  rwlp_simple; eapply rwlp_conseq; [apply L | cbv beta; intros a s b s' H]; rwlp_simple.

Lemma length_append_s (s t : string) :
  String.length (s ++ t) = String.length s + String.length t.
Proof. induction s as [|a s IH]; simpl; [reflexivity | rewrite IH; reflexivity]. Qed.

Lemma get_app_end (t : string) a :
  String.get (String.length t) (t ++ String a EmptyString) = Some a.
Proof. induction t as [|c t IH]; simpl; [reflexivity | exact IH]. Qed.

Lemma eatblanks_noblank N s :
  is_blank (_c s) = false -> wlp (_eatblanks N) (fun _ s1 => s1 = s) s.
Proof.
  intros H u s1 E. unfold _eatblanks in E. destruct N as [|N]; [discriminate|].
  cbn [loop] in E. unfold bind, get_c in E. rewrite H in E.
  inversion E. reflexivity.
Qed.

Section TrailingGt.

Variable t : string.
Variable N : nat.

Lemma gt_eof_at_eof s s' : (gt_eof t) s s' -> at_eof s.
Proof. intros (Ht & _ & Hp & _ & Hc & _). split; [exact Hc | rewrite Ht; lia]. Qed.

Lemma next_rel s s' :
(aligned t) s s' ->
rwlp _next _next
     (fun b s1 b' s1' =>
        (b = true /\ b' = true /\ (sync t) s1 s1') \/
        (b = false /\ b' = true /\ (gt_eof t) s1 s1')) s s'.
Proof.
intros (Ht & Ht' & Hp & Hle & Hc & Hpp & Hcon) b s1 b' s1' E E'.
destruct (next_cases s) as [(a & Hlt & Ha & En)|(Hge & En)];
  rewrite En in E; inversion E; subst b s1; clear E En.
- left.
  assert (Hlt' : _pos s' < String.length (_txt s'))
    by (rewrite Ht', length_append_s, Hp, <- Ht; simpl; lia).
  destruct (next_true s' Hlt') as (a' & Ha' & En'). rewrite En' in E'.
  inversion E'; subst b' s1'. clear E' En'.
  assert (a' = a).
  { rewrite Ht', Hp, <- append_correct1 in Ha' by (rewrite <- Ht; exact Hlt).
    rewrite <- Ht, Ha in Ha'. congruence. }
  subst a'. repeat split; simpl; auto; try congruence; try lia.
  rewrite <- Ht. lia.
- right.
  assert (Heq : _pos s = String.length t) by (rewrite <- Ht in *; lia).
  assert (Hlt' : _pos s' < String.length (_txt s'))
    by (rewrite Ht', length_append_s, Hp; simpl; lia).
  destruct (next_true s' Hlt') as (a' & Ha' & En'). rewrite En' in E'.
  inversion E'; subst b' s1'. clear E' En'.
  rewrite Ht', Hp, Heq, get_app_end in Ha'. inversion Ha'; subst a'.
  repeat split; simpl; auto; try congruence.
Qed.

Lemma sync_aligned s s' : (sync t) s s' -> (aligned t) s s'.
Proof. intros [H _]. exact H. Qed.

Lemma eatblanks_rel s s' :
(related t) s s' ->
rwlp (_eatblanks N) (_eatblanks N) (fun _ s1 _ s1' => (related t) s1 s1') s s'.
Proof.
intros HR. unfold _eatblanks.
apply rwlp_loop with (I := fun _ s1 _ s1' => (related t) s1 s1'); [|exact HR].
clear s s' HR. intros _ _ s s' HR. rwlp_simple.
destruct HR as [Hs|Hg].
- assert (Hc : _c s' = _c s) by (destruct Hs as [(_ & _ & _ & _ & Hc & _) _]; exact Hc).
  rewrite Hc. destruct (is_blank (_c s)).
  + rwlp_use (next_rel s s' (sync_aligned _ _ Hs)) as b s1 b' s1' H.
    destruct H as [(_ & _ & H)|(_ & _ & H)]; [left | right]; exact H.
  + rwlp_simple. left. exact Hs.
- assert (Hc : _c s = None) by (destruct Hg as (_ & _ & _ & _ & Hc & _); exact Hc).
  assert (Hc' : _c s' = Some ">"%char)
    by (destruct Hg as (_ & _ & _ & _ & _ & Hc' & _); exact Hc').
  rewrite Hc, Hc'. change (is_blank None) with false.
  change (is_blank (Some ">"%char)) with false.
  cbv iota. rwlp_simple. right. exact Hg.
Qed.

Lemma frozen_gt_eof s s1 s' : (gt_eof t) s s' -> frozen s s1 -> (gt_eof t) s1 s'.
Proof.
intros (Ht & Ht' & Hp & Hp' & Hc & Hc' & Hcon) (F1 & F2 & F3 & F4).
repeat split; congruence.
Qed.

Lemma getAttr_rest_frozen s :
at_eof s ->
wlp (attr <- loop N (fun attr =>
               b <- _next ;;
               c <- get_c ;;
               if b && regex_test is_identchar c
               then ret (inl (js_add attr c))
               else ret (inr attr)) None ;;
     _eatblanks N ;;;
     ret attr)
    (fun v s1 => v = None /\ frozen s s1) s.
Proof.
intros [Hc Hge]. wlp_simple. eapply wlp_conseq.
- apply wlp_loop with (I := fun attr s1 => attr = None /\ frozen s s1)
                      (Q := fun attr s1 => attr = None /\ frozen s s1).
  + intros attr s1 (Ha & F1 & F2 & F3 & F4). wlp_next_step.
    * rewrite F1, F2 in *. lia.
    * repeat split; assumption.
  + repeat split; auto.
- cbv beta. intros attr s1 (Ha & F).
  wlp_use (eatblanks_noblank N s1) as u' s2 H2;
    [destruct F as (_ & _ & F3 & _); rewrite F3; reflexivity|].
  subst s2. split; assumption.
Qed.

Lemma sync_c s s' : (sync t) s s' -> _c s' = _c s.
Proof. intros [(_ & _ & _ & _ & Hc & _) _]. exact Hc. Qed.

Lemma sync_p s s' : (sync t) s s' -> _p s' = _p s.
Proof. intros [(_ & _ & _ & _ & _ & Hp & _) _]. exact Hp. Qed.

Lemma gt_eof_c s s' : (gt_eof t) s s' -> _c s = None /\ _c s' = Some ">"%char.
Proof. intros (_ & _ & _ & _ & Hc & Hc' & _). split; assumption. Qed.

Lemma getAttr_rel s s' :
(related t) s s' ->
rwlp (_getAttr N) (_getAttr N)
     (fun v s1 v' s1' => v' = v /\ (related t) s1 s1') s s'.
Proof.
intros HR. unfold _getAttr.
rwlp_use (eatblanks_rel s s' HR) as u s1 u' s1' H1.
destruct H1 as [Hs|Hg].
- rewrite (sync_c _ _ Hs).
  destruct (negb (regex_test is_letter (_c s1))); rwlp_simple;
    [split; [reflexivity | left; exact Hs]|].
  eapply rwlp_conseq.
  + apply rwlp_loop with
      (I := fun a s2 a' s2' => a' = a /\ (sync t) s2 s2')
      (Q := fun a s2 a' s2' => a' = a /\ (related t) s2 s2');
      [|split; [reflexivity | exact Hs]].
    intros a a' s2 s2' [-> Hs2].
    rwlp_use (next_rel s2 s2' (sync_aligned _ _ Hs2)) as b s3 b' s3' H3.
    destruct H3 as [(-> & -> & H3)|(-> & -> & H3)].
    * rewrite (sync_c _ _ H3). cbn [andb].
      destruct (regex_test is_identchar (_c s3)); rwlp_simple.
      -- split; [reflexivity | exact H3].
      -- split; [reflexivity | left; exact H3].
    * destruct (gt_eof_c _ _ H3) as [Hc Hc']. rewrite Hc'. cbn [andb].
      change (regex_test is_identchar (Some ">"%char)) with false.
      cbv iota. rwlp_simple. split; [reflexivity | right; exact H3].
  + cbv beta. intros a s2 a' s2' [-> H2].
    rwlp_use (eatblanks_rel s2 s2' H2) as v s3 v' s3' H3.
    split; [reflexivity | exact H3].
- destruct (gt_eof_c _ _ Hg) as [Hc Hc']. rewrite Hc, Hc'.
  change (negb (regex_test is_letter None)) with false.
  change (negb (regex_test is_letter (Some ">"%char))) with true.
  cbv iota. cbn [option_map].
  apply (rwlp_both _ _ (fun v s2 => v = None /\ frozen s1 s2)
                       (fun v s2' => v = None /\ s2' = s1')).
  + apply getAttr_rest_frozen. eapply gt_eof_at_eof. exact Hg.
  + apply wlp_ret. split; reflexivity.
  + intros v s2 v' s2' [-> F] [-> ->].
    split; [reflexivity | right; eapply frozen_gt_eof; eassumption].
Qed.

Lemma getString_rel s s' :
(sync t) s s' -> rwlp (_getString N) (_getString N) (same_or_eof t) s s'.
Proof.
intros Hs. unfold _getString. rwlp_simple. rewrite (sync_c _ _ Hs).
eapply rwlp_conseq.
- apply rwlp_loop with
    (I := fun str s2 str' s2' => str' = str /\ (sync t) s2 s2')
    (Q := fun str s2 str' s2' => at_eof s2 \/ (str' = str /\ (sync t) s2 s2'));
    [|split; [reflexivity | exact Hs]].
  intros str str' s2 s2' [-> Hs2]. unfold getString_round.
  rwlp_use (next_rel s2 s2' (sync_aligned _ _ Hs2)) as b s3 b' s3' H3.
  destruct H3 as [(-> & -> & H3)|(-> & -> & H3)]; cbn [negb].
  + rwlp_simple. rewrite (sync_c _ _ H3), (sync_p _ _ H3).
    destruct (_ && _); rwlp_simple; [right|]; (split; [reflexivity | exact H3]).
  + apply rwlp_left, wlp_ret. intros [b'|r'] s4'.
    * intros n r' s5' _. left. eapply gt_eof_at_eof. exact H3.
    * left. eapply gt_eof_at_eof. exact H3.
- cbv beta. intros str s2 str' s2' [He|[-> Hs2]].
  + apply rwlp_left. destruct He as [Hc Hge]. wlp_simple. rewrite Hc. wlp_simple.
    wlp_next_step; [lia|]. intros b s3'. left. split; [reflexivity | assumption].
  + rwlp_simple. rewrite (sync_c _ _ Hs2).
    destruct (_c s2) as [c|] eqn:Ec; [|destruct Hs2 as [_ Hn]; congruence].
    rwlp_simple.
    rwlp_use (next_rel s2 s2' (sync_aligned _ _ Hs2)) as b s3 b' s3' H3.
    right. split; [reflexivity|].
    destruct H3 as [(_ & _ & H3)|(_ & _ & H3)]; [left | right]; exact H3.
Qed.

Lemma getValue_rest_eof s :
at_eof s ->
wlp (r <- loop N (fun value =>
            c <- get_c ;;
            if is_stop c then ret (inr (value, false))
            else
              let value := (value ++ to_str c)%string in
              b <- _next ;;
              if negb b then ret (inr (value, true))
              else ret (inl value)) EmptyString ;;
     let '(value, returned) := r in
     if returned : bool then ret (Some value)
     else
       let value := trim value in
       let value := if String.eqb value "null" then None else Some value in
       _eatblanks N ;;;
       ret value)
    (fun _ s1 => at_eof s1) s.
Proof.
intros He. wlp_simple. eapply wlp_conseq.
- apply wlp_loop with (I := fun _ s2 => at_eof s2) (Q := fun _ s2 => at_eof s2);
    [|exact He].
  intros value s2 [Hc2 Hge2]. wlp_simple. rewrite Hc2.
  change (is_stop None) with false. cbv iota.
  wlp_next_step; [lia|]. split; [reflexivity | assumption].
- cbv beta. intros [value [|]] s2 H2; wlp_simple; [exact H2|].
  wlp_use (eatblanks_console N s2) as u' s3 H3. destruct H3 as [_ H3]. auto.
Qed.

Lemma getValue_rel s s' :
(related t) s s' -> rwlp (_getValue N) (_getValue N) (same_or_eof t) s s'.
Proof.
intros HR. unfold _getValue.
rwlp_use (eatblanks_rel s s' HR) as u s1 u' s1' H1.
destruct H1 as [Hs|Hg].
- rewrite (sync_c _ _ Hs).
  destruct (is_char dquote (_c s1) || is_char squote (_c s1)).
  + rwlp_use (getString_rel s1 s1' Hs) as v s2 v' s2' H2.
    destruct H2 as [He|[-> H2]].
    * apply rwlp_left.
      wlp_use (eatblanks_console N s2) as u2 s3 H3. destruct H3 as [_ H3].
      intros b s3'. rwlp_simple. left. auto.
    * rwlp_use (eatblanks_rel s2 s2' H2) as u2 s3 u2' s3' H3.
      right. split; [reflexivity | exact H3].
  + rwlp_simple. eapply rwlp_conseq.
    * apply rwlp_loop with
        (I := fun v s2 v' s2' => v' = v /\ (sync t) s2 s2')
        (Q := fun r s2 r' s2' => at_eof s2 \/ (r' = r /\ (related t) s2 s2'));
        [|split; [reflexivity | exact Hs]].
      intros v v' s2 s2' [-> Hs2]. rwlp_simple. rewrite (sync_c _ _ Hs2).
      destruct (is_stop (_c s2)); rwlp_simple;
        [right; split; [reflexivity | left; exact Hs2]|].
      rwlp_use (next_rel s2 s2' (sync_aligned _ _ Hs2)) as b s3 b' s3' H3.
      destruct H3 as [(-> & -> & H3)|(-> & -> & H3)]; cbn [negb]; rwlp_simple.
      -- split; [reflexivity | exact H3].
      -- intros n r' s5' _. left. eapply gt_eof_at_eof. exact H3.
    * cbv beta. intros r s2 r' s2' [He|[-> H2]].
      -- apply rwlp_left. destruct r as [value [|]]; wlp_simple.
         ++ intros b s3'. left. exact He.
         ++ wlp_use (eatblanks_console N s2) as u2 s3 H3. destruct H3 as [_ H3].
            intros b s3'. left. auto.
      -- destruct r as [value [|]]; rwlp_simple.
         ++ right. split; [reflexivity | exact H2].
         ++ rwlp_use (eatblanks_rel s2 s2' H2) as u2 s3 u2' s3' H3.
            right. split; [reflexivity | exact H3].
- destruct (gt_eof_c _ _ Hg) as [Hc Hc']. rewrite Hc.
  change (is_char dquote None || is_char squote None) with false. cbv iota.
  apply rwlp_left. eapply wlp_conseq.
  + apply getValue_rest_eof. eapply gt_eof_at_eof. exact Hg.
  + cbv beta. intros v s2 He b s2'. left. exact He.
Qed.

Lemma parse_attr_value_rel s s' :
(related t) s s' -> rwlp (parse_attr_value N) (parse_attr_value N) (same_or_eof t) s s'.
Proof.
intros HR. unfold parse_attr_value. rwlp_simple. destruct HR as [Hs|Hg].
- rewrite (sync_c _ _ Hs). destruct (is_char "=" (_c s)); rwlp_simple;
    [|right; split; [reflexivity | left; exact Hs]].
  rwlp_use (next_rel s s' (sync_aligned _ _ Hs)) as b s1 b' s1' H1.
  assert (HR1 : (related t) s1 s1')
    by (destruct H1 as [(_ & _ & H1)|(_ & _ & H1)]; [left | right]; exact H1).
  rwlp_use (eatblanks_rel s1 s1' HR1) as u s2 u' s2' H2.
  apply getValue_rel. exact H2.
- destruct (gt_eof_c _ _ Hg) as [Hc Hc']. rewrite Hc, Hc'.
  change (is_char "=" None) with false.
  change (is_char "=" (Some ">"%char)) with false. cbv iota.
  rwlp_simple. right. split; [reflexivity | right; exact Hg].
Qed.

Lemma next_related s s' :
(aligned t) s s' ->
rwlp _next _next (fun _ s1 _ s1' => (related t) s1 s1') s s'.
Proof.
intros H. eapply rwlp_conseq; [apply next_rel; exact H|].
cbv beta. intros b s1 b' s1' [(_ & _ & H1)|(_ & _ & H1)]; [left | right]; exact H1.
Qed.

Lemma parse_id_rel s s' :
(related t) s s' -> rwlp (parse_id N) (parse_id N) (same_if_value t) s s'.
Proof.
intros HR. unfold parse_id. rwlp_simple. destruct HR as [Hs|Hg].
- rewrite (sync_c _ _ Hs). destruct (is_char "#" (_c s)); rwlp_simple;
    [|intros x Hx; split; [exact Hx | left; exact Hs]].
  rwlp_use (next_related s s' (sync_aligned _ _ Hs)) as b s1 b' s1' H1.
  rwlp_use (getAttr_rel s1 s1' H1) as i s2 i' s2' H2.
  destruct H2 as [-> H2]. destruct i as [i|]; rwlp_simple.
  + intros x Hx. split; [exact Hx | exact H2].
  + apply rwlp_left. wlp_simple. intros r' s3'. rwlp_simple.
    intros x Hx. discriminate.
- destruct (gt_eof_c _ _ Hg) as [Hc Hc']. rewrite Hc, Hc'.
  change (is_char "#" None) with false.
  change (is_char "#" (Some ">"%char)) with false. cbv iota.
  rwlp_simple. intros x Hx. split; [exact Hx | right; exact Hg].
Qed.

Lemma parse_classes_rel s s' :
(related t) s s' -> rwlp (parse_classes N) (parse_classes N) (same_if_value t) s s'.
Proof.
intros HR. unfold parse_classes.
apply rwlp_loop with (I := fun l s1 l' s1' => l' = l /\ (related t) s1 s1');
  [|split; [reflexivity | exact HR]].
clear s s' HR. intros l l' s s' [-> HR]. rwlp_simple. destruct HR as [Hs|Hg].
- rewrite (sync_c _ _ Hs). destruct (is_char "." (_c s)); rwlp_simple;
    [|intros x Hx; split; [exact Hx | left; exact Hs]].
  rwlp_use (next_related s s' (sync_aligned _ _ Hs)) as b s1 b' s1' H1.
  rwlp_use (getAttr_rel s1 s1' H1) as c s2 c' s2' H2.
  destruct H2 as [-> H2]. destruct c as [c|]; rwlp_simple.
  + split; [reflexivity | exact H2].
  + apply rwlp_left. wlp_simple. intros r' s3'. rwlp_simple.
    intros x Hx. discriminate.
- destruct (gt_eof_c _ _ Hg) as [Hc Hc']. rewrite Hc, Hc'.
  change (is_char "." None) with false.
  change (is_char "." (Some ">"%char)) with false. cbv iota.
  rwlp_simple. intros x Hx. split; [exact Hx | right; exact Hg].
Qed.

Lemma parse_attrs_rel s s' :
(related t) s s' -> rwlp (parse_attrs N) (parse_attrs N) (same_if_value t) s s'.
Proof.
intros HR. unfold parse_attrs. rwlp_simple. destruct HR as [Hs|Hg].
- rewrite (sync_c _ _ Hs). destruct (is_char "(" (_c s)); rwlp_simple;
    [|intros x Hx; split; [exact Hx | left; exact Hs]].
  rwlp_use (next_related s s' (sync_aligned _ _ Hs)) as b s1 b' s1' H1.
  eapply rwlp_conseq.
  + apply rwlp_loop with
      (I := fun ats s2 ats' s2' => ats' = ats /\ (related t) s2 s2')
      (Q := fun r s2 r' s2' =>
              forall ats, r = Some ats ->
                          r' = Some ats /\ (sync t) s2 s2' /\ is_char ")" (_c s2) = true);
      [|split; [reflexivity | exact H1]].
    intros ats ats' s2 s2' [-> H2].
    rwlp_use (getAttr_rel s2 s2' H2) as a s3 a' s3' H3.
    destruct H3 as [-> H3]. destruct a as [a|].
    * rwlp_use (eatblanks_rel s3 s3' H3) as u s4 u' s4' H4.
      rwlp_use (parse_attr_value_rel s4 s4' H4) as v s5 v' s5' H5.
      destruct H5 as [[Hc5 _]|[-> [Hs5|Hg5]]].
      -- apply rwlp_left. rewrite Hc5.
         change (is_char ")" None) with false.
         change (negb (is_char "," None)) with true. cbv iota.
         wlp_simple. intros [b0|r0] s6'.
         ++ intros n r' s7' _ x Hx. discriminate.
         ++ intros x Hx. discriminate.
      -- rewrite (sync_c _ _ Hs5). destruct (is_char ")" (_c s5)) eqn:Ec.
         ++ rwlp_simple. intros x Hx. injection Hx as <-.
            split; [reflexivity | split; [exact Hs5 | exact Ec]].
         ++ destruct (negb (is_char "," (_c s5))).
            ** apply rwlp_left. wlp_simple. intros [b0|r0] s6'.
               --- intros n r' s7' _ x Hx. discriminate.
               --- intros x Hx. discriminate.
            ** rwlp_use (next_related s5 s5' (sync_aligned _ _ Hs5)) as b2 s6 b2' s6' H6.
               split; [reflexivity | exact H6].
      -- destruct (gt_eof_c _ _ Hg5) as [Hc Hc']. rewrite Hc, Hc'.
         apply rwlp_left.
         change (is_char ")" None) with false.
         change (negb (is_char "," None)) with true. cbv iota.
         wlp_simple. intros [b0|r0] s6'.
         ++ intros n r' s7' _ x Hx. discriminate.
         ++ intros x Hx. discriminate.
    * apply rwlp_left. wlp_simple. intros [b0|r0] s4'.
      -- intros n r' s5' _ x Hx. discriminate.
      -- intros x Hx. discriminate.
  + cbv beta. intros r s2 r' s2' Hq. destruct r as [ats|].
    * destruct (Hq ats eq_refl) as (-> & Hs2 & Hc2). rwlp_simple.
      rewrite (sync_c _ _ Hs2), Hc2. cbn [negb].
      rwlp_use (next_related s2 s2' (sync_aligned _ _ Hs2)) as b2 s3 b2' s3' H3.
      intros x Hx. split; [exact Hx | exact H3].
    * apply rwlp_left, wlp_ret. intros b0 s3' x Hx. discriminate.
- destruct (gt_eof_c _ _ Hg) as [Hc Hc']. rewrite Hc, Hc'.
  change (is_char "(" None) with false.
  change (is_char "(" (Some ">"%char)) with false. cbv iota.
  rwlp_simple. intros x Hx. split; [exact Hx | right; exact Hg].
Qed.

Lemma parse_segment_rel results s s' :
(aligned t) s s' ->
rwlp (parse_segment N results) (parse_segment N results) (segment_rel t) s s'.
Proof.
intros Ha. unfold parse_segment.
rwlp_use (next_related s s' Ha) as b s1 b' s1' H1.
rwlp_use (getAttr_rel s1 s1' H1) as tg s2 tg' s2' H2. destruct H2 as [-> H2].
rwlp_use (parse_id_rel s2 s2' H2) as i s3 i' s3' H3.
destruct i as [i|]; [|apply rwlp_left, wlp_ret; intros; exact I].
destruct (H3 i eq_refl) as [-> HR3].
rwlp_use (parse_classes_rel s3 s3' HR3) as cs s4 cs' s4' H4.
destruct cs as [cs|]; [|apply rwlp_left, wlp_ret; intros; exact I].
destruct (H4 cs eq_refl) as [-> HR4].
rwlp_use (parse_attrs_rel s4 s4' HR4) as ats s5 ats' s5' H5.
destruct ats as [ats|]; [|apply rwlp_left, wlp_ret; intros; exact I].
destruct (H5 ats eq_refl) as [-> HR5].
rwlp_use (eatblanks_rel s5 s5' HR5) as u s6 u' s6' H6.
destruct H6 as [Hs6|Hg6].
- rewrite (sync_c _ _ Hs6).
  destruct (_c s6) as [c|] eqn:Ec; [|destruct Hs6 as [_ Hn]; congruence].
  destruct (negb (is_char ">" (Some c))).
  + apply rwlp_left. wlp_simple. intros; exact I.
  + rwlp_simple. split; [reflexivity | apply sync_aligned; exact Hs6].
- destruct (gt_eof_c _ _ Hg6) as [Hc Hc']. rewrite Hc, Hc'.
  change (negb (is_char ">" (Some ">"%char))) with false. cbv iota.
  rwlp_simple. split; [reflexivity | exact Hg6].
Qed.

Lemma getAttr_frozen s :
at_eof s -> wlp (_getAttr N) (fun v s1 => v = None /\ frozen s s1) s.
Proof.
intros He. pose proof He as [Hc Hge]. unfold _getAttr.
wlp_use (eatblanks_noblank N s) as u s1 H1; [rewrite Hc; reflexivity|].
subst s1. rewrite Hc.
change (negb (regex_test is_letter None)) with false. cbv iota.
cbn [option_map]. apply getAttr_rest_frozen. exact He.
Qed.

Lemma frozen_at_eof s s1 : at_eof s -> frozen s s1 -> at_eof s1.
Proof. intros [Hc Hge] (F1 & F2 & F3 & F4). split; [exact F3 | rewrite F1, F2; exact Hge]. Qed.

(** At the end of the input a segment is the default one, and it ends the
  chain. *)
Lemma parse_segment_eof results s :
String.length (_txt s) <= _pos s ->
wlp (parse_segment N results)
    (fun x _ => x = inr (Some (results ++ [default_div]))) s.
Proof.
intros Hge. unfold parse_segment. wlp_next_step; [lia|].
set (s0 := mkParser (_txt s) (_pos s) None (_p s) (console s)).
assert (He : at_eof s0) by (split; [reflexivity | exact Hge]).
wlp_use (getAttr_frozen s0 He) as tg s1 H1. destruct H1 as [-> F1].
pose proof (frozen_at_eof _ _ He F1) as [Hc1 Hge1].
unfold parse_id. wlp_simple. rewrite Hc1.
change (is_char "#" None) with false. cbv iota. wlp_simple.
unfold parse_classes. eapply wlp_conseq.
- apply wlp_loop with (I := fun l s2 => l = [] /\ s2 = s1)
                      (Q := fun r s2 => r = Some [] /\ s2 = s1);
    [|split; reflexivity].
  intros l s2 [-> ->]. wlp_simple. rewrite Hc1.
  change (is_char "." None) with false. cbv iota. wlp_simple. split; reflexivity.
- cbv beta. intros r s2 [-> ->]. wlp_simple.
  unfold parse_attrs. wlp_simple. rewrite Hc1.
  change (is_char "(" None) with false. cbv iota. wlp_simple.
  wlp_use (eatblanks_noblank N s1) as u s2 H2; [rewrite Hc1; reflexivity|].
  subst s2. rewrite Hc1. wlp_simple. reflexivity.
Qed.

Lemma parse_loop_rel n n' results s s' :
(aligned t) s s' ->
rwlp (loop n (parse_segment N) results) (loop n' (parse_segment N) results)
     (fun r _ r' _ =>
        forall chain, r = Some chain -> r' = Some (chain ++ [default_div])) s s'.
Proof.
intros Ha.
apply rwlp_loop with (I := fun r s1 r' s1' => r' = r /\ (aligned t) s1 s1');
  [|split; [reflexivity | exact Ha]].
clear. intros res res' s s' [-> Ha].
eapply rwlp_conseq; [apply parse_segment_rel; exact Ha|].
cbv beta. unfold segment_rel. intros x s1 x' s1' H.
destruct x as [r|[chain|]].
- destruct H as [-> H]. split; [reflexivity | exact H].
- destruct H as [-> Hg]. intros m r' s2' E chain' Hc. injection Hc as <-.
  destruct m as [|m]; [discriminate|]. cbn [loop] in E. unfold bind in E.
  destruct (parse_segment N chain s1') as [[y s3']|] eqn:E1; [|discriminate].
  apply parse_segment_eof in E1.
  + subst y. inversion E. reflexivity.
  + destruct Hg as (_ & Ht' & _ & Hp' & _).
    rewrite Ht', Hp', length_append_s. simpl. lia.
- destruct x' as [b'|r'].
  + intros m r' s2' _ chain Hc. discriminate.
  + intros chain Hc. discriminate.
Qed.

End TrailingGt.

(** C9.  The empty string parses, to the chain of the one default
    descriptor; and a [>] at the end of an input that parses is no error:
    it adds one default descriptor at the end of the chain. *)
Theorem trailing_gt_default_div :
  parse EmptyString = Some (Some [default_div], [])
  /\ parse ">" = Some (Some [default_div; default_div], [])
  /\ parse "a.b >" =
       Some (Some [mkDescriptor "a" None ["b"] []; default_div], [])
  /\ (forall txt chain log,
        parse txt = Some (Some chain, log) ->
        parse (txt ++ ">") = Some (Some (chain ++ [default_div]), log)).
Proof.
  repeat split; try (vm_compute; reflexivity).
  intros txt chain log E.
  pose proof (parse_with_console _ _ _ _ E) as [-> _].
  set (N' := 2 * String.length (txt ++ ">") + 2).
  assert (HN : 2 * String.length txt + 2 <= N')
    by (unfold N'; rewrite length_append_s; lia).
  apply (parse_with_mono _ N' _ _ HN) in E.
  destruct (parse_with_total N' (txt ++ ">")) as [[r' log'] E']; [unfold N'; lia|].
  unfold parse. fold N'. rewrite E'.
  pose proof (parse_with_console _ _ _ _ E') as Hlog.
  unfold parse_with, parse_loop in E, E'.
  destruct (loop N' (parse_segment N') [] (_start txt)) as [[x s1]|] eqn:E1;
    [|discriminate].
  destruct (loop N' (parse_segment N') [] (_start (txt ++ ">"))) as [[x' s1']|] eqn:E1';
    [|discriminate].
  injection E as -> _. injection E' as -> _.
  assert (Ha : aligned txt (_start txt) (_start (txt ++ ">")))
    by (repeat split; simpl; lia).
  rewrite (parse_loop_rel txt N' N' N' [] _ _ Ha _ _ _ _ E1 E1' chain eq_refl) in *.
  destruct Hlog as [-> _]. reflexivity.
Qed.

Lemma trailing_gt_default_div_witness :
  parse ("a(x=1) > b" ++ ">") =
    Some (Some ([mkDescriptor "a" None [] [("x", Some "1")];
                 mkDescriptor "b" None [] []] ++ [default_div]), []).
Proof.
  apply (proj2 (proj2 (proj2 trailing_gt_default_div))).
  vm_compute. reflexivity.
Defined.

(* ================================================================== *)
(** * Reading a definition as it is written *)
(* ================================================================== *)


Lemma drop_ge (s : string) n : String.length s <= n -> drop n s = EmptyString.
Proof.
  revert n. induction s as [|c s IH]; intros n H; [destruct n; reflexivity|].
  destruct n as [|n]; simpl in *; [lia | apply IH; lia].
Qed.

Lemma next_rest s :
  wlp _next (fun b s' => looking s' (rest s) /\ console s' = console s /\
                          (b = true -> _p s' = _c s) /\
                          b = negb (String.eqb (rest s) EmptyString)) s.
Proof.
  apply wlp_next.
  - intros a Hlt Ha. unfold looking, rest. cbn [_c _pos _txt console _p].
    rewrite (drop_get _ _ _ Ha). repeat split; reflexivity.
  - intros Hge. unfold looking, rest. cbn [_c _pos _txt console _p].
    rewrite (drop_ge _ _ Hge). repeat split; try reflexivity. intros H; discriminate.
Qed.

Lemma looking_head s u : looking s u -> _c s = first_char u.
Proof. intros [H _]. exact H. Qed.

Lemma looking_rest s a u : looking s (String a u) -> rest s = u.
Proof. intros [_ H]. exact H. Qed.

Lemma blanks_app w w' : blanks (w ++ w') = blanks w && blanks w'.
Proof. apply string_forall_app. Qed.

Lemma delim_not_blank c : delim c = true -> is_blank c = false.
Proof.
  unfold delim. intros H. apply andb_prop in H. destruct H as [H _].
  apply negb_true_iff in H. exact H.
Qed.

Lemma delim_not_identchar c : delim c = true -> char_in is_identchar c = false.
Proof.
  unfold delim. intros H. apply andb_prop in H. destruct H as [_ H].
  apply negb_true_iff in H. exact H.
Qed.

Lemma delim_not_letter c : delim c = true -> char_in is_letter c = false.
Proof.
  intros H. apply delim_not_identchar in H. destruct c as [a|]; [|reflexivity].
  cbn [char_in] in *. destruct (is_letter a) eqn:E; [|reflexivity].
  rewrite (letter_identchar a E) in H. discriminate H.
Qed.

Lemma letter_not_blank a : is_letter a = true -> is_blank (Some a) = false.
Proof.
  destruct a as [[] [] [] [] [] [] [] []]; intros H; try reflexivity; discriminate H.
Qed.


Lemma trim_left_length s : String.length (trim_left s) <= String.length s.
Proof.
  induction s as [|a s IH]; simpl; [lia|].
  destruct (is_trim_space a); simpl; lia.
Qed.

Lemma trim_right_length s : String.length (trim_right s) <= String.length s.
Proof.
  induction s as [|a s IH]; simpl; [lia|].
  destruct (trim_right s); [destruct (is_trim_space a)|]; simpl in *; lia.
Qed.

Lemma trim_right_spaces t :
  string_forall is_trim_space t = true -> trim_right t = EmptyString.
Proof.
  induction t as [|a t IH]; simpl; [reflexivity|].
  intros H. apply andb_prop in H. destruct H as [Ha Ht].
  rewrite (IH Ht), Ha. reflexivity.
Qed.

Lemma trim_left_spaces t :
  string_forall is_trim_space t = true -> trim_left t = EmptyString.
Proof.
  induction t as [|a t IH]; simpl; [reflexivity|].
  intros H. apply andb_prop in H. destruct H as [Ha Ht].
  rewrite Ha. exact (IH Ht).
Qed.

Lemma trim_right_app s t :
  string_forall is_trim_space t = true -> trim_right (s ++ t) = trim_right s.
Proof.
  intros Ht. induction s as [|a s IH]; simpl; [apply trim_right_spaces; exact Ht|].
  rewrite IH. reflexivity.
Qed.

(** White space that follows a text without white space at its ends is
    trimmed away. *)
Lemma trim_app_spaces v t :
  trim v = v -> string_forall is_trim_space t = true -> trim (v ++ t) = v.
Proof.
  intros Hv Ht. unfold trim in *. destruct v as [|a v'].
  - cbn [String.append]. rewrite (trim_left_spaces t Ht). reflexivity.
  - cbn [String.append trim_left] in *.
    destruct (is_trim_space a).
    + exfalso. apply (f_equal String.length) in Hv. simpl in Hv.
      pose proof (trim_right_length (trim_left v')).
      pose proof (trim_left_length v'). lia.
    + change (String a (v' ++ t)) with (String a v' ++ t)%string.
      rewrite (trim_right_app _ _ Ht). exact Hv.
Qed.

Lemma blank_trim_space a : is_blank (Some a) = true -> is_trim_space a = true.
Proof.
  destruct a as [[] [] [] [] [] [] [] []]; intros H; try reflexivity; discriminate H.
Qed.

Lemma blanks_trim_spaces t : blanks t = true -> string_forall is_trim_space t = true.
Proof.
  induction t as [|a t IH]; simpl; [reflexivity|].
  intros H. apply andb_prop in H. destruct H as [Ha Ht].
  rewrite (blank_trim_space a Ha). exact (IH Ht).
Qed.

Lemma trim_fixed_head v : trim v = v -> is_blank (first_char v) = false.
Proof.
  intros Hv. destruct v as [|a v']; [reflexivity|]. cbn [first_char].
  destruct (is_blank (Some a)) eqn:E; [|reflexivity].
  exfalso. apply blank_trim_space in E.
  unfold trim in Hv. cbn [trim_left] in Hv. rewrite E in Hv.
  apply (f_equal String.length) in Hv. simpl in Hv.
  pose proof (trim_right_length (trim_left v')).
  pose proof (trim_left_length v'). lia.
Qed.

(** A bare word is read up to the first of the characters that end it:
    what was read is the word [v] and some of the blanks that follow
    it. *)
Lemma split_at_stop (v w x y u : string) :
  (v ++ w = x ++ y)%string ->
  string_forall (fun a => negb (is_stop (Some a))) v = true ->
  is_stop (first_char (y ++ u)%string) = true ->
  exists t, x = (v ++ t)%string /\ w = (t ++ y)%string.
Proof.
  revert x. induction v as [|a v IH]; intros x E Hv Hy.
  - exists x. split; [reflexivity | exact E].
  - cbn [string_forall] in Hv. apply andb_prop in Hv. destruct Hv as [Ha Hv].
    destruct x as [|b x].
    + cbn [String.append] in E. subst y. cbn [String.append first_char] in Hy.
      rewrite Hy in Ha. discriminate Ha.
    + cbn [String.append] in E. injection E as <- E.
      destruct (IH x E Hv Hy) as (t & -> & ->). exists t. split; reflexivity.
Qed.

Lemma stop_not_quote c :
  is_stop c = true -> is_char dquote c = false /\ is_char squote c = false.
Proof.
  destruct c as [a|]; [|discriminate].
  destruct a as [[] [] [] [] [] [] [] []]; intros H; try (split; reflexivity); discriminate H.
Qed.

Lemma stop_Some c : is_stop c = true -> exists a, c = Some a.
Proof. destruct c as [a|]; [eauto | discriminate]. Qed.

Section Reads.

Variable N : nat.

(** [_eatblanks] skips a run of blanks and stops at what follows. *)
Lemma eatblanks_looking s w u :
  blanks w = true -> is_blank (first_char u) = false -> looking s (w ++ u)%string ->
  wlp (_eatblanks N) (fun _ s' => looking s' u /\ console s' = console s) s.
Proof.
  intros Hw Hu Hs. unfold _eatblanks.
  apply wlp_loop with
    (I := fun _ s1 => exists w', blanks w' = true /\ looking s1 (w' ++ u)%string /\
                                 console s1 = console s);
    [|exists w; auto].
  intros _ s1 (w' & Hw' & Hl & Hc). wlp_simple.
  rewrite (looking_head _ _ Hl).
  destruct w' as [|b w'']; cbn [String.append first_char].
  - rewrite Hu. wlp_simple. split; [exact Hl | exact Hc].
  - cbn [blanks string_forall] in Hw'. apply andb_prop in Hw'. destruct Hw' as [Hb Hw''].
    rewrite Hb.
    wlp_use next_rest as b0 s2 H2. destruct H2 as (H2 & Hc2 & _).
    exists w''. split; [exact Hw''|]. split; [|congruence].
    rewrite (looking_rest _ _ _ Hl) in H2. exact H2.
Qed.

Lemma eatblanks_stay s u :
  is_blank (first_char u) = false -> looking s u ->
  wlp (_eatblanks N) (fun _ s' => looking s' u /\ console s' = console s) s.
Proof. intros Hu Hs. apply (eatblanks_looking s EmptyString u); auto. Qed.

(** [_getAttr] on an identifier that blanks may surround. *)
Lemma getAttr_reads s w x w' u :
  blanks w = true -> is_identifier x = true -> blanks w' = true ->
  delim (first_char u) = true ->
  looking s (w ++ x ++ w' ++ u)%string ->
  wlp (_getAttr N) (fun r s' => r = Some x /\ looking s' u /\ console s' = console s) s.
Proof.
  intros Hw Hx Hw' Hu Hs. unfold _getAttr.
  destruct x as [|a x']; [discriminate Hx|].
  cbn [is_identifier] in Hx. apply andb_prop in Hx. destruct Hx as [Ha Hx'].
  wlp_use (eatblanks_looking s w (String a x' ++ w' ++ u)%string Hw) as u0 s1 H1;
    [exact (letter_not_blank a Ha) | exact Hs |].
  destruct H1 as [H1 Hc1].
  rewrite (looking_head _ _ H1). cbn [String.append first_char regex_test to_str string_exists].
  rewrite Ha. cbn [orb negb option_map].
  assert (Hend : char_in is_identchar (first_char (w' ++ u)%string) = false).
  { destruct w' as [|b w'']; [apply delim_not_identchar; exact Hu|].
    cbn [String.append first_char char_in].
    cbn [blanks string_forall] in Hw'. apply andb_prop in Hw'. destruct Hw' as [Hb _].
    destruct (is_identchar b) eqn:E; [|reflexivity].
    apply identchar_nws in E. unfold nws in E.
    revert Hb E. clear.
    destruct b as [[] [] [] [] [] [] [] []]; intros H1 H2; try discriminate H1; discriminate H2. }
  wlp_simple. eapply wlp_conseq.
  - apply wlp_loop with
      (I := fun attr s2 => exists x1 x2, (String a x' = x1 ++ x2)%string /\ attr = Some x1 /\
                                         rest s2 = (x2 ++ w' ++ u)%string /\
                                         string_forall is_identchar x2 = true /\
                                         console s2 = console s)
      (Q := fun attr s2 => attr = Some (String a x') /\ looking s2 (w' ++ u)%string /\
                           console s2 = console s).
    + intros attr s2 (x1 & x2 & Hx & Hattr & Hr & Hid & Hc2).
      wlp_use next_rest as b s3 H3. destruct H3 as (H3 & Hc3 & _ & Hb).
      rewrite Hr in H3, Hb. rewrite (looking_head _ _ H3).
      destruct x2 as [|a2 x2'].
      * cbn [String.append] in *. rewrite append_empty_r in Hx. subst x1.
        assert (E : (b && regex_test is_identchar (first_char (w' ++ u)%string)) = false).
        { destruct (w' ++ u)%string as [|a3 r3] eqn:E3.
          - subst b. reflexivity.
          - cbn [first_char char_in] in Hend. cbn [first_char regex_test to_str string_exists].
            rewrite Hend. destruct b; reflexivity. }
        rewrite E. wlp_simple. repeat split; [exact Hattr | apply H3 | apply H3 | congruence].
      * cbn [String.append first_char] in *. subst b. cbn [String.eqb negb andb].
        cbn [string_forall] in Hid. apply andb_prop in Hid. destruct Hid as [Ha2 Hid].
        cbn [regex_test to_str string_exists]. rewrite Ha2. cbn [orb].
        wlp_simple. exists (x1 ++ String a2 EmptyString)%string, x2'.
        repeat split.
        -- rewrite append_assoc_s. exact Hx.
        -- subst attr. reflexivity.
        -- apply H3.
        -- exact Hid.
        -- congruence.
    + exists (String a EmptyString), x'. repeat split; [apply H1 | exact Hx' | exact Hc1].
  - cbv beta. intros attr s2 (Hattr & H2 & Hc2).
    wlp_use (eatblanks_looking s2 w' u Hw') as u1 s3 H3;
      [apply delim_not_blank; exact Hu | exact H2 |].
    destruct H3 as [H3 Hc3]. repeat split; [exact Hattr | apply H3 | apply H3 | congruence].
Qed.

(** [_getAttr] where no identifier starts: [null], and nothing is read
    but the blanks. *)
Lemma getAttr_null s w u :
  blanks w = true ->
  is_blank (first_char u) = false -> char_in is_letter (first_char u) = false ->
  looking s (w ++ u)%string ->
  wlp (_getAttr N) (fun r s' => r = None /\ looking s' u /\ console s' = console s) s.
Proof.
  intros Hw Hnb Hu Hs. unfold _getAttr.
  wlp_use (eatblanks_looking s w u Hw) as u0 s1 H1;
    [exact Hnb | exact Hs |].
  destruct H1 as [H1 Hc1].
  rewrite (looking_head _ _ H1).
  destruct u as [|a u'].
  - change (negb (regex_test is_letter (first_char EmptyString))) with false. cbv iota.
    cbn [first_char option_map]. wlp_simple. eapply wlp_conseq.
    + apply wlp_loop with
        (I := fun attr s2 => attr = None /\ rest s2 = EmptyString /\ console s2 = console s)
        (Q := fun attr s2 => attr = None /\ looking s2 EmptyString /\ console s2 = console s);
        [|repeat split; [apply H1 | exact Hc1]].
      intros attr s2 (Hattr & Hr & Hc2).
      wlp_use next_rest as b s3 H3. destruct H3 as (H3 & Hc3 & _ & Hb).
      rewrite Hr in H3, Hb. cbn in Hb. subst b. cbn [andb].
      wlp_simple. repeat split; [exact Hattr | apply H3 | apply H3 | congruence].
    + cbv beta. intros attr s2 (Hattr & H2 & Hc2).
      wlp_use (eatblanks_stay s2 EmptyString) as u1 s3 H3; [reflexivity | exact H2 |].
      destruct H3 as [H3 Hc3]. repeat split; [exact Hattr | apply H3 | apply H3 | congruence].
  - cbn [first_char regex_test to_str string_exists].
    cbn [first_char char_in] in Hu. rewrite Hu.
    cbn [orb negb]. wlp_simple. repeat split; [apply H1 | apply H1 | exact Hc1].
Qed.

Lemma getAttr_none s w u :
  blanks w = true -> delim (first_char u) = true ->
  looking s (w ++ u)%string ->
  wlp (_getAttr N) (fun r s' => r = None /\ looking s' u /\ console s' = console s) s.
Proof.
  intros Hw Hu. apply getAttr_null;
    [exact Hw | apply delim_not_blank; exact Hu | apply delim_not_letter; exact Hu].
Qed.


(** [_getString] on a text between two quotes. *)
Lemma getString_reads s q v u :
  q <> backslash -> quoted_value q v ->
  looking s (String q (v ++ String q u))%string ->
  wlp (_getString N) (fun r s' => r = v /\ looking s' u /\ console s' = console s) s.
Proof.
  intros Hq [Hcl Hlast] Hs. unfold _getString. wlp_simple.
  rewrite (looking_head _ _ Hs). cbn [first_char].
  eapply wlp_conseq.
  - apply wlp_loop with
      (I := fun str s1 => exists v2, v = (str ++ v2)%string /\
                                     rest s1 = (v2 ++ String q u)%string /\
                                     closes (Some q) (_c s1) v2 = false /\
                                     (v2 = EmptyString -> is_char backslash (_c s1) = false) /\
                                     last_char v2 <> Some backslash /\
                                     console s1 = console s)
      (Q := fun str s1 => str = v /\ _c s1 = Some q /\ rest s1 = u /\
                          console s1 = console s).
    + intros str s1 (v2 & Hv & Hr & Hc & He & Hl & Hcon).
      unfold getString_round.
      wlp_use next_rest as b s2 H2. destruct H2 as (H2 & Hc2 & Hp & Hb).
      rewrite Hr in H2, Hb.
      assert (Hbt : b = true) by (subst b; destruct v2; reflexivity).
      rewrite Hbt. cbn [negb]. wlp_simple.
      rewrite (Hp Hbt), (looking_head _ _ H2).
      destruct v2 as [|x v2']; cbn [String.append first_char] in *.
      * rewrite (He eq_refl). cbn [jschar_eqb negb]. rewrite Ascii.eqb_refl. cbn [andb].
        wlp_simple. rewrite append_empty_r in Hv.
        repeat split; [congruence | apply H2 | apply H2 | congruence].
      * cbn [closes] in Hc.
        destruct (jschar_eqb (Some x) (Some q) && negb (is_char backslash (_c s1)));
          [discriminate Hc|].
        wlp_simple. exists v2'. repeat split.
        -- rewrite append_assoc_s. exact Hv.
        -- apply H2.
        -- rewrite (proj1 H2). exact Hc.
        -- intros ->. rewrite (proj1 H2). cbn [first_char is_char].
           apply Ascii.eqb_neq. intros ->. apply Hl. reflexivity.
        -- destruct v2'; [discriminate | exact Hl].
        -- congruence.
    + exists v. repeat split; try assumption.
      * apply Hs.
      * rewrite (looking_head _ _ Hs). exact Hcl.
      * intros _. rewrite (looking_head _ _ Hs). cbn [first_char is_char].
        apply Ascii.eqb_neq. exact Hq.
  - cbv beta. intros str s1 (Hstr & Hc1 & Hr1 & Hcon1). wlp_simple.
    rewrite Hc1. wlp_simple.
    wlp_use next_rest as b s2 H2. destruct H2 as (H2 & Hc2 & _).
    rewrite Hr1 in H2. repeat split; [exact Hstr | apply H2 | apply H2 | congruence].
Qed.


(** [_getValue] on a value between quotes. *)
Lemma getValue_quoted s q v w u :
  q = dquote \/ q = squote -> quoted_value q v ->
  blanks w = true -> is_blank (first_char u) = false ->
  looking s (String q (v ++ String q (w ++ u)))%string ->
  wlp (_getValue N) (fun r s' => r = Some v /\ looking s' u /\ console s' = console s) s.
Proof.
  intros Hq Hv Hw Hu Hs. unfold _getValue.
  wlp_use (eatblanks_stay s (String q (v ++ String q (w ++ u)))%string) as u0 s1 H1;
    [destruct Hq as [-> | ->]; reflexivity | exact Hs |].
  destruct H1 as [H1 Hc1]. rewrite (looking_head _ _ H1). cbn [first_char].
  assert (E : is_char dquote (Some q) || is_char squote (Some q) = true)
    by (destruct Hq as [-> | ->]; reflexivity).
  rewrite E.
  wlp_use (getString_reads s1 q v (w ++ u)%string) as r s2 H2;
    [destruct Hq as [-> | ->]; discriminate | exact Hv | exact H1 |].
  destruct H2 as (Hr & H2 & Hc2).
  wlp_use (eatblanks_looking s2 w u Hw Hu H2) as u1 s3 H3.
  destruct H3 as [H3 Hc3]. repeat split; [congruence | apply H3 | apply H3 | congruence].
Qed.

(** [_getValue] on a bare word: it is read up to the next comma or
    closing parenthesis, through the blanks that precede these. *)
Lemma getValue_bare s v w u :
  bare_value v -> blanks w = true ->
  (v = EmptyString -> w = EmptyString) ->
  is_stop (first_char u) = true -> is_blank (first_char u) = false ->
  looking s (v ++ w ++ u)%string ->
  wlp (_getValue N) (fun r s' => r = Some v /\ looking s' u /\ console s' = console s) s.
Proof.
  intros (Hns & Htrim & Hnull & Hdq & Hsq) Hw Hvw Hstop Hu Hs. unfold _getValue.
  assert (Hhead : is_blank (first_char (v ++ w ++ u)%string) = false).
  { destruct v as [|a v'].
    - rewrite (Hvw eq_refl). exact Hu.
    - exact (trim_fixed_head _ Htrim). }
  wlp_use (eatblanks_stay s (v ++ w ++ u)%string Hhead Hs) as u0 s1 H1.
  destruct H1 as [H1 Hc1]. rewrite (looking_head _ _ H1).
  assert (E : is_char dquote (first_char (v ++ w ++ u)%string)
              || is_char squote (first_char (v ++ w ++ u)%string) = false).
  { destruct v as [|a v'].
    - rewrite (Hvw eq_refl). cbn [String.append].
      destruct (stop_not_quote _ Hstop) as [-> ->]. reflexivity.
    - cbn [String.append first_char] in *. rewrite Hdq, Hsq. reflexivity. }
  rewrite E. wlp_simple.
  destruct (stop_Some _ Hstop) as [a0 Ha0].
  eapply wlp_conseq.
  - apply wlp_loop with
      (I := fun value s2 => exists y, (v ++ w = value ++ y)%string /\
                                      looking s2 (y ++ u)%string /\
                                      console s2 = console s)
      (Q := fun r s2 => exists value y, r = (value, false) /\
                                        (v ++ w = value ++ y)%string /\
                                        looking s2 (y ++ u)%string /\
                                        is_stop (first_char (y ++ u)%string) = true /\
                                        console s2 = console s).
    + intros value s2 (y & Hvy & H2 & Hc2). wlp_simple.
      rewrite (looking_head _ _ H2).
      destruct (is_stop (first_char (y ++ u)%string)) eqn:Es; wlp_simple.
      * exists value, y. auto.
      * destruct y as [|b y']; [cbn [String.append] in Es; congruence|].
        cbn [String.append first_char to_str] in *.
        wlp_use next_rest as b0 s3 H3. destruct H3 as (H3 & Hc3 & _ & Hb).
        rewrite (looking_rest _ _ _ H2) in H3, Hb.
        assert (Hbt : b0 = true).
        { subst b0. destruct y'; [|reflexivity]. cbn [String.append].
          destruct u; [discriminate Ha0 | reflexivity]. }
        rewrite Hbt. cbn [negb]. wlp_simple.
        exists y'. repeat split.
        -- rewrite append_assoc_s. exact Hvy.
        -- apply H3.
        -- apply H3.
        -- congruence.
    + exists (v ++ w)%string. rewrite append_assoc_s.
      repeat split; [apply H1 | apply H1 | exact Hc1].
  - cbv beta. intros r s2 (value & y & -> & Hvy & H2 & Hs2 & Hc2).
    cbv iota zeta beta.
    destruct (split_at_stop v w value y u Hvy Hns Hs2) as (t & -> & ->).
    rewrite blanks_app in Hw. apply andb_prop in Hw. destruct Hw as [Ht Hy].
    rewrite (trim_app_spaces v t Htrim (blanks_trim_spaces t Ht)).
    apply String.eqb_neq in Hnull. rewrite Hnull.
    wlp_use (eatblanks_looking s2 y u Hy Hu H2) as u1 s3 H3.
    destruct H3 as [H3 Hc3]. repeat split; [apply H3 | apply H3 | congruence].
Qed.

End Reads.

Lemma among_3 c :
  among ["."; "("; ">"]%char c = true ->
  delim c = true /\ is_char "#" c = false.
Proof.
  destruct c as [a|]; [|split; reflexivity].
  destruct a as [[] [] [] [] [] [] [] []]; intros H; try (split; reflexivity); discriminate H.
Qed.

Lemma among_4 c :
  among ["#"; "."; "("; ">"]%char c = true -> delim c = true.
Proof.
  destruct c as [a|]; [|reflexivity].
  destruct a as [[] [] [] [] [] [] [] []]; intros H; try reflexivity; discriminate H.
Qed.

Lemma among_2 c :
  among ["("; ">"]%char c = true ->
  delim c = true /\ is_char "." c = false.
Proof.
  destruct c as [a|]; [|split; reflexivity].
  destruct a as [[] [] [] [] [] [] [] []]; intros H; try (split; reflexivity); discriminate H.
Qed.

Lemma among_1 c :
  among [">"]%char c = true ->
  delim c = true /\ is_char "(" c = false /\ is_blank c = false.
Proof.
  destruct c as [a|]; [|repeat split; reflexivity].
  destruct a as [[] [] [] [] [] [] [] []]; intros H; try (repeat split; reflexivity); discriminate H.
Qed.

Lemma among_weaken (l l' : list ascii) c :
  (forall a, In a l -> In a l') -> among l c = true -> among l' c = true.
Proof.
  intros Hl. destruct c as [a|]; [|reflexivity]. cbn [among].
  intros H. apply orb_true_iff in H. apply orb_true_iff.
  destruct H as [H|H]; [left | right; exact H].
  apply existsb_exists in H. destruct H as (x & Hx & E).
  apply existsb_exists. exists x. split; [apply Hl; exact Hx | exact E].
Qed.

Lemma one_of_sep c :
  one_of [","; ")"]%char c = true ->
  delim c = true /\ is_stop c = true /\ is_blank c = false /\ is_char "=" c = false.
Proof.
  destruct c as [a|]; [|discriminate].
  destruct a as [[] [] [] [] [] [] [] []]; intros H;
    try (repeat split; reflexivity); discriminate H.
Qed.

Section ReadsPrinted.

Variable N : nat.
Variable st : style.
Hypothesis Hpad : blanks (pad st) = true.

Lemma head_attrs a u :
  among [">"]%char (first_char u) = true ->
  among ["("; ">"]%char (first_char (print_attrs st a ++ u)%string) = true.
Proof using.
  intros H. destruct a as [|e a]; [|reflexivity].
  cbn [print_attrs String.append].
  revert H. apply among_weaken. intros x Hx. right. exact Hx.
Qed.

Lemma head_classes cs u :
  among ["("; ">"]%char (first_char u) = true ->
  among ["."; "("; ">"]%char (first_char (print_classes st cs ++ u)%string) = true.
Proof using.
  intros H. destruct cs as [|c cs]; [|reflexivity].
  cbn [print_classes fold_right String.append].
  revert H. apply among_weaken. intros x Hx. right. exact Hx.
Qed.

Lemma head_id i u :
  among ["."; "("; ">"]%char (first_char u) = true ->
  among ["#"; "."; "("; ">"]%char (first_char (print_id st i ++ u)%string) = true.
Proof using.
  intros H. destruct i as [i|]; [reflexivity|].
  cbn [print_id String.append].
  revert H. apply among_weaken. intros x Hx. right. exact Hx.
Qed.

(** The value of an attribute, as written. *)
Lemma parse_attr_value_reads s v u :
  (forall x, v = Some x -> writable st x) ->
  one_of [","; ")"]%char (first_char u) = true ->
  looking s (print_opt_value st v ++ u)%string ->
  wlp (parse_attr_value N)
      (fun r s' => r = v /\ looking s' u /\ console s' = console s) s.
Proof using Hpad.
  intros Hv Hu Hs.
  destruct (one_of_sep _ Hu) as (Hm & Hstop & Hnb & Hneq).
  unfold parse_attr_value. wlp_simple. rewrite (looking_head _ _ Hs).
  destruct v as [v|]; cbn [print_opt_value String.append first_char].
  - cbn [is_char]. cbn.
    wlp_use next_rest as b s1 H1. destruct H1 as (H1 & Hc1 & _).
    rewrite (looking_rest _ _ _ Hs) in H1.
    rewrite !append_assoc_s in H1.
    specialize (Hv v eq_refl). unfold writable in Hv. unfold print_value in H1.
    destruct (quoting st v).
    + (* bare *)
      destruct v as [|a v'].
      * cbn [String.append] in H1. rewrite <- append_assoc_s in H1.
        wlp_use (eatblanks_looking N s1 (pad st ++ pad st)%string u) as u0 s2 H2;
          [rewrite blanks_app, Hpad; reflexivity | exact Hnb | exact H1 |].
        destruct H2 as [H2 Hc2].
        wlp_use (getValue_bare N s2 EmptyString EmptyString u Hv) as r s3 H3;
          [reflexivity | reflexivity | exact Hstop | exact Hnb | exact H2 |].
        destruct H3 as (Hr & H3 & Hc3). repeat split; [exact Hr | apply H3 | apply H3 | congruence].
      * wlp_use (eatblanks_looking N s1 (pad st) (String a v' ++ pad st ++ u)%string Hpad)
          as u0 s2 H2; [exact (trim_fixed_head _ (proj1 (proj2 Hv))) | exact H1 |].
        destruct H2 as [H2 Hc2].
        wlp_use (getValue_bare N s2 (String a v') (pad st) u Hv Hpad) as r s3 H3;
          [discriminate | exact Hstop | exact Hnb | exact H2 |].
        destruct H3 as (Hr & H3 & Hc3). repeat split; [exact Hr | apply H3 | apply H3 | congruence].
    + cbn [String.append] in H1. rewrite append_assoc_s in H1. cbn [String.append] in H1.
      wlp_use (eatblanks_looking N s1 (pad st)
                 (String squote (v ++ String squote (pad st ++ u)))%string Hpad)
        as u0 s2 H2; [reflexivity | exact H1 |].
      destruct H2 as [H2 Hc2].
      wlp_use (getValue_quoted N s2 squote v (pad st) u) as r s3 H3;
        [right; reflexivity | exact Hv | exact Hpad | exact Hnb | exact H2 |].
      destruct H3 as (Hr & H3 & Hc3). repeat split; [exact Hr | apply H3 | apply H3 | congruence].
    + cbn [String.append] in H1. rewrite append_assoc_s in H1. cbn [String.append] in H1.
      wlp_use (eatblanks_looking N s1 (pad st)
                 (String dquote (v ++ String dquote (pad st ++ u)))%string Hpad)
        as u0 s2 H2; [reflexivity | exact H1 |].
      destruct H2 as [H2 Hc2].
      wlp_use (getValue_quoted N s2 dquote v (pad st) u) as r s3 H3;
        [left; reflexivity | exact Hv | exact Hpad | exact Hnb | exact H2 |].
      destruct H3 as (Hr & H3 & Hc3). repeat split; [exact Hr | apply H3 | apply H3 | congruence].
  - rewrite Hneq. wlp_simple. repeat split; apply Hs.
Qed.

Lemma print_entries_cons e a :
  print_entries st (e :: a) =
  (print_entry st e ++ match a with
                       | [] => EmptyString
                       | _ :: _ => "," ++ print_entries st a
                       end)%string.
Proof using.
  destruct a; [|reflexivity].
  unfold print_entries. cbn [map String.concat]. rewrite append_empty_r. reflexivity.
Qed.

Lemma assigned_snoc a k v : assigned (a ++ [(k, v)]) = obj_set (assigned a) k v.
Proof using. unfold assigned. rewrite fold_left_app. reflexivity. Qed.

(** The attributes between parentheses, as written. *)
Lemma parse_attrs_reads s a u :
  Forall (fun k => is_identifier k = true) (obj_keys a) ->
  (forall k v, In (k, Some v) a -> writable st v) ->
  among [">"]%char (first_char u) = true ->
  looking s (print_attrs st a ++ u)%string ->
  wlp (parse_attrs N)
      (fun r s' => r = Some (assigned a) /\
                   (exists w', blanks w' = true /\ looking s' (w' ++ u)%string) /\
                   console s' = console s) s.
Proof using Hpad.
  intros Hkeys Hvals Hu Hs.
  destruct (among_1 _ Hu) as (Hm & Hpar & Hnb).
  unfold parse_attrs. wlp_simple. rewrite (looking_head _ _ Hs).
  destruct a as [|e0 a0].
  { cbn [print_attrs String.append]. rewrite Hpar. wlp_simple.
    split; [reflexivity|]. split; [|reflexivity].
    exists EmptyString. split; [reflexivity | exact Hs]. }
  assert (Hpa : print_attrs st (e0 :: a0)
                = String "(" (print_entries st (e0 :: a0) ++ ")" ++ pad st)%string)
    by reflexivity.
  assert (Hane : e0 :: a0 <> []) by discriminate.
  remember (e0 :: a0) as a eqn:Ea. clear Ea e0 a0.
  rewrite Hpa in *. clear Hpa.
  cbn [String.append first_char is_char] in *. cbn [Ascii.eqb Bool.eqb].
  cbv iota.
  wlp_use next_rest as b s1 H1. destruct H1 as (H1 & Hc1 & _).
  rewrite (looking_rest _ _ _ Hs) in H1. rewrite append_assoc_s in H1.
  eapply wlp_conseq.
  - apply wlp_loop with
      (I := fun ats s2 => exists done todo,
                a = done ++ todo /\ todo <> [] /\ ats = assigned done /\
                looking s2 (print_entries st todo ++ ")" ++ pad st ++ u)%string /\
                console s2 = console s)
      (Q := fun r s2 => r = Some (assigned a) /\
                        looking s2 (")" ++ pad st ++ u)%string /\
                        console s2 = console s).
    + intros ats s2 (done & todo & Ha & Hne & Hats & H2 & Hc2).
      destruct todo as [|[k v] todo']; [contradiction|].
      rewrite print_entries_cons in H2. unfold print_entry in H2.
      cbn [fst snd] in H2. rewrite !append_assoc_s in H2.
      set (TAIL := (match todo' with
                    | [] => EmptyString
                    | _ :: _ => "," ++ print_entries st todo'
                    end ++ ")" ++ pad st ++ u)%string) in *.
      assert (Htail : one_of [","; ")"]%char (first_char TAIL) = true)
        by (unfold TAIL; destruct todo'; reflexivity).
      destruct (one_of_sep _ Htail) as (Hmt & Hstop & Hnbt & Hneq).
      assert (Hmark : delim (first_char (print_opt_value st v ++ TAIL)%string) = true)
        by (destruct v; [reflexivity | exact Hmt]).
      assert (Hk : is_identifier k = true).
      { rewrite Forall_forall in Hkeys. apply Hkeys. rewrite Ha.
        unfold obj_keys. rewrite map_app. apply in_or_app. right. left. reflexivity. }
      wlp_use (getAttr_reads N s2 (pad st) k (pad st) (print_opt_value st v ++ TAIL)%string
                 Hpad Hk Hpad Hmark H2) as r s3 H3.
      destruct H3 as (-> & H3 & Hc3). cbv iota.
      wlp_use (eatblanks_stay N s3 _ (delim_not_blank _ Hmark) H3) as u0 s4 H4.
      destruct H4 as [H4 Hc4].
      wlp_use (parse_attr_value_reads s4 v TAIL) as r s5 H5;
        [ intros x ->; apply (Hvals k x); rewrite Ha; apply in_or_app; right; left; reflexivity
        | exact Htail | exact H4 | ].
      destruct H5 as (-> & H5 & Hc5).
      rewrite (looking_head _ _ H5).
      assert (Hcon : console s5 = console s) by congruence.
      unfold TAIL in *. destruct todo' as [|e1 todo''].
      * cbn [String.append first_char is_char]. cbn [Ascii.eqb Bool.eqb]. cbv iota.
        wlp_simple. repeat split; [|apply H5 | apply H5 | exact Hcon].
        rewrite Ha, assigned_snoc, Hats. reflexivity.
      * cbn [String.append first_char is_char]. cbn [Ascii.eqb Bool.eqb negb]. cbv iota.
        wlp_use next_rest as b5 s6 H6. destruct H6 as (H6 & Hc6 & _).
        cbn [String.append] in H5. rewrite (looking_rest _ _ _ H5) in H6.
        exists (done ++ [(k, v)]), (e1 :: todo''). repeat split.
        -- rewrite <- app_assoc. exact Ha.
        -- discriminate.
        -- rewrite assigned_snoc, Hats. reflexivity.
        -- apply H6.
        -- apply H6.
        -- congruence.
    + exists [], a. repeat split; [exact Hane | apply H1 | apply H1 | congruence].
  - cbv beta. intros r s2 (-> & H2 & Hc2). cbv iota. wlp_simple.
    rewrite (looking_head _ _ H2).
    cbn [String.append first_char is_char]. cbn [Ascii.eqb Bool.eqb negb]. cbv iota.
    wlp_use next_rest as b2 s3 H3. destruct H3 as (H3 & Hc3 & _).
    cbn [String.append] in H2. rewrite (looking_rest _ _ _ H2) in H3.
    repeat split; [|congruence].
    exists (pad st). split; [exact Hpad | exact H3].
Qed.

(** The identifier after [#], as written. *)
Lemma parse_id_reads s i u :
  (forall x, i = Some x -> is_identifier x = true) ->
  among ["."; "("; ">"]%char (first_char u) = true ->
  looking s (print_id st i ++ u)%string ->
  wlp (parse_id N)
      (fun r s' => r = Some i /\ looking s' u /\ console s' = console s) s.
Proof using Hpad.
  intros Hi Hu Hs. destruct (among_3 _ Hu) as [Hm Hsharp].
  unfold parse_id. wlp_simple. rewrite (looking_head _ _ Hs).
  destruct i as [i|]; cbn [print_id String.append first_char].
  - cbn [is_char]. cbn [Ascii.eqb Bool.eqb]. cbv iota.
    wlp_use next_rest as b s1 H1. destruct H1 as (H1 & Hc1 & _).
    cbn [print_id String.append] in Hs.
    rewrite (looking_rest _ _ _ Hs) in H1. rewrite !append_assoc_s in H1.
    wlp_use (getAttr_reads N s1 (pad st) i (pad st) u Hpad (Hi i eq_refl) Hpad Hm H1)
      as r s2 H2.
    destruct H2 as (-> & H2 & Hc2). cbv iota. wlp_simple.
    repeat split; [apply H2 | apply H2 | congruence].
  - rewrite Hsharp. wlp_simple. repeat split; apply Hs.
Qed.

(** The classes, as written. *)
Lemma parse_classes_reads s cs u :
  Forall (fun c => is_identifier c = true) cs ->
  among ["("; ">"]%char (first_char u) = true ->
  looking s (print_classes st cs ++ u)%string ->
  wlp (parse_classes N)
      (fun r s' => r = Some cs /\ looking s' u /\ console s' = console s) s.
Proof using Hpad.
  intros Hcs Hu Hs. destruct (among_2 _ Hu) as [Hm Hdot].
  unfold parse_classes.
  apply wlp_loop with
    (I := fun classes s1 => exists todo,
              cs = classes ++ todo /\
              looking s1 (print_classes st todo ++ u)%string /\
              console s1 = console s);
    [|exists cs; auto].
  intros classes s1 (todo & Hc & H1 & Hc1). wlp_simple.
  rewrite (looking_head _ _ H1).
  destruct todo as [|c todo']; cbn [print_classes fold_right String.append first_char].
  - rewrite Hdot. wlp_simple. rewrite app_nil_r in Hc. subst classes.
    repeat split; [apply H1 | apply H1 | exact Hc1].
  - cbn [is_char]. cbn [Ascii.eqb Bool.eqb]. cbv iota.
    wlp_use next_rest as b s2 H2. destruct H2 as (H2 & Hc2 & _).
    cbn [print_classes fold_right String.append] in H1.
    rewrite (looking_rest _ _ _ H1) in H2.
    fold (print_classes st todo') in H2.
    assert (Hc' : is_identifier c = true).
    { rewrite Forall_forall in Hcs. apply Hcs. rewrite Hc. apply in_or_app.
      right. left. reflexivity. }
    assert (Hm' : delim (first_char (print_classes st todo' ++ u)%string) = true).
    { apply among_4. generalize (head_classes todo' u Hu).
      apply among_weaken. intros x Hx. right. exact Hx. }
    rewrite !append_assoc_s in H2.
    wlp_use (getAttr_reads N s2 (pad st) c (pad st) _ Hpad Hc' Hpad Hm' H2) as r s3 H3.
    destruct H3 as (-> & H3 & Hc3). cbv iota. wlp_simple.
    exists todo'. repeat split; [|apply H3 | apply H3 | congruence].
    rewrite <- app_assoc. exact Hc.
Qed.

(** The tag, as written or left out. *)
Lemma getAttr_tag s tg u :
  is_identifier tg = true -> delim (first_char u) = true ->
  looking s (pad st ++ print_tag st tg ++ u)%string ->
  wlp (_getAttr N)
      (fun t s' => match t with None => "div" | Some t => t end = tg /\
                   looking s' u /\ console s' = console s) s.
Proof using Hpad.
  intros Htag Hu H1. unfold print_tag in H1.
  destruct (omit_div st && String.eqb tg "div") eqn:E.
  - apply andb_prop in E. destruct E as [_ E]. apply String.eqb_eq in E.
    cbn [String.append] in H1.
    eapply wlp_conseq; [apply (getAttr_none N s (pad st) u Hpad Hu H1)|].
    cbv beta. intros r s2 (-> & H2 & Hc2). repeat split; [auto | apply H2 | apply H2 | congruence].
  - rewrite append_assoc_s in H1.
    eapply wlp_conseq;
      [apply (getAttr_reads N s (pad st) tg (pad st) u Hpad Htag Hpad Hu H1)|].
    cbv beta. intros r s2 (-> & H2 & Hc2). repeat split; [apply H2 | apply H2 | congruence].
Qed.

(** One segment, as written, up to the [>] or the end of the input that
    follows it. *)
Lemma parse_segment_reads results s d u :
  printable st d ->
  among [">"]%char (first_char u) = true ->
  rest s = (print_segment st d ++ u)%string ->
  wlp (parse_segment N results)
      (fun x s' =>
         looking s' u /\
         match first_char u with
         | None => x = inr (Some (results ++ [normal d])) /\ console s' = console s
         | Some c =>
             if Ascii.eqb c ">"
             then x = inl (results ++ [normal d]) /\ console s' = console s
             else x = inr None /\
                  console s' = console s
                                ++ [mkSyntaxError (_pos s') (Some c) "expected > or EOF"]
         end) s.
Proof using Hpad.
  intros [(Htag & Hid & Hcls & Hkeys) Hvals] Hu Hr.
  unfold parse_segment.
  wlp_use next_rest as b s1 H1. destruct H1 as (H1 & Hc1 & _).
  rewrite Hr in H1. unfold print_segment in H1. rewrite !append_assoc_s in H1.
  set (u3 := (print_attrs st (attrs d) ++ u)%string) in *.
  set (u2 := (print_classes st (classes d) ++ u3)%string) in *.
  set (u1 := (print_id st (id d) ++ u2)%string) in *.
  pose proof (head_attrs (attrs d) u Hu) as Hh3. fold u3 in Hh3.
  pose proof (head_classes (classes d) u3 Hh3) as Hh2. fold u2 in Hh2.
  pose proof (head_id (id d) u2 Hh2) as Hh1. fold u1 in Hh1.
  wlp_use (getAttr_tag s1 (tag d) u1 Htag (among_4 _ Hh1) H1) as t s2 H2.
  destruct H2 as (Ht & H2 & Hc2). rewrite Hc1 in Hc2.
  wlp_use (parse_id_reads s2 (id d) u2 Hid Hh2 H2) as r s3 H3.
  destruct H3 as (-> & H3 & Hc3). cbv iota.
  wlp_use (parse_classes_reads s3 (classes d) u3 Hcls Hh3 H3) as r s4 H4.
  destruct H4 as (-> & H4 & Hc4). cbv iota.
  wlp_use (parse_attrs_reads s4 (attrs d) u Hkeys Hvals Hu H4) as r s5 H5.
  destruct H5 as (-> & (w' & Hw' & H5) & Hc5). cbv iota.
  destruct (among_1 _ Hu) as (_ & _ & Hnb).
  wlp_use (eatblanks_looking N s5 w' u Hw' Hnb H5) as u0 s6 H6.
  destruct H6 as [H6 Hc6].
  assert (Hcon : console s6 = console s) by congruence.
  rewrite (looking_head _ _ H6). rewrite Ht.
  fold (normal d).
  pose proof (looking_head _ _ H6) as Hc.
  destruct (first_char u) as [c|] eqn:Ec.
  - cbn [is_char]. destruct (Ascii.eqb c ">"); cbn [negb]; wlp_simple.
    + split; [exact H6|]. split; [reflexivity | exact Hcon].
    + split; [exact H6|]. split; [reflexivity|].
      cbn [console _pos]. rewrite Hcon, Hc. reflexivity.
  - wlp_simple. split; [exact H6|]. split; [reflexivity | exact Hcon].
Qed.



End ReadsPrinted.


Lemma drop_0 (s : string) : drop 0 s = s.
Proof. destruct s; reflexivity. Qed.



(* ================================================================== *)
(** * The places that [parse] reports *)
(* ================================================================== *)

Lemma placed_within txt s : placed txt s -> within txt s.
Proof. intros [H _]. exact H. Qed.

Lemma next_placed txt s :
  within txt s -> wlp _next (fun _ s' => placed txt s') s.
Proof.
  intros (Ht & Hp & Hl). apply wlp_next.
  - intros a Hlt Ha. unfold placed, within. cbn [_txt _pos _c console].
    rewrite Ht in *. repeat split; try assumption; try lia.
    replace (S (_pos s) - 1) with (_pos s) by lia. exact Ha.
  - intros Hge. unfold placed, within. cbn [_txt _pos _c console].
    rewrite Ht in *. repeat split; try assumption. lia.
Qed.

Lemma syntaxError_placed txt x s :
  placed txt s -> wlp (_syntaxError x) (fun _ s' => placed txt s') s.
Proof.
  intros [(Ht & Hp & Hl) Hc]. apply wlp_syntaxError.
  unfold placed, within. cbn [_txt _pos _c console].
  repeat split; try assumption.
  apply Forall_app. split; [exact Hl|]. constructor; [|constructor].
  unfold line_fits. cbn [near at_char]. split; [exact Hp | exact Hc].
Qed.

(** Steps through a computation all of whose parts keep the parser
    placed. *)
Ltac placed_step txt :=
  match goal with
  | |- wlp (bind _ _) _ _ => apply wlp_bind
  | |- wlp (ret _) _ _ => apply wlp_ret; cbv beta iota
  | |- wlp get_c _ _ => apply wlp_get_c
  | |- wlp get_p _ _ => apply wlp_get_p
  | |- wlp _next _ _ =>
      eapply wlp_conseq;
      [apply (next_placed txt); first [assumption | apply placed_within; assumption]
      | cbv beta; intros ? ? ?]
  | |- wlp (_syntaxError _) _ _ =>
      eapply wlp_conseq;
      [apply (syntaxError_placed txt); assumption | cbv beta; intros ? ? ?]
  | |- wlp (loop _ _ _) _ _ =>
      eapply wlp_conseq;
      [apply wlp_loop with (I := fun _ s => placed txt s) (Q := fun _ s => placed txt s);
       [cbv beta; intros ? ? ? | assumption]
      | cbv beta; intros ? ? ?]
  | |- wlp (let '(_, _) := ?r in _) _ _ => destruct r
  | |- wlp (let _ := _ in _) _ _ => cbv zeta
  | |- wlp (if ?b then _ else _) _ _ => destruct b
  | |- wlp (match ?x with _ => _ end) _ _ => destruct x
  | |- placed _ _ => assumption
  | |- match ?x with inl _ => _ | inr _ => _ end => destruct x
  | |- wlp _ _ _ =>
      eapply wlp_conseq; [solve [eauto with placed] | cbv beta; intros ? ? ?]
  end.

Ltac placed_auto txt := repeat placed_step txt.

Create HintDb placed discriminated.

Section Positions.

Variable N : nat.
Variable txt : string.

Lemma eatblanks_placed s :
  placed txt s -> wlp (_eatblanks N) (fun _ s' => placed txt s') s.
Proof. intros H. unfold _eatblanks. placed_auto txt. Qed.
Hint Resolve eatblanks_placed : placed.

Lemma getAttr_placed s :
  placed txt s -> wlp (_getAttr N) (fun _ s' => placed txt s') s.
Proof. intros H. unfold _getAttr. placed_auto txt. Qed.
Hint Resolve getAttr_placed : placed.

Lemma getString_placed s :
  placed txt s -> wlp (_getString N) (fun _ s' => placed txt s') s.
Proof. intros H. unfold _getString, getString_round. placed_auto txt. Qed.
Hint Resolve getString_placed : placed.

Lemma getValue_placed s :
  placed txt s -> wlp (_getValue N) (fun _ s' => placed txt s') s.
Proof. intros H. unfold _getValue. placed_auto txt. Qed.
Hint Resolve getValue_placed : placed.

Lemma parse_attr_value_placed s :
  placed txt s -> wlp (parse_attr_value N) (fun _ s' => placed txt s') s.
Proof. intros H. unfold parse_attr_value. placed_auto txt. Qed.
Hint Resolve parse_attr_value_placed : placed.

Lemma parse_id_placed s :
  placed txt s -> wlp (parse_id N) (fun _ s' => placed txt s') s.
Proof. intros H. unfold parse_id. placed_auto txt. Qed.
Hint Resolve parse_id_placed : placed.

Lemma parse_classes_placed s :
  placed txt s -> wlp (parse_classes N) (fun _ s' => placed txt s') s.
Proof. intros H. unfold parse_classes. placed_auto txt. Qed.
Hint Resolve parse_classes_placed : placed.

Lemma parse_attrs_placed s :
  placed txt s -> wlp (parse_attrs N) (fun _ s' => placed txt s') s.
Proof. intros H. unfold parse_attrs. placed_auto txt. Qed.
Hint Resolve parse_attrs_placed : placed.

Lemma parse_segment_placed results s :
  within txt s -> wlp (parse_segment N results) (fun _ s' => placed txt s') s.
Proof. intros H. unfold parse_segment. placed_auto txt. Qed.

Lemma parse_loop_placed n results s :
  within txt s -> wlp (loop n (parse_segment N) results) (fun _ s' => within txt s') s.
Proof.
  intros H.
  apply wlp_loop with (I := fun _ s1 => within txt s1); [|exact H].
  intros res s1 H1.
  eapply wlp_conseq; [apply parse_segment_placed; exact H1|].
  cbv beta. intros [res'|r] s2 H2; apply placed_within; exact H2.
Qed.

End Positions.

(** X17. Every line that [parse] writes on the console names a place
    within the input, counted from one, and the character that stands at
    that place, which is the last one read; a line whose character is
    [null] names the end of the input, that is the length of the
    input. *)
Theorem reported_positions (txt : string) (r : option (list descriptor))
        (log : list SyntaxError) :
  parse txt = Some (r, log) ->
  Forall (fun e =>
            near e <= String.length txt /\
            match at_char e with
            | Some a => 0 < near e /\ String.get (near e - 1) txt = Some a
            | None => near e = String.length txt
            end) log.
Proof.
  unfold parse, parse_with, parse_loop.
  set (N := 2 * String.length txt + 2). intros E.
  destruct (loop N (parse_segment N) [] (_start txt)) as [[x s]|] eqn:E1; [|discriminate].
  injection E as <- <-.
  assert (H0 : within txt (_start txt)).
  { unfold within. cbn [_start _txt _pos console]. repeat split; [lia | constructor]. }
  destruct (parse_loop_placed N txt N [] (_start txt) H0 x s E1) as (_ & _ & H).
  exact H.
Qed.

Lemma reported_positions_witness :
  Forall (fun e =>
            near e <= String.length "a(k=1;" /\
            match at_char e with
            | Some a => 0 < near e /\ String.get (near e - 1) "a(k=1;" = Some a
            | None => near e = String.length "a(k=1;"
            end) [mkSyntaxError 6 None "unexpected character"].
Proof.
  apply (reported_positions "a(k=1;" None [mkSyntaxError 6 None "unexpected character"]).
  vm_compute. reflexivity.
Defined.

(* ================================================================== *)
(** * Definitions that [parse] gives up on *)
(* ================================================================== *)


Lemma drop_length (s : string) n :
  String.length (drop n s) = String.length s - n.
Proof.
  revert n. induction s as [|c s IH]; intros n; [destruct n; reflexivity|].
  destruct n as [|n]; [reflexivity|]. cbn [drop String.length]. rewrite IH. lia.
Qed.

(** Where the parser stands when it has [u] before it. *)
Lemma looking_pos txt s u :
  within txt s -> looking s u ->
  _pos s = String.length txt - String.length (but_first u).
Proof.
  intros (Ht & Hp & _) [_ Hr]. unfold rest in Hr. rewrite Ht in Hr.
  apply (f_equal String.length) in Hr. rewrite drop_length in Hr. lia.
Qed.

(** A line written where the parser stands. *)
Lemma error_here s u x (log : list SyntaxError) :
  looking s u -> console s = log ->
  looking (mkParser (_txt s) (_pos s) (_c s) (_p s)
                    (console s ++ [mkSyntaxError (_pos s) (_c s) x])) u /\
  console (mkParser (_txt s) (_pos s) (_c s) (_p s)
                    (console s ++ [mkSyntaxError (_pos s) (_c s) x]))
  = log ++ [mkSyntaxError (_pos s) (first_char u) x].
Proof.
  intros H Hc. split; [exact H|]. cbn [console]. rewrite Hc, (looking_head _ _ H).
  reflexivity.
Qed.

Lemma stray_among c : stray c = true -> among [">"]%char (Some c) = true.
Proof. intros H. cbn [among]. rewrite H. apply orb_true_r. Qed.

Lemma stray_not_gt c : stray c = true -> Ascii.eqb c ">" = false.
Proof.
  unfold stray. intros H. apply andb_prop in H. destruct H as [_ H].
  apply negb_true_iff in H. exact H.
Qed.

Lemma parse_attrs_rounds N :
  parse_attrs N =
  (c <- get_c ;;
   if is_char "(" c then
     _next ;;;
     r <- loop N (attrs_round N) [] ;;
     match r with
     | None => ret None
     | Some attrs =>
         c <- get_c ;;
         if negb (is_char ")" c) then _syntaxError "expected )" ;;; ret None
         else _next ;;; ret (Some attrs)
     end
   else ret (Some [])).
Proof. reflexivity. Qed.

Section Ends.

Variable N : nat.

(** [_getString] on a text that no quote closes: it is read to the end
    of the input. *)
Lemma getString_to_end s q body :
  closes (Some q) (Some q) body = false ->
  looking s (String q body) ->
  wlp (_getString N)
      (fun _ s' => looking s' EmptyString /\
                   exists p, console s' = console s
                                           ++ [mkSyntaxError p None "unclosed quote"]) s.
Proof.
  intros Hcl Hs. unfold _getString. wlp_simple.
  rewrite (looking_head _ _ Hs). cbn [first_char].
  eapply wlp_conseq.
  - apply wlp_loop with
      (I := fun (str : string) s1 =>
              closes (Some q) (_c s1) (rest s1) = false /\ console s1 = console s)
      (Q := fun (str : string) s1 => looking s1 EmptyString /\ console s1 = console s).
    + intros str s1 (Hc & Hcon). unfold getString_round.
      wlp_use next_rest as b s2 H2. destruct H2 as (H2 & Hc2 & Hp & Hb).
      destruct (rest s1) as [|x r] eqn:Er; subst b; cbn [String.eqb negb]; wlp_simple.
      * split; [exact H2 | congruence].
      * rewrite (Hp eq_refl), (looking_head _ _ H2). cbn [first_char].
        cbn [closes] in Hc.
        destruct (jschar_eqb (Some x) (Some q) && negb (is_char backslash (_c s1)));
          [discriminate Hc|].
        wlp_simple. split; [|congruence].
        rewrite (proj1 H2), (proj2 H2). exact Hc.
    + split; [|reflexivity].
      rewrite (looking_head _ _ Hs), (looking_rest _ _ _ Hs). exact Hcl.
  - cbv beta. intros str s1 (H1 & Hc1). wlp_simple.
    rewrite (looking_head _ _ H1). cbn [first_char]. wlp_simple.
    wlp_use next_rest as b s2 H2. destruct H2 as (H2 & Hc2 & _).
    split.
    + unfold rest in H2. cbn [_pos _txt] in H2. fold (rest s1) in H2.
      rewrite (proj2 H1) in H2. exact H2.
    + exists (_pos s1). rewrite Hc2. cbn [console]. rewrite Hc1, (proj1 H1). reflexivity.
Qed.

Lemma getValue_to_end s q body :
  q = dquote \/ q = squote ->
  closes (Some q) (Some q) body = false ->
  looking s (String q body) ->
  wlp (_getValue N)
      (fun _ s' => looking s' EmptyString /\
                   exists p, console s' = console s
                                           ++ [mkSyntaxError p None "unclosed quote"]) s.
Proof.
  intros Hq Hcl Hs. unfold _getValue.
  assert (Hqb : is_blank (first_char (String q body)) = false)
    by (destruct Hq as [-> | ->]; reflexivity).
  wlp_use (eatblanks_stay N s (String q body) Hqb Hs) as u0 s1 H1.
  destruct H1 as [H1 Hc1]. rewrite (looking_head _ _ H1). cbn [first_char].
  assert (E : is_char dquote (Some q) || is_char squote (Some q) = true)
    by (destruct Hq as [-> | ->]; reflexivity).
  rewrite E.
  wlp_use (getString_to_end s1 q body Hcl H1) as r s2 H2.
  destruct H2 as (H2 & p & Hc2).
  wlp_use (eatblanks_stay N s2 EmptyString eq_refl H2) as u1 s3 H3.
  destruct H3 as [H3 Hc3]. split; [exact H3|]. exists p. congruence.
Qed.

(** [_getValue] on a bare word that ends the input, blanks apart. *)
Lemma getValue_bare_end s v w :
  bare_value v -> blanks w = true -> (v = EmptyString -> w = EmptyString) ->
  looking s (v ++ w)%string ->
  wlp (_getValue N) (fun _ s' => looking s' EmptyString /\ console s' = console s) s.
Proof.
  intros (Hns & Htrim & Hnull & Hdq & Hsq) Hw Hvw Hs. unfold _getValue.
  assert (Hhead : is_blank (first_char (v ++ w)%string) = false).
  { destruct v as [|a v'].
    - rewrite (Hvw eq_refl). reflexivity.
    - exact (trim_fixed_head _ Htrim). }
  wlp_use (eatblanks_stay N s (v ++ w)%string Hhead Hs) as u0 s1 H1.
  destruct H1 as [H1 Hc1]. rewrite (looking_head _ _ H1).
  assert (E : is_char dquote (first_char (v ++ w)%string)
              || is_char squote (first_char (v ++ w)%string) = false).
  { destruct v as [|a v'].
    - rewrite (Hvw eq_refl). reflexivity.
    - cbn [String.append first_char] in *. rewrite Hdq, Hsq. reflexivity. }
  rewrite E. wlp_simple.
  eapply wlp_conseq.
  - apply wlp_loop with
      (I := fun (value : string) s2 => exists y, (v ++ w = value ++ y)%string /\
                                                 looking s2 y /\ console s2 = console s)
      (Q := fun (r : string * bool) s2 =>
              console s2 = console s /\
              if snd r then looking s2 EmptyString
              else exists y, (v ++ w = fst r ++ y)%string /\ looking s2 y /\
                             is_stop (first_char y) = true).
    + intros value s2 (y & Hvy & H2 & Hc2). wlp_simple.
      rewrite (looking_head _ _ H2).
      destruct (is_stop (first_char y)) eqn:Es; wlp_simple.
      * split; [exact Hc2|]. cbn [snd fst]. exists y. auto.
      * wlp_use next_rest as b0 s3 H3. destruct H3 as (H3 & Hc3 & _ & Hb).
        rewrite (proj2 H2) in H3, Hb.
        destruct (but_first y) as [|z y''] eqn:Ey; subst b0; cbn [String.eqb negb];
          wlp_simple.
        -- split; [congruence|]. cbn [snd]. exact H3.
        -- destruct y as [|b y']; [discriminate Ey|]. cbn [but_first] in Ey. subst y'.
           cbn [first_char to_str]. exists (String z y''). repeat split.
           ++ rewrite append_assoc_s. exact Hvy.
           ++ apply H3.
           ++ apply H3.
           ++ congruence.
    + exists (v ++ w)%string. repeat split; [apply H1 | apply H1 | exact Hc1].
  - cbv beta. intros [value returned] s2 (Hc2 & Hr). cbn [snd fst] in Hr.
    cbv iota zeta beta. destruct returned.
    + wlp_simple. split; [exact Hr | exact Hc2].
    + destruct Hr as (y & Hvy & H2 & Hs2).
      destruct (split_at_stop v w value y EmptyString) as (t & -> & ->);
        [exact Hvy | exact Hns | rewrite append_empty_r; exact Hs2|].
      rewrite blanks_app in Hw. apply andb_prop in Hw. destruct Hw as [Ht Hy].
      wlp_use (eatblanks_looking N s2 y EmptyString Hy eq_refl) as u1 s3 H3;
        [rewrite append_empty_r; exact H2|].
      destruct H3 as [H3 Hc3]. split; [exact H3 | congruence].
Qed.

End Ends.

Section Entries.

Variable N : nat.
Variable st : style.
Hypothesis Hpad : blanks (pad st) = true.

(** An entry that a [,] follows. *)
Lemma attrs_round_reads ats s k v u :
  is_identifier k = true -> (forall x, v = Some x -> writable st x) ->
  looking s (print_entry st (k, v) ++ "," ++ u)%string ->
  wlp (attrs_round N ats)
      (fun x s' => x = inl (obj_set ats k v) /\ looking s' u /\
                   console s' = console s) s.
Proof using Hpad.
  intros Hk Hv H2. unfold attrs_round.
  unfold print_entry in H2. cbn [fst snd] in H2. rewrite !append_assoc_s in H2.
  set (TAIL := ("," ++ u)%string) in *.
  assert (Htail : one_of [","; ")"]%char (first_char TAIL) = true) by reflexivity.
  assert (Hmark : delim (first_char (print_opt_value st v ++ TAIL)%string) = true)
    by (destruct v; reflexivity).
  wlp_use (getAttr_reads N s (pad st) k (pad st) (print_opt_value st v ++ TAIL)%string
             Hpad Hk Hpad Hmark H2) as r s3 H3.
  destruct H3 as (-> & H3 & Hc3). cbv iota.
  wlp_use (eatblanks_stay N s3 _ (delim_not_blank _ Hmark) H3) as u0 s4 H4.
  destruct H4 as [H4 Hc4].
  wlp_use (parse_attr_value_reads N st Hpad s4 v TAIL Hv Htail H4) as r s5 H5.
  destruct H5 as (-> & H5 & Hc5).
  rewrite (looking_head _ _ H5). unfold TAIL in *.
  cbn [String.append first_char is_char]. cbn [Ascii.eqb Bool.eqb negb]. cbv iota.
  wlp_use next_rest as b5 s6 H6. destruct H6 as (H6 & Hc6 & _).
  cbn [String.append] in H5. rewrite (looking_rest _ _ _ H5) in H6.
  repeat split; [apply H6 | apply H6 | congruence].
Qed.

(** The value of an entry at which [parse] stops. *)
Lemma parse_attr_value_ends s v bad :
  (forall x, v = Some x -> writable st x) ->
  match v with
  | None => is_char "=" (first_char bad) = false
  | Some x =>
      match quoting st x with
      | Bare => bad = EmptyString
      | _ => is_blank (first_char bad) = false
      end
  end ->
  looking s (print_opt_value st v ++ bad)%string ->
  wlp (parse_attr_value N) (fun _ s' => looking s' bad /\ console s' = console s) s.
Proof using Hpad.
  intros Hv Hb Hs. unfold parse_attr_value. wlp_simple. rewrite (looking_head _ _ Hs).
  destruct v as [v|]; cbn [print_opt_value String.append first_char].
  - cbn [is_char]. cbn.
    wlp_use next_rest as b s1 H1. destruct H1 as (H1 & Hc1 & _).
    rewrite (looking_rest _ _ _ Hs) in H1.
    rewrite !append_assoc_s in H1.
    specialize (Hv v eq_refl). unfold writable in Hv. unfold print_value in H1.
    destruct (quoting st v).
    + subst bad. rewrite append_empty_r in H1.
      destruct v as [|a v'].
      * cbn [String.append] in H1.
        wlp_use (eatblanks_looking N s1 (pad st ++ pad st)%string EmptyString) as u0 s2 H2;
          [ rewrite blanks_app, Hpad; reflexivity | reflexivity
          | rewrite append_empty_r; exact H1 | ].
        destruct H2 as [H2 Hc2].
        wlp_use (getValue_bare_end N s2 EmptyString EmptyString Hv) as r s3 H3;
          [reflexivity | reflexivity | exact H2 |].
        destruct H3 as (H3 & Hc3). split; [exact H3 | congruence].
      * wlp_use (eatblanks_looking N s1 (pad st) (String a v' ++ pad st)%string Hpad)
          as u0 s2 H2; [exact (trim_fixed_head _ (proj1 (proj2 Hv))) | exact H1 |].
        destruct H2 as [H2 Hc2].
        wlp_use (getValue_bare_end N s2 (String a v') (pad st) Hv Hpad) as r s3 H3;
          [discriminate | exact H2 |].
        destruct H3 as (H3 & Hc3). split; [exact H3 | congruence].
    + cbn [String.append] in H1. rewrite append_assoc_s in H1. cbn [String.append] in H1.
      wlp_use (eatblanks_looking N s1 (pad st)
                 (String squote (v ++ String squote (pad st ++ bad)))%string Hpad)
        as u0 s2 H2; [reflexivity | exact H1 |].
      destruct H2 as [H2 Hc2].
      wlp_use (getValue_quoted N s2 squote v (pad st) bad) as r s3 H3;
        [right; reflexivity | exact Hv | exact Hpad | exact Hb | exact H2 |].
      destruct H3 as (Hr & H3 & Hc3). split; [exact H3 | congruence].
    + cbn [String.append] in H1. rewrite append_assoc_s in H1. cbn [String.append] in H1.
      wlp_use (eatblanks_looking N s1 (pad st)
                 (String dquote (v ++ String dquote (pad st ++ bad)))%string Hpad)
        as u0 s2 H2; [reflexivity | exact H1 |].
      destruct H2 as [H2 Hc2].
      wlp_use (getValue_quoted N s2 dquote v (pad st) bad) as r s3 H3;
        [left; reflexivity | exact Hv | exact Hpad | exact Hb | exact H2 |].
      destruct H3 as (Hr & H3 & Hc3). split; [exact H3 | congruence].
  - rewrite Hb. wlp_simple. split; [exact Hs | reflexivity].
Qed.

(** An entry that neither [,] nor [)] follows. *)
Lemma attrs_round_stops ats s k v bad :
  is_identifier k = true -> (forall x, v = Some x -> writable st x) ->
  ends_entry st v bad ->
  looking s (print_entry st (k, v) ++ bad)%string ->
  wlp (attrs_round N ats)
      (fun x s' => x = inr None /\ looking s' bad /\
                   console s' = console s
                                 ++ [mkSyntaxError (_pos s') (first_char bad)
                                                   "unexpected character"]) s.
Proof using Hpad.
  intros Hk Hv [Hsep He] H2. unfold attrs_round.
  unfold print_entry in H2. cbn [fst snd] in H2. rewrite !append_assoc_s in H2.
  assert (Hmark : delim (first_char (print_opt_value st v ++ bad)%string) = true)
    by (destruct v; [reflexivity | apply He]).
  wlp_use (getAttr_reads N s (pad st) k (pad st) (print_opt_value st v ++ bad)%string
             Hpad Hk Hpad Hmark H2) as r s3 H3.
  destruct H3 as (-> & H3 & Hc3). cbv iota.
  wlp_use (eatblanks_stay N s3 _ (delim_not_blank _ Hmark) H3) as u0 s4 H4.
  destruct H4 as [H4 Hc4].
  wlp_use (parse_attr_value_ends s4 v bad Hv) as r s5 H5;
    [destruct v; [exact He | apply He] | exact H4 |].
  destruct H5 as (H5 & Hc5).
  rewrite (looking_head _ _ H5).
  assert (Hp : is_char ")" (first_char bad) = false /\ is_char "," (first_char bad) = false).
  { destruct (first_char bad) as [c|]; [|split; reflexivity].
    cbn [one_of existsb] in Hsep. cbn [is_char].
    apply orb_false_iff in Hsep. destruct Hsep as [Hs1 Hsep].
    apply orb_false_iff in Hsep. destruct Hsep as [Hs2 _]. split; assumption. }
  destruct Hp as [Hp1 Hp2]. rewrite Hp1, Hp2. cbn [negb]. wlp_simple.
  split; [reflexivity|]. apply (error_here s5 bad _ (console s) H5). congruence.
Qed.

(** An entry whose value starts with a quote that nothing closes. *)
Lemma attrs_round_unclosed ats s k w q body :
  is_identifier k = true -> blanks w = true -> q = dquote \/ q = squote ->
  closes (Some q) (Some q) body = false ->
  looking s (pad st ++ k ++ pad st ++ "=" ++ w ++ String q body)%string ->
  wlp (attrs_round N ats)
      (fun x s' => x = inr None /\ looking s' EmptyString /\
                   exists p p', console s' = console s
                                              ++ [mkSyntaxError p None "unclosed quote";
                                                  mkSyntaxError p' None
                                                                "unexpected character"]) s.
Proof using Hpad.
  intros Hk Hw Hq Hcl H2. unfold attrs_round.
  wlp_use (getAttr_reads N s (pad st) k (pad st) ("=" ++ w ++ String q body)%string
             Hpad Hk Hpad eq_refl H2) as r s3 H3.
  destruct H3 as (-> & H3 & Hc3). cbv iota.
  wlp_use (eatblanks_stay N s3 ("=" ++ w ++ String q body)%string eq_refl H3) as u0 s4 H4.
  destruct H4 as [H4 Hc4].
  unfold parse_attr_value. wlp_simple. rewrite (looking_head _ _ H4).
  cbn [String.append first_char is_char]. cbn [Ascii.eqb Bool.eqb]. cbv iota.
  wlp_use next_rest as b s5 H5. destruct H5 as (H5 & Hc5 & _).
  cbn [String.append] in H4. rewrite (looking_rest _ _ _ H4) in H5.
  assert (Hqb : is_blank (first_char (String q body)) = false)
    by (destruct Hq as [-> | ->]; reflexivity).
  wlp_use (eatblanks_looking N s5 w (String q body) Hw Hqb H5) as u1 s6 H6.
  destruct H6 as [H6 Hc6].
  wlp_use (getValue_to_end N s6 q body Hq Hcl H6) as r s7 H7.
  destruct H7 as (H7 & p & Hc7).
  rewrite (looking_head _ _ H7). cbn [first_char is_char negb]. wlp_simple.
  split; [reflexivity|]. split; [exact H7|].
  exists p, (_pos s7). cbn [console].
  rewrite Hc7, Hc6, Hc5, Hc4, Hc3, (proj1 H7), <- app_assoc. reflexivity.
Qed.

(** The entries that a [,] follows are read silently; the console is
    that of the round which stops. *)
Lemma parse_attrs_before s a tail (Q : MicroParser -> Prop) :
  Forall (fun k => is_identifier k = true) (obj_keys a) ->
  (forall k v, In (k, Some v) a -> writable st v) ->
  (forall ats s2,
     looking s2 tail -> console s2 = console s ->
     wlp (attrs_round N ats)
         (fun x s' => x = inr None /\ Q s') s2) ->
  looking s ("(" ++ print_entries_before st a ++ tail)%string ->
  wlp (parse_attrs N) (fun r s' => r = None /\ Q s') s.
Proof using Hpad.
  intros Hkeys Hvals Hlast Hs. rewrite parse_attrs_rounds.
  wlp_simple. rewrite (looking_head _ _ Hs).
  cbn [String.append first_char is_char]. cbn [Ascii.eqb Bool.eqb]. cbv iota.
  wlp_use next_rest as b s1 H1. destruct H1 as (H1 & Hc1 & _).
  cbn [String.append] in Hs. rewrite (looking_rest _ _ _ Hs) in H1.
  eapply wlp_conseq.
  - apply wlp_loop with
      (I := fun (ats : obj (option string)) s2 => exists todo,
                Forall (fun k => is_identifier k = true) (obj_keys todo) /\
                (forall k v, In (k, Some v) todo -> writable st v) /\
                looking s2 (print_entries_before st todo ++ tail)%string /\
                console s2 = console s)
      (Q := fun (r : option (obj (option string))) s2 => r = None /\ Q s2).
    + intros ats s2 (todo & Hk & Hv & H2 & Hc2).
      destruct todo as [|[k v] todo'].
      * cbn [print_entries_before fold_right String.append] in H2.
        eapply wlp_conseq; [apply (Hlast ats s2 H2 Hc2)|].
        cbv beta. intros x s3 [-> HQ]. auto.
      * cbn [print_entries_before fold_right] in H2.
        fold (print_entries_before st todo') in H2. rewrite !append_assoc_s in H2.
        inversion Hk as [|? ? Hk0 Hk']; subst.
        eapply wlp_conseq;
          [apply (attrs_round_reads ats s2 k v (print_entries_before st todo' ++ tail)%string Hk0);
             [|exact H2];
           intros x ->; apply (Hv k x); left; reflexivity|].
        cbv beta. intros x s3 (-> & H3 & Hc3).
        exists todo'. repeat split.
        -- exact Hk'.
        -- intros k1 v1 Hin. apply (Hv k1 v1). right. exact Hin.
        -- apply H3.
        -- apply H3.
        -- congruence.
    + exists a. repeat split; [exact Hkeys | exact Hvals | apply H1 | apply H1 | congruence].
  - cbv beta. intros r s2 (-> & H2). cbv iota. wlp_simple. auto.
Qed.

(** A segment that stops between its parentheses. *)
Lemma parse_segment_attrs results s t i cs a tail (Q : MicroParser -> Prop) :
  printable st (mkDescriptor t i cs a) ->
  (forall ats s2,
     looking s2 tail -> console s2 = console s ->
     wlp (attrs_round N ats) (fun x s' => x = inr None /\ Q s') s2) ->
  rest s = (print_opening st (UpToAttr t i cs a) ++ tail)%string ->
  wlp (parse_segment N results) (fun x s' => x = inr None /\ Q s') s.
Proof using Hpad.
  intros [(Htag & Hid & Hcls & Hkeys) Hvals] Hlast Hr.
  cbn [tag id classes attrs] in *.
  unfold parse_segment.
  wlp_use next_rest as b s1 H1. destruct H1 as (H1 & Hc1 & _).
  rewrite Hr in H1. unfold print_opening in H1. cbn [written tag] in H1.
  rewrite !append_assoc_s in H1.
  set (u3 := ("(" ++ print_entries_before st a ++ tail)%string) in *.
  set (u2 := (print_classes st cs ++ u3)%string) in *.
  assert (Hh3 : among ["("; ">"]%char (first_char u3) = true) by reflexivity.
  pose proof (head_classes st cs u3 Hh3) as Hh2. fold u2 in Hh2.
  pose proof (head_id st i u2 Hh2) as Hh1.
  wlp_use (getAttr_tag N st Hpad s1 t _ Htag (among_4 _ Hh1) H1) as r s2 H2.
  destruct H2 as (_ & H2 & Hc2).
  wlp_use (parse_id_reads N st Hpad s2 i u2 Hid Hh2 H2) as r2 s3 H3.
  destruct H3 as (-> & H3 & Hc3). cbv iota.
  wlp_use (parse_classes_reads N st Hpad s3 cs u3 Hcls Hh3 H3) as r3 s4 H4.
  destruct H4 as (-> & H4 & Hc4). cbv iota.
  wlp_use (parse_attrs_before s4 a tail Q Hkeys Hvals) as r4 s5 H5; [|exact H4|].
  { intros ats s' Hs' Hc'. apply (Hlast ats s' Hs'). congruence. }
  destruct H5 as (-> & H5). cbv iota. wlp_simple. auto.
Qed.

End Entries.

Section Due.

Variable N : nat.
Variable st : style.
Hypothesis Hpad : blanks (pad st) = true.

Variables w bad : string.
Hypothesis Hw : blanks w = true.
Hypothesis Hnb : is_blank (first_char bad) = false.
Hypothesis Hnl : char_in is_letter (first_char bad) = false.

(** The identifier after [#] is missing. *)
Lemma parse_id_due s :
  looking s ("#" ++ w ++ bad)%string ->
  wlp (parse_id N)
      (fun r s' => r = None /\ looking s' bad /\
                   console s' = console s
                                 ++ [mkSyntaxError (_pos s') (first_char bad) "invalid ID"]) s.
Proof using Hw Hnb Hnl.
  intros Hs. unfold parse_id. wlp_simple. rewrite (looking_head _ _ Hs).
  cbn [String.append first_char is_char]. cbn [Ascii.eqb Bool.eqb]. cbv iota.
  wlp_use next_rest as b s1 H1. destruct H1 as (H1 & Hc1 & _).
  cbn [String.append] in Hs. rewrite (looking_rest _ _ _ Hs) in H1.
  wlp_use (getAttr_null N s1 w bad Hw Hnb Hnl H1) as r s2 H2.
  destruct H2 as (-> & H2 & Hc2). cbv iota. wlp_simple.
  split; [reflexivity|]. apply (error_here s2 bad _ (console s) H2). congruence.
Qed.

(** The name of a class is missing after the last [.]. *)
Lemma parse_classes_due s cs :
  Forall (fun c => is_identifier c = true) cs ->
  looking s (print_classes st cs ++ "." ++ w ++ bad)%string ->
  wlp (parse_classes N)
      (fun r s' => r = None /\ looking s' bad /\
                   console s' = console s
                                 ++ [mkSyntaxError (_pos s') (first_char bad)
                                                   "unexpected class"]) s.
Proof using Hpad Hw Hnb Hnl.
  intros Hcs Hs. unfold parse_classes.
  apply wlp_loop with
    (I := fun (classes : list string) s1 => exists todo,
              Forall (fun c => is_identifier c = true) todo /\
              looking s1 (print_classes st todo ++ "." ++ w ++ bad)%string /\
              console s1 = console s);
    [|exists cs; auto].
  intros classes s1 (todo & Htodo & H1 & Hc1). wlp_simple.
  rewrite (looking_head _ _ H1).
  destruct todo as [|c todo']; cbn [print_classes fold_right String.append first_char].
  - cbn [is_char]. cbn [Ascii.eqb Bool.eqb]. cbv iota.
    wlp_use next_rest as b s2 H2. destruct H2 as (H2 & Hc2 & _).
    cbn [print_classes fold_right String.append] in H1.
    rewrite (looking_rest _ _ _ H1) in H2.
    wlp_use (getAttr_null N s2 w bad Hw Hnb Hnl H2) as r s3 H3.
    destruct H3 as (-> & H3 & Hc3). cbv iota. wlp_simple.
    split; [reflexivity|]. apply (error_here s3 bad _ (console s) H3). congruence.
  - cbn [is_char]. cbn [Ascii.eqb Bool.eqb]. cbv iota.
    wlp_use next_rest as b s2 H2. destruct H2 as (H2 & Hc2 & _).
    cbn [print_classes fold_right String.append] in H1.
    rewrite (looking_rest _ _ _ H1) in H2.
    fold (print_classes st todo') in H2.
    inversion Htodo as [|? ? Hc' Htodo']; subst.
    assert (Hm' : delim (first_char (print_classes st todo' ++ "." ++ w ++ bad)%string)
                  = true) by (destruct todo'; reflexivity).
    rewrite !append_assoc_s in H2.
    wlp_use (getAttr_reads N s2 (pad st) c (pad st) _ Hpad Hc' Hpad Hm' H2) as r s3 H3.
    destruct H3 as (-> & H3 & Hc3). cbv iota. wlp_simple.
    exists todo'. repeat split; [exact Htodo' | apply H3 | apply H3 | congruence].
Qed.

(** The name of an attribute is missing after the [(] or the last
    [,]. *)
Lemma attrs_round_due ats s :
  looking s (w ++ bad)%string ->
  wlp (attrs_round N ats)
      (fun x s' => x = inr None /\ looking s' bad /\
                   console s' = console s
                                 ++ [mkSyntaxError (_pos s') (first_char bad)
                                                   "unexpected attribute"]) s.
Proof using Hw Hnb Hnl.
  intros Hs. unfold attrs_round.
  wlp_use (getAttr_null N s w bad Hw Hnb Hnl Hs) as r s3 H3.
  destruct H3 as (-> & H3 & Hc3). cbv iota. wlp_simple.
  split; [reflexivity|]. apply (error_here s3 bad _ (console s) H3). congruence.
Qed.

(** A segment that stops where a name is due. *)
Lemma parse_segment_due results s o :
  printable st (written o) ->
  rest s = (print_opening st o ++ w ++ bad)%string ->
  wlp (parse_segment N results)
      (fun x s' => x = inr None /\ looking s' bad /\
                   console s' = console s
                                 ++ [mkSyntaxError (_pos s') (first_char bad)
                                                   (reason_due o)]) s.
Proof using Hpad Hw Hnb Hnl.
  intros Ho Hr.
  destruct o as [t|t i cs|t i cs a];
    [| |eapply wlp_conseq;
        [apply (parse_segment_attrs N st Hpad results s t i cs a (w ++ bad)%string
                  (fun s' => looking s' bad /\
                             console s' = console s
                                           ++ [mkSyntaxError (_pos s') (first_char bad)
                                                             "unexpected attribute"])
                  Ho); [|exact Hr];
         intros ats s2 H2 Hc2;
         eapply wlp_conseq; [apply (attrs_round_due ats s2 H2)|];
         cbv beta; intros x s3 (-> & H3 & Hc3); rewrite Hc2 in Hc3; auto
        |cbv beta; intros x s2 (-> & H2 & Hc2); auto]];
    destruct Ho as [(Htag & Hid & Hcls & Hkeys) Hvals];
    unfold parse_segment;
    (wlp_use next_rest as b s1 H1); destruct H1 as (H1 & Hc1 & _);
    rewrite Hr in H1; unfold print_opening in H1; rewrite !append_assoc_s in H1;
    cbn [written tag id classes attrs] in *.
  - wlp_use (getAttr_tag N st Hpad s1 t ("#" ++ w ++ bad)%string Htag eq_refl H1) as r s2 H2.
    destruct H2 as (_ & H2 & Hc2).
    wlp_use (parse_id_due s2 H2) as r2 s3 H3.
    destruct H3 as (-> & H3 & Hc3). cbv iota. wlp_simple.
    repeat split; [apply H3 | apply H3 | cbn [reason_due]; congruence].
  - rewrite ?append_assoc_s in H1.
    set (u2 := (print_classes st cs ++ "." ++ w ++ bad)%string) in *.
    assert (Hh2 : among ["."; "("; ">"]%char (first_char u2) = true)
      by (unfold u2; destruct cs; reflexivity).
    pose proof (head_id st i u2 Hh2) as Hh1.
    wlp_use (getAttr_tag N st Hpad s1 t _ Htag (among_4 _ Hh1) H1) as r s2 H2.
    destruct H2 as (_ & H2 & Hc2).
    wlp_use (parse_id_reads N st Hpad s2 i u2 Hid Hh2 H2) as r2 s3 H3.
    destruct H3 as (-> & H3 & Hc3). cbv iota.
    wlp_use (parse_classes_due s3 cs Hcls H3) as r3 s4 H4.
    destruct H4 as (-> & H4 & Hc4). cbv iota. wlp_simple.
    repeat split; [apply H4 | apply H4 | cbn [reason_due]; congruence].
Qed.

End Due.

Section Before.

Variable N : nat.
Variable st : style.
Hypothesis Hpad : blanks (pad st) = true.

(** The segments before the last are read silently; the result and the
    console are those of the last round. *)
Lemma parse_loop_before n chain tail s0
      (Q : option (list descriptor) -> MicroParser -> Prop) :
  Forall (printable st) chain ->
  (forall results s,
     rest s = tail -> console s = console s0 ->
     wlp (parse_segment N results)
         (fun x s' => match x with inl _ => False | inr r => Q r s' end) s) ->
  rest s0 = (print_before st chain ++ tail)%string ->
  wlp (loop n (parse_segment N) []) Q s0.
Proof using Hpad.
  intros Hall Hlast Hr.
  apply wlp_loop with
    (I := fun (results : list descriptor) s1 => exists todo,
              Forall (printable st) todo /\
              rest s1 = (print_before st todo ++ tail)%string /\
              console s1 = console s0);
    [|exists chain; auto].
  intros results s1 (todo & Htodo & H1 & Hc1).
  destruct todo as [|d todo'].
  - cbn [print_before fold_right String.append] in H1.
    eapply wlp_conseq; [apply (Hlast results s1 H1 Hc1)|].
    cbv beta. intros [x|r] s2 H; [contradiction | exact H].
  - cbn [print_before fold_right] in H1. fold (print_before st todo') in H1.
    rewrite !append_assoc_s in H1.
    inversion Htodo as [|? ? Hd Htodo']; subst.
    eapply wlp_conseq;
      [apply (parse_segment_reads N st Hpad results s1 d _ Hd (eq_refl : among [">"]%char
                (first_char (">" ++ print_before st todo' ++ tail)%string) = true) H1)|].
    cbv beta. intros x s2 [H2 Hx].
    cbn [String.append first_char Ascii.eqb Bool.eqb] in Hx. cbv iota in Hx.
    destruct Hx as [-> Hc2].
    exists todo'. repeat split; [exact Htodo' | apply H2 | congruence].
Qed.

End Before.

(** The outcome of [parse] from a property of its loop. *)
Lemma parse_from_loop txt (Q : option (list descriptor) -> MicroParser -> Prop) :
  (forall N, wlp (loop N (parse_segment N) []) Q (_start txt)) ->
  exists r s, parse txt = Some (r, console s) /\ Q r s /\ within txt s.
Proof.
  intros H.
  destruct (parse_with_total (2 * String.length txt + 2) txt) as [[r log] E]; [lia|].
  unfold parse. rewrite E. unfold parse_with, parse_loop in E.
  set (N := 2 * String.length txt + 2) in *.
  destruct (loop N (parse_segment N) [] (_start txt)) as [[x s]|] eqn:E1; [|discriminate].
  injection E as <- <-.
  exists x, s. split; [reflexivity|]. split; [exact (H N _ _ E1)|].
  refine (parse_loop_placed N txt N [] (_start txt) _ x s E1).
  unfold within. cbn [_start _txt _pos console]. repeat split; [lia | constructor].
Qed.

(** X18. Where a name is due and there is none, [parse] gives up at
    once.  After the [#] of an identifier, after the [.] of a class, and
    between the parentheses after the [(] or after the [,] that follows
    an entry, blanks are skipped, and then a character that is no letter
    (a digit, a mark, the [)] of an empty or comma-ended list) or the end
    of the input makes [parse] return [null] and write one line: "invalid
    ID", "unexpected class" or "unexpected attribute", with that
    character and its position, counted from one, or with [null] and the
    length of the input at the end of the input.  What was read before,
    whole segments included, leaves no other line, and what comes after
    is not looked at. *)
Theorem name_due (st : style) (chain : list descriptor) (o : opening)
        (w bad : string) :
  blanks (pad st) = true ->
  Forall (printable st) chain ->
  printable st (written o) ->
  blanks w = true ->
  is_blank (first_char bad) = false ->
  char_in is_letter (first_char bad) = false ->
  parse (print_before st chain ++ print_opening st o ++ w ++ bad)
  = Some (None,
          [mkSyntaxError
             (String.length (print_before st chain ++ print_opening st o ++ w ++ bad)
              - String.length (but_first bad))
             (first_char bad) (reason_due o)]).
Proof.
  intros Hpad Hall Ho Hw Hnb Hnl.
  set (txt := (print_before st chain ++ print_opening st o ++ w ++ bad)%string).
  destruct (parse_from_loop txt
              (fun r s' => r = None /\ looking s' bad /\
                           console s' = [mkSyntaxError (_pos s') (first_char bad)
                                                       (reason_due o)]))
    as (r & s & E & (-> & Hl & Hc) & Hin).
  - intros N. apply (parse_loop_before N st Hpad N chain (print_opening st o ++ w ++ bad));
      [exact Hall | | apply drop_0].
    intros results s1 Hr Hc1.
    eapply wlp_conseq;
      [apply (parse_segment_due N st Hpad w bad Hw Hnb Hnl results s1 o Ho Hr)|].
    cbv beta. intros x s2 (-> & H2 & Hc2). rewrite Hc1 in Hc2.
    repeat split; [apply H2 | apply H2 | exact Hc2].
  - rewrite E, Hc, (looking_pos txt s bad Hin Hl). reflexivity.
Qed.

Lemma name_due_witness :
  parse "ul>li.item. 9"
  = Some (None, [mkSyntaxError 13 (Some "9"%char) "unexpected class"]).
Proof.
  change (parse (print_before (mkStyle EmptyString false (fun _ => Double))
                              [mkDescriptor "ul" None [] []]
                 ++ print_opening (mkStyle EmptyString false (fun _ => Double))
                                  (UpToClass "li" None ["item"])
                 ++ " " ++ "9")
          = Some (None,
                  [mkSyntaxError
                     (String.length
                        (print_before (mkStyle EmptyString false (fun _ => Double))
                                      [mkDescriptor "ul" None [] []]
                         ++ print_opening (mkStyle EmptyString false (fun _ => Double))
                                          (UpToClass "li" None ["item"])
                         ++ " " ++ "9")
                      - String.length (but_first "9"))
                     (first_char "9")
                     (reason_due (UpToClass "li" None ["item"]))])).
  apply (name_due (mkStyle EmptyString false (fun _ => Double))
                  [mkDescriptor "ul" None [] []]
                  (UpToClass "li" None ["item"]) " " "9").
  - reflexivity.
  - constructor; [|constructor].
    split;
      [ unfold well_formed; cbn [tag id classes attrs written];
        split; [reflexivity|];
        split; [intros i Hi; first [discriminate Hi | injection Hi as <-; reflexivity]|];
        split; repeat constructor
      | intros k v [] ].
  - split;
    [ unfold well_formed; cbn [tag id classes attrs written];
      split; [reflexivity|];
      split; [intros i Hi; first [discriminate Hi | injection Hi as <-; reflexivity]|];
      split; repeat constructor
    | intros k v [] ].
  - reflexivity.
  - reflexivity.
  - reflexivity.
Defined.

(** X19. A character that cannot go on after a whole segment makes
    [parse] give up.  After segments read silently, a character that is
    no blank, no character of a name and none of [#], [.], [(] and [>]
    makes [parse] return [null] and write the one line "expected > or
    EOF", with that character and its position, counted from one; what
    comes after it is not looked at. *)
Theorem stray_character (st : style) (chain : list descriptor) (d : descriptor)
        (c : ascii) (r : string) :
  blanks (pad st) = true ->
  Forall (printable st) chain ->
  printable st d ->
  stray c = true ->
  parse (print_before st chain ++ print_segment st d ++ String c r)
  = Some (None,
          [mkSyntaxError (S (String.length (print_before st chain ++ print_segment st d)))
                         (Some c) "expected > or EOF"]).
Proof.
  intros Hpad Hall Hd Hc.
  set (txt := (print_before st chain ++ print_segment st d ++ String c r)%string).
  destruct (parse_from_loop txt
              (fun x s' => x = None /\ looking s' (String c r) /\
                           console s' = [mkSyntaxError (_pos s') (Some c)
                                                       "expected > or EOF"]))
    as (x & s & E & (-> & Hl & Hcon) & Hin).
  - intros N. apply (parse_loop_before N st Hpad N chain (print_segment st d ++ String c r));
      [exact Hall | | apply drop_0].
    intros results s1 Hr Hc1.
    eapply wlp_conseq;
      [apply (parse_segment_reads N st Hpad results s1 d (String c r) Hd
                (stray_among c Hc) Hr)|].
    cbv beta. intros y s2 [H2 Hy]. cbn [first_char] in Hy.
    rewrite (stray_not_gt c Hc) in Hy. destruct Hy as [-> Hc2]. rewrite Hc1 in Hc2.
    repeat split; [apply H2 | apply H2 | exact Hc2].
  - rewrite E, Hcon, (looking_pos txt s (String c r) Hin Hl). cbn [but_first].
    repeat f_equal. unfold txt. rewrite <- append_assoc_s, length_append_s.
    cbn [String.length]. lia.
Qed.

Lemma stray_character_witness :
  parse "a.b>i#x=1"
  = Some (None, [mkSyntaxError 8 (Some "="%char) "expected > or EOF"]).
Proof.
  change (parse (print_before (mkStyle EmptyString false (fun _ => Double))
                              [mkDescriptor "a" None ["b"] []]
                 ++ print_segment (mkStyle EmptyString false (fun _ => Double))
                                  (mkDescriptor "i" (Some "x") [] [])
                 ++ String "=" "1")
          = Some (None,
                  [mkSyntaxError
                     (S (String.length
                           (print_before (mkStyle EmptyString false (fun _ => Double))
                                         [mkDescriptor "a" None ["b"] []]
                            ++ print_segment (mkStyle EmptyString false (fun _ => Double))
                                             (mkDescriptor "i" (Some "x") [] []))))
                     (Some "="%char) "expected > or EOF"])).
  apply (stray_character (mkStyle EmptyString false (fun _ => Double))
                         [mkDescriptor "a" None ["b"] []]
                         (mkDescriptor "i" (Some "x") [] []) "=" "1").
  - reflexivity.
  - constructor; [|constructor].
    split;
      [ unfold well_formed; cbn [tag id classes attrs written];
        split; [reflexivity|];
        split; [intros i Hi; first [discriminate Hi | injection Hi as <-; reflexivity]|];
        split; repeat constructor
      | intros k v [] ].
  - split;
    [ unfold well_formed; cbn [tag id classes attrs written];
      split; [reflexivity|];
      split; [intros i Hi; first [discriminate Hi | injection Hi as <-; reflexivity]|];
      split; repeat constructor
    | intros k v [] ].
  - reflexivity.
Defined.

Lemma printable_snoc st t i cs a k v :
  printable st (mkDescriptor t i cs (a ++ [(k, v)])) ->
  printable st (mkDescriptor t i cs a) /\ is_identifier k = true /\
  (forall x, v = Some x -> writable st x).
Proof.
  intros [(Htag & Hid & Hcls & Hkeys) Hvals]. cbn [tag id classes attrs] in *.
  unfold obj_keys in Hkeys. rewrite map_app in Hkeys. apply Forall_app in Hkeys.
  destruct Hkeys as [Hk1 Hk2]. repeat split; cbn [tag id classes attrs]; try assumption.
  - intros k1 v1 Hin. apply (Hvals k1 v1). apply in_or_app. left. exact Hin.
  - inversion Hk2; assumption.
  - intros x ->. apply (Hvals k x). apply in_or_app. right. left. reflexivity.
Qed.

(** X20. Between the parentheses, an entry is followed by [,] or by
    [)]; anything else makes [parse] give up.  After segments and
    entries read silently, an entry that is followed by another
    character, or by the end of the input as in a definition whose [)]
    is missing, makes [parse] return [null] and write the one line
    "unexpected character", with that character and its position,
    counted from one, or with [null] and the length of the input at the
    end of the input.  The character is one that the entry
    does not take in: after a name without a value no blank, no
    character of a name and no [=]; after a closing quote no blank;
    after a bare word only the end of the input, since a bare word goes
    on up to a [,], a [)], a space or a tab. *)
Theorem unexpected_character (st : style) (chain : list descriptor)
        (t : string) (i : option string) (cs : list string) (a : obj (option string))
        (k : string) (v : option string) (bad : string) :
  blanks (pad st) = true ->
  Forall (printable st) chain ->
  printable st (mkDescriptor t i cs (a ++ [(k, v)])) ->
  ends_entry st v bad ->
  parse (print_before st chain ++ print_opening st (UpToAttr t i cs a)
         ++ print_entry st (k, v) ++ bad)
  = Some (None,
          [mkSyntaxError
             (String.length (print_before st chain ++ print_opening st (UpToAttr t i cs a)
                             ++ print_entry st (k, v) ++ bad)
              - String.length (but_first bad))
             (first_char bad) "unexpected character"]).
Proof.
  intros Hpad Hall Hd He.
  destruct (printable_snoc st t i cs a k v Hd) as (Hd' & Hk & Hv).
  set (txt := (print_before st chain ++ print_opening st (UpToAttr t i cs a)
               ++ print_entry st (k, v) ++ bad)%string).
  destruct (parse_from_loop txt
              (fun r s' => r = None /\ looking s' bad /\
                           console s' = [mkSyntaxError (_pos s') (first_char bad)
                                                       "unexpected character"]))
    as (r & s & E & (-> & Hl & Hc) & Hin).
  - intros N.
    apply (parse_loop_before N st Hpad N chain
             (print_opening st (UpToAttr t i cs a) ++ print_entry st (k, v) ++ bad));
      [exact Hall | | apply drop_0].
    intros results s1 Hr Hc1.
    eapply wlp_conseq;
      [apply (parse_segment_attrs N st Hpad results s1 t i cs a
                (print_entry st (k, v) ++ bad)%string
                (fun s' => looking s' bad /\
                           console s' = [mkSyntaxError (_pos s') (first_char bad)
                                                       "unexpected character"])
                Hd'); [|exact Hr]|].
    + intros ats s2 H2 Hc2.
      eapply wlp_conseq; [apply (attrs_round_stops N st Hpad ats s2 k v bad Hk Hv He H2)|].
      cbv beta. intros x s3 (-> & H3 & Hc3). rewrite Hc2, Hc1 in Hc3. auto.
    + cbv beta. intros x s2 (-> & H2). split; [reflexivity | exact H2].
  - rewrite E, Hc, (looking_pos txt s bad Hin Hl). reflexivity.
Qed.

Lemma unexpected_character_witness :
  parse "ul>a(id=n,href=x"
  = Some (None, [mkSyntaxError 16 None "unexpected character"]).
Proof.
  change (parse (print_before (mkStyle EmptyString false (fun _ => Bare))
                              [mkDescriptor "ul" None [] []]
                 ++ print_opening (mkStyle EmptyString false (fun _ => Bare))
                                  (UpToAttr "a" None [] [("id", Some "n")])
                 ++ print_entry (mkStyle EmptyString false (fun _ => Bare))
                                ("href", Some "x")
                 ++ EmptyString)
          = Some (None,
                  [mkSyntaxError
                     (String.length
                        (print_before (mkStyle EmptyString false (fun _ => Bare))
                                      [mkDescriptor "ul" None [] []]
                         ++ print_opening (mkStyle EmptyString false (fun _ => Bare))
                                          (UpToAttr "a" None [] [("id", Some "n")])
                         ++ print_entry (mkStyle EmptyString false (fun _ => Bare))
                                        ("href", Some "x")
                         ++ EmptyString)
                      - String.length (but_first EmptyString))
                     (first_char EmptyString) "unexpected character"])).
  apply (unexpected_character (mkStyle EmptyString false (fun _ => Bare))
                              [mkDescriptor "ul" None [] []]
                              "a" None [] [("id", Some "n")] "href" (Some "x") EmptyString).
  - reflexivity.
  - constructor; [|constructor].
    split;
      [ unfold well_formed; cbn [tag id classes attrs];
        split; [reflexivity|];
        split; [intros i Hi; discriminate Hi|];
        split; repeat constructor
      | intros k v [] ].
  - split.
    + unfold well_formed. cbn [tag id classes attrs app].
      split; [reflexivity|].
      split; [intros i Hi; discriminate Hi|].
      split; repeat constructor.
    + intros k v [H|[H|[]]]; inversion H; subst; unfold writable; cbn;
        repeat split; try reflexivity; discriminate.
  - split; reflexivity.
Defined.

(** X21. A quote that nothing closes takes in the rest of the
    definition.  After segments and entries read silently, an entry
    whose value starts with a single or double quote, where no quote of
    that kind follows but after a backslash, makes [parse] read to the
    end of the input, return [null] and write two lines, "unclosed
    quote" and then "unexpected character", both with [null] for the
    character and the length of the input for the position. *)
Theorem unclosed_quote (st : style) (chain : list descriptor)
        (t : string) (i : option string) (cs : list string) (a : obj (option string))
        (k w : string) (q : ascii) (body : string) :
  blanks (pad st) = true ->
  Forall (printable st) chain ->
  printable st (mkDescriptor t i cs a) ->
  is_identifier k = true ->
  blanks w = true ->
  q = dquote \/ q = squote ->
  closes (Some q) (Some q) body = false ->
  parse (print_before st chain ++ print_opening st (UpToAttr t i cs a)
         ++ pad st ++ k ++ pad st ++ "=" ++ w ++ String q body)
  = Some (None,
          [mkSyntaxError
             (String.length (print_before st chain ++ print_opening st (UpToAttr t i cs a)
                             ++ pad st ++ k ++ pad st ++ "=" ++ w ++ String q body))
             None "unclosed quote";
           mkSyntaxError
             (String.length (print_before st chain ++ print_opening st (UpToAttr t i cs a)
                             ++ pad st ++ k ++ pad st ++ "=" ++ w ++ String q body))
             None "unexpected character"]).
Proof.
  intros Hpad Hall Hd Hk Hw Hq Hcl.
  set (txt := (print_before st chain ++ print_opening st (UpToAttr t i cs a)
               ++ pad st ++ k ++ pad st ++ "=" ++ w ++ String q body)%string).
  destruct (parse_from_loop txt
              (fun r s' => r = None /\
                           exists p p',
                             console s' = [mkSyntaxError p None "unclosed quote";
                                           mkSyntaxError p' None "unexpected character"]))
    as (r & s & E & (-> & p & p' & Hc) & Hin).
  - intros N.
    apply (parse_loop_before N st Hpad N chain
             (print_opening st (UpToAttr t i cs a)
              ++ pad st ++ k ++ pad st ++ "=" ++ w ++ String q body));
      [exact Hall | | apply drop_0].
    intros results s1 Hr Hc1.
    eapply wlp_conseq;
      [apply (parse_segment_attrs N st Hpad results s1 t i cs a
                (pad st ++ k ++ pad st ++ "=" ++ w ++ String q body)%string
                (fun s' => exists p p',
                             console s' = [mkSyntaxError p None "unclosed quote";
                                           mkSyntaxError p' None "unexpected character"])
                Hd); [|exact Hr]|].
    + intros ats s2 H2 Hc2.
      eapply wlp_conseq;
        [apply (attrs_round_unclosed N st Hpad ats s2 k w q body Hk Hw Hq Hcl H2)|].
      cbv beta. intros x s3 (-> & _ & p & p' & Hc3). rewrite Hc2, Hc1 in Hc3.
      split; [reflexivity|]. exists p, p'. exact Hc3.
    + cbv beta. intros x s2 (-> & H2). split; [reflexivity | exact H2].
  - rewrite E, Hc. destruct Hin as (_ & _ & Hfit). rewrite Hc in Hfit.
    inversion Hfit as [|? ? [_ H1] Hfit']; subst.
    inversion Hfit' as [|? ? [_ H2] _]; subst.
    cbn [at_char near] in H1, H2. rewrite H1, H2. reflexivity.
Qed.

Lemma unclosed_quote_witness :
  parse "a(title='it"
  = Some (None, [mkSyntaxError 11 None "unclosed quote";
                 mkSyntaxError 11 None "unexpected character"]).
Proof.
  apply (unclosed_quote (mkStyle EmptyString false (fun _ => Bare)) []
                        "a" None [] [] "title" EmptyString squote "it").
  - reflexivity.
  - constructor.
  - split.
    + unfold well_formed. cbn [tag id classes attrs].
      split; [reflexivity|].
      split; [intros i Hi; discriminate Hi|].
      split; constructor.
    + intros k v [].
  - reflexivity.
  - reflexivity.
  - right. reflexivity.
  - reflexivity.
Defined.

(* ================================================================== *)
(** * What [parse] reports *)
(* ================================================================== *)

Lemma shaped_one s s' e :
  In (reason e) parse_reasons -> console s' = console s ++ [e] ->
  exists l, console s' = console s ++ l /\ log_shape l.
Proof. intros Hr H. exists [e]. split; [exact H|]. left. eauto. Qed.

Lemma shaped_trans {A} s s1 (r : option A) s' :
  console s1 = console s -> silent_or_shaped s1 r s' -> silent_or_shaped s r s'.
Proof. unfold silent_or_shaped. intros H. rewrite H. auto. Qed.

Section LogShape.

Variable N : nat.

Lemma parse_id_log s :
  wlp (parse_id N) (silent_or_shaped s) s.
Proof.
  unfold parse_id. wlp_simple.
  destruct (is_char "#" _); wlp_simple; [|reflexivity].
  wlp_next_step; wlp_use getAttr_console as i s1 H1;
    (destruct i; wlp_simple; [exact H1|]);
    (eapply shaped_one; [|simpl; rewrite H1; reflexivity]); simpl; tauto.
Qed.

Lemma parse_classes_log s :
  wlp (parse_classes N) (silent_or_shaped s) s.
Proof.
  unfold parse_classes.
  apply wlp_loop with (I := fun _ s1 => console s1 = console s); [|reflexivity].
  intros cls s1 H1. wlp_simple.
  destruct (is_char "." _); wlp_simple; [|exact H1].
  wlp_next_step; wlp_use getAttr_console as cl s2 H2;
    (destruct cl; wlp_simple; [simpl in *; congruence|]);
    (eapply shaped_one; [|simpl; rewrite H2; simpl; rewrite H1; reflexivity]);
    simpl; tauto.
Qed.

(** The loop over the attributes leaves with an attribute map only at a
    closing parenthesis, so that the check that follows the loop never
    fails. *)
Lemma parse_attrs_log s :
  wlp (parse_attrs N) (silent_or_shaped s) s.
Proof.
  unfold parse_attrs. wlp_simple.
  destruct (is_char "(" _); wlp_simple; [|reflexivity].
  assert (Hloop : forall s0, console s0 = console s ->
    wlp (loop N (fun attrs =>
           attr <- _getAttr N ;;
           match attr with
           | None => _syntaxError "unexpected attribute" ;;; ret (inr None)
           | Some a =>
               _eatblanks N ;;;
               value <- parse_attr_value N ;;
               let attrs := obj_set attrs a value in
               c <- get_c ;;
               if is_char ")" c then ret (inr (Some attrs))
               else if negb (is_char "," c) then
                 _syntaxError "unexpected character" ;;; ret (inr None)
               else _next ;;; ret (inl attrs)
           end) [])
        (fun r s' => silent_or_shaped s r s' /\
                     (r <> None -> is_char ")" (_c s') = true)) s0).
  { intros s0 H0.
    apply wlp_loop with (I := fun _ s1 => console s1 = console s); [|exact H0].
    intros ats s1 H1.
    wlp_use getAttr_console as a s2 H.
    destruct a as [a|]; wlp_simple.
    2:{ split; [|intros HH; contradiction].
        eapply shaped_one; [|simpl; rewrite H, H1; reflexivity]. simpl; tauto. }
    wlp_use eatblanks_console as u s3 H2. destruct H2 as [H2 _].
    wlp_use parse_attr_value_console as v s4 H3.
    destruct H3 as [H3|[[n H3] [Hc _]]].
    - destruct (is_char ")" (_c s4)) eqn:Ep; wlp_simple;
        [split; [unfold silent_or_shaped; congruence | intros _; exact Ep]|].
      destruct (negb (is_char "," (_c s4))); wlp_simple.
      + split; [|intros HH; contradiction].
        eapply shaped_one; [|simpl; rewrite H3, H2, H, H1; reflexivity]. simpl; tauto.
      + wlp_next_step; simpl; congruence.
    - rewrite Hc. simpl. wlp_simple.
      split; [|intros HH; contradiction].
      exists [mkSyntaxError n None "unclosed quote";
              mkSyntaxError (_pos s4) None "unexpected character"].
      split; [|right; eauto].
      simpl. rewrite H3, H2, H, H1, <- app_assoc, Hc. reflexivity. }
  wlp_next_step;
    (eapply wlp_conseq; [apply Hloop; reflexivity|];
     cbv beta; intros [ats|] s1 [H1 Hp]; wlp_simple; [|exact H1];
     rewrite Hp by discriminate; cbn [negb];
     wlp_next_step; exact H1).
Qed.

Lemma parse_segment_log results s :
  wlp (parse_segment N results)
      (fun x s' =>
         match x with
         | inl _ => console s' = console s
         | inr r => silent_or_shaped s r s'
         end) s.
Proof.
  unfold parse_segment.
  assert (Hrest : forall s0, console s0 = console s ->
    wlp (t <- _getAttr N ;;
         let tag := match t with None => "div" | Some t => t end in
         i <- parse_id N ;;
         match i with
         | None => ret (inr None)
         | Some id =>
             cs <- parse_classes N ;;
             match cs with
             | None => ret (inr None)
             | Some classes =>
                 ats <- parse_attrs N ;;
                 match ats with
                 | None => ret (inr None)
                 | Some attrs =>
                     _eatblanks N ;;;
                     let results := results ++ [mkDescriptor tag id classes attrs] in
                     c <- get_c ;;
                     match c with
                     | None => ret (inr (Some results))
                     | Some _ =>
                         if negb (is_char ">" c) then
                           _syntaxError "expected > or EOF" ;;; ret (inr None)
                         else ret (inl results)
                     end
                 end
             end
         end)
        (fun x s' =>
           match x with
           | inl _ => console s' = console s
           | inr r => silent_or_shaped s r s'
           end) s0).
  { intros s0 H0.
    wlp_use getAttr_console as t s1 H1.
    assert (E1 : console s1 = console s) by congruence.
    wlp_use parse_id_log as i s2 H2.
    destruct i as [i|]; wlp_simple;
      [|exact (shaped_trans s s1 None s2 E1 H2)].
    simpl in H2.
    assert (E2 : console s2 = console s) by congruence.
    wlp_use parse_classes_log as cs s3 H3.
    destruct cs as [cs|]; wlp_simple;
      [|exact (shaped_trans s s2 None s3 E2 H3)].
    simpl in H3.
    assert (E3 : console s3 = console s) by congruence.
    wlp_use parse_attrs_log as ats s4 H4.
    destruct ats as [ats|]; wlp_simple;
      [|exact (shaped_trans s s3 None s4 E3 H4)].
    simpl in H4.
    wlp_use eatblanks_console as u s5 H5. destruct H5 as [H5 _].
    assert (E4 : console s5 = console s) by congruence.
    destruct (_c s5); wlp_simple; [|exact E4].
    destruct (negb _); wlp_simple; [|congruence].
    eapply shaped_one; [|simpl; rewrite E4; reflexivity]. simpl; tauto. }
  apply wlp_bind, wlp_next; intros; apply Hrest; reflexivity.
Qed.

Lemma parse_loop_log n results s :
  wlp (loop n (parse_segment N) results) (silent_or_shaped s) s.
Proof.
  apply wlp_loop with (I := fun _ s1 => console s1 = console s); [|reflexivity].
  intros res s1 H1.
  eapply wlp_conseq; [apply parse_segment_log|].
  cbv beta. intros [res'|r] s2 H2; [congruence|].
  exact (shaped_trans s s1 r s2 H1 H2).
Qed.

End LogShape.

(** X2. What [parse] writes on the console.  A call that returns a
    chain writes nothing.  A call that returns [null] writes one line,
    whose reason is one of [invalid ID], [unexpected class],
    [unexpected attribute], [unexpected character] and
    [expected > or EOF], or it writes the line of an unclosed quote at
    the end of the input and then the line [unexpected character]
    there.  The reason [expected )] is never given: the check after the
    loop over the attributes cannot fail. *)
Theorem parse_log (txt : string) (r : option (list descriptor)) (log : list SyntaxError) :
  parse txt = Some (r, log) ->
  match r with
  | Some _ => log = []
  | None => log_shape log
  end
  /\ Forall (fun e => reason e <> "expected )") log.
Proof.
  unfold parse, parse_with, parse_loop.
  set (N := 2 * String.length txt + 2). intros E.
  destruct (loop N (parse_segment N) [] (_start txt)) as [[x s]|] eqn:E1; [|discriminate].
  injection E as <- <-.
  pose proof (parse_loop_log N N [] (_start txt) x s E1) as H.
  destruct x as [chain|]; simpl in H.
  - rewrite H. split; [reflexivity | constructor].
  - destruct H as (l & -> & Hl). split; [exact Hl|].
    destruct Hl as [(e & -> & He)|(n & m & ->)].
    + constructor; [|constructor]. intros Heq. rewrite Heq in He.
      simpl in He. intuition discriminate.
    + repeat constructor; simpl; discriminate.
Qed.

Lemma parse_log_witness :
  log_shape [mkSyntaxError 3 None "unexpected character"]
  /\ Forall (fun e => reason e <> "expected )")
            [mkSyntaxError 3 None "unexpected character"].
Proof.
  apply (parse_log "a(k" None [mkSyntaxError 3 None "unexpected character"]).
  vm_compute. reflexivity.
Defined.

(* ================================================================== *)
(** * The names in the descriptors that [parse] builds *)
(* ================================================================== *)

Section DistinctNames.

Variable N : nat.

Lemma parse_attrs_distinct s :
  wlp (parse_attrs N)
      (fun r _ => forall ats, r = Some ats -> NoDup (obj_keys ats)) s.
Proof.
  unfold parse_attrs. wlp_simple.
  destruct (is_char "(" (_c s)); wlp_simple;
    [|intros ats Ha; injection Ha as <-; constructor].
  assert (Hloop : forall s0,
    wlp (loop N (fun attrs =>
           attr <- _getAttr N ;;
           match attr with
           | None => _syntaxError "unexpected attribute" ;;; ret (inr None)
           | Some a =>
               _eatblanks N ;;;
               value <- parse_attr_value N ;;
               let attrs := obj_set attrs a value in
               c <- get_c ;;
               if is_char ")" c then ret (inr (Some attrs))
               else if negb (is_char "," c) then
                 _syntaxError "unexpected character" ;;; ret (inr None)
               else _next ;;; ret (inl attrs)
           end) [])
        (fun r _ => forall ats, r = Some ats -> NoDup (obj_keys ats))
        s0).
  { intros s0.
    apply wlp_loop with (I := fun ats _ => NoDup (obj_keys ats)); [|constructor].
    intros ats s1 Hats.
    wlp_use getAttr_console as r s2 H2.
    destruct r as [a|]; wlp_simple; [|intros ? ?; discriminate].
    wlp_use eatblanks_console as u s3 H3.
    wlp_use parse_attr_value_console as v s4 H4.
    pose proof (obj_set_NoDup ats a v Hats) as Hset.
    destruct (is_char ")" (_c s4)); wlp_simple;
      [intros ats' Ha; injection Ha as <-; exact Hset|].
    destruct (negb (is_char "," (_c s4))); wlp_simple;
      [intros ? ?; discriminate|].
    wlp_next_step; exact Hset. }
  wlp_next_step;
    (eapply wlp_conseq; [apply Hloop|]; cbv beta; intros [ats|] s1 H1; wlp_simple;
     [|intros ? ?; discriminate];
     destruct (negb (is_char ")" (_c s1))); wlp_simple; [intros ? ?; discriminate|];
     wlp_next_step; exact H1).
Qed.

Lemma parse_segment_distinct results s :
  Forall distinct_names results ->
  wlp (parse_segment N results)
      (fun x _ =>
         match x with
         | inl chain | inr (Some chain) => Forall distinct_names chain
         | inr None => True
         end) s.
Proof.
  intros Hres. unfold parse_segment.
  apply wlp_bind, wlp_next; intros;
    (wlp_use getAttr_console as t s1 H1;
     wlp_use parse_id_console as i s2 H2;
     destruct i as [i|]; wlp_simple; [|exact I];
     wlp_use parse_classes_console as cs s3 H3;
     destruct cs as [cs|]; wlp_simple; [|exact I];
     wlp_use parse_attrs_distinct as ats s4 H4;
     destruct ats as [ats|]; wlp_simple; [|exact I];
     wlp_use eatblanks_console as u s5 H5;
     assert (Hd : Forall distinct_names
                    (results ++ [mkDescriptor match t with Some t0 => t0 | None => "div" end
                                              i cs ats]));
     [ apply Forall_app; split; [exact Hres|]; constructor; [|constructor];
       apply H4; reflexivity
     | destruct (_c s5); wlp_simple; [|exact Hd];
       destruct (negb _); wlp_simple; [exact I | exact Hd] ]).
Qed.

End DistinctNames.

Lemma parse_distinct_names txt chain log :
  parse txt = Some (Some chain, log) -> Forall distinct_names chain.
Proof.
  unfold parse, parse_with, parse_loop.
  set (N := 2 * String.length txt + 2). intros E.
  destruct (loop N (parse_segment N) [] (_start txt)) as [[x s]|] eqn:E1; [|discriminate].
  injection E as -> _.
  refine (wlp_loop (parse_segment N)
            (fun res _ => Forall distinct_names res)
            (fun r _ => forall c, r = Some c -> Forall distinct_names c)
            _ N [] (_start txt) (Forall_nil _) _ _ E1 chain eq_refl).
  intros res s0 Hres.
  eapply wlp_conseq; [apply parse_segment_distinct; exact Hres|].
  cbv beta. intros [c|[c|]] s1 H1; [exact H1 | | intros ? ?; discriminate].
  intros c' Hc'. injection Hc' as <-. exact H1.
Qed.

(** X3. Every descriptor of a chain that [parse] returns has an
    identifier for its tag, for its id if it has one, for each of its
    classes and for the name of each of its attributes, and the names of
    its attributes differ from each other. *)
Theorem parse_gives_identifiers (txt : string) (chain : list descriptor)
        (log : list SyntaxError) :
  parse txt = Some (Some chain, log) ->
  Forall (fun d => well_formed d /\ distinct_names d) chain.
Proof.
  intros E. pose proof (parse_well_formed _ _ _ E) as H1.
  pose proof (parse_distinct_names _ _ _ E) as H2.
  rewrite Forall_forall in *. intros d Hd. split; auto.
Qed.

Lemma parse_gives_identifiers_witness :
  Forall (fun d => well_formed d /\ distinct_names d)
         [mkDescriptor "a" None ["b"] [("k", Some "2")]].
Proof.
  apply (parse_gives_identifiers "a.b(k=1,k=2)" _ []). vm_compute. reflexivity.
Defined.

(* ================================================================== *)
(** * The conversion engine, further *)
(* ================================================================== *)


Lemma filter_map_comm {A B} (f : B -> bool) (g : A -> B) (l : list A) :
  filter f (map g l) = map g (filter (fun x => f (g x)) l).
Proof.
  induction l as [|x l IH]; simpl; [reflexivity|].
  destruct (f (g x)); simpl; rewrite IH; reflexivity.
Qed.

Lemma filter_andb {A} (f g : A -> bool) (l : list A) :
  filter (fun x => f x && g x) l = filter f (filter g l).
Proof.
  induction l as [|x l IH]; simpl; [reflexivity|].
  destruct (g x); simpl; [destruct (f x); simpl; rewrite IH; reflexivity|].
  rewrite andb_false_r. exact IH.
Qed.

Lemma combine_seq_shift (ar : list string) k :
  combine (seq (S k) (List.length ar)) ar
  = map (fun ix => (S (fst ix), snd ix)) (combine (seq k (List.length ar)) ar).
Proof.
  revert k. induction ar as [|x ar IH]; intros k; simpl; [reflexivity|].
  rewrite IH. reflexivity.
Qed.

Lemma arrayUnique_cons x ar :
  arrayUnique (x :: ar) = x :: filter (fun y => negb (String.eqb y x)) (arrayUnique ar).
Proof.
  unfold arrayUnique. cbn [List.length seq combine filter snd fst indexOf].
  rewrite String.eqb_refl. cbn [Nat.eqb map snd]. f_equal.
  rewrite combine_seq_shift, filter_map_comm, map_map. cbn [snd fst].
  rewrite (filter_map_comm (fun y => negb (String.eqb y x)) snd).
  rewrite <- filter_andb. f_equal.
  apply filter_ext. intros [i y]. cbn [fst snd].
  rewrite (String.eqb_sym y x).
  destruct (String.eqb x y); cbn [negb andb]; [reflexivity|].
  destruct (indexOf ar y); reflexivity.
Qed.

Lemma filter_neq_notin x (l : list string) :
  ~ In x l -> filter (fun y => negb (String.eqb y x)) l = l.
Proof.
  induction l as [|y l IH]; intros H; simpl; [reflexivity|].
  destruct (String.eqb_spec y x) as [->|Hne]; simpl.
  - exfalso. apply H. left. reflexivity.
  - rewrite IH; [reflexivity|]. intros Hin. apply H. right. exact Hin.
Qed.

Lemma arrayUnique_NoDup_id ar : NoDup ar -> arrayUnique ar = ar.
Proof.
  induction ar as [|x ar IH]; intros H; [reflexivity|].
  inversion H; subst. rewrite arrayUnique_cons, (IH H3), (filter_neq_notin _ _ H2).
  reflexivity.
Qed.

(** X4. [arrayUnique] keeps the first occurrence of every item, in the
    order of the array: the head of the array stays, and what follows it
    is what [arrayUnique] keeps of the rest, without the items equal to
    the head.  It changes nothing in its own result, nor in an array
    without duplicates. *)
Theorem arrayUnique_first_occurrences :
  arrayUnique [] = []
  /\ (forall x ar,
        arrayUnique (x :: ar)
        = x :: filter (fun y => negb (String.eqb y x)) (arrayUnique ar))
  /\ (forall ar, arrayUnique (arrayUnique ar) = arrayUnique ar)
  /\ (forall ar, NoDup ar -> arrayUnique ar = ar).
Proof.
  split; [reflexivity|]. split; [exact arrayUnique_cons|].
  split; [|exact arrayUnique_NoDup_id].
  intros ar. apply arrayUnique_NoDup_id, arrayUnique_NoDup.
Qed.

Lemma arrayUnique_first_occurrences_witness :
  arrayUnique ["a"; "b"] = ["a"; "b"].
Proof.
  apply (proj2 (proj2 (proj2 arrayUnique_first_occurrences)) ["a"; "b"]).
  repeat constructor; simpl; intuition discriminate.
Defined.


Lemma createElement_element d :
  createElement d = Element (lower (tag d)) (created_attrs d) [].
Proof.
  unfold createElement, created_attrs, document_createElement.
  destruct (id d) as [i|]; cbn [setAttribute with_attributes attributes];
    rewrite fold_add_class_element, fold_ops_element; reflexivity.
Qed.

Lemma created_init_NoDup cs (i : option string) :
  NoDup (obj_keys (fold_left add_class cs
                     match i with None => [] | Some i => [("id", i)] end)).
Proof.
  apply fold_add_class_NoDup. destruct i; repeat constructor; simpl; tauto.
Qed.

(** X7. Among the entries of the attribute map whose names agree up to
    case, the last one decides the attribute, also against the id and
    the classes of the descriptor. *)
Theorem createElement_last_entry_wins
        (d : descriptor) (a1 a2 : obj (option string)) (k k' : string)
        (v : option string) :
  attrs d = a1 ++ (k, v) :: a2 ->
  (forall k2 v2, In (k2, v2) a2 -> lower k2 <> lower k) ->
  lower k' = lower k ->
  getAttribute (createElement d) k' = v.
Proof.
  intros Ha Hlater Hk. rewrite createElement_element. unfold getAttribute.
  cbn [attributes]. unfold created_attrs.
  rewrite fold_ops_get by apply created_init_NoDup.
  rewrite Ha, final_value_app. unfold final_value at 1. cbn [fold_left fst snd].
  rewrite Hk, String.eqb_refl.
  apply (final_value_untouched (lower k) a2 v). exact Hlater.
Qed.

Lemma createElement_last_entry_wins_witness :
  getAttribute
    (createElement (mkDescriptor "a" (Some "x") ["c"]
                      [("Href", Some "1"); ("ID", None); ("href", Some "2")])) "id"
  = None.
Proof.
  apply (createElement_last_entry_wins
           (mkDescriptor "a" (Some "x") ["c"]
              [("Href", Some "1"); ("ID", None); ("href", Some "2")])
           [("Href", Some "1")] [("href", Some "2")] "ID" "id" None).
  - reflexivity.
  - intros k2 v2 [H|[]]. inversion H; subst. discriminate.
  - reflexivity.
Defined.

Lemma classList_convert el def :
  html_element el ->
  Forall (fun c => is_token c = true) (classes def) ->
  (forall k v, In (k, v) (attrs def) -> lower k <> "class") ->
  classList (convert el def) = arrayUnique (classes def ++ classList el).
Proof.
  intros Hel Htok Hkeys.
  set (L := arrayUnique (classes def ++ classList el)).
  rewrite convert_element, classList_element. unfold built_attrs. fold L.
  unfold class_tokens at 1. rewrite fold_ops_get by apply created_init_NoDup.
  rewrite final_value_untouched.
  - fold (class_tokens (fold_left add_class L
             match id def with Some i => [("id", i)] | None => [] end)).
    rewrite fold_add_class_tokens.
    + replace (class_tokens match id def with Some i => [("id", i)] | None => [] end)
        with (@nil string) by (destruct (id def); reflexivity).
      apply (fold_set_append_id L []). simpl. apply arrayUnique_NoDup.
    + apply Forall_forall. intros c Hc. unfold L in Hc.
      apply (proj1 (arrayUnique_In _ _)) in Hc. apply in_app_or in Hc.
      destruct Hc as [Hc|Hc].
      * rewrite Forall_forall in Htok. auto.
      * rewrite classList_attributes in Hc.
        pose proof (class_tokens_valid (attributes el)) as Hv.
        rewrite Forall_forall in Hv. auto.
  - intros k' v Hin Hl.
    apply (Hkeys k' v); [|exact Hl].
    eapply merge_attrs_class; eassumption.
Qed.

Lemma arrayUnique_app a l :
  arrayUnique (a ++ l)
  = arrayUnique a ++ filter (fun c => negb (mem c a)) (arrayUnique l).
Proof.
  induction a as [|c cs IH].
  - cbn [app arrayUnique]. symmetry.
    change (arrayUnique []) with (@nil string). cbn [app].
    induction (arrayUnique l) as [|y r IHr]; [reflexivity|].
    cbn [filter mem existsb negb]. f_equal. exact IHr.
  - cbn [app]. rewrite !arrayUnique_cons, IH. cbn [app]. f_equal.
    rewrite filter_app. f_equal.
    rewrite <- filter_andb. apply filter_ext. intros y.
    cbn [mem existsb]. rewrite negb_orb. reflexivity.
Qed.

(** X5. The classes of the converted node, in their order: those of the
    descriptor first, then those of the node that the descriptor does not
    have, each once. *)
Theorem converted_class_order (el : Node) (def : descriptor) :
  html_element el ->
  Forall (fun c => is_token c = true) (classes def) ->
  (forall k v, In (k, v) (attrs def) -> lower k <> "class") ->
  classList (convert el def)
  = arrayUnique (classes def)
    ++ filter (fun c => negb (mem c (classes def))) (classList el).
Proof.
  intros Hel Htok Hkeys. rewrite (classList_convert el def Hel Htok Hkeys).
  rewrite arrayUnique_app. f_equal. f_equal.
  apply arrayUnique_NoDup_id.
  rewrite classList_attributes. apply class_tokens_NoDup.
Qed.

Lemma converted_class_order_witness :
  classList (convert (Element "p" [("class", "a b")] [])
                     (mkDescriptor "div" None ["b"; "c"; "b"] []))
  = arrayUnique ["b"; "c"; "b"]
    ++ filter (fun c => negb (mem c ["b"; "c"; "b"]))
              (classList (Element "p" [("class", "a b")] [])).
Proof.
  apply (converted_class_order (Element "p" [("class", "a b")] [])
                               (mkDescriptor "div" None ["b"; "c"; "b"] [])).
  - repeat split; repeat constructor; simpl; tauto.
  - repeat constructor.
  - intros k v [].
Defined.

(** X6. An attribute of the node that the descriptor does not name is
    carried over with its value, unless it is [class] or bears a name
    that every object inherits, such as [constructor]: these are
    dropped. *)
Theorem convert_carries_attributes (el : Node) (def : descriptor) (k v : string) :
  html_element el ->
  In (k, v) (attributes el) ->
  k <> "class" ->
  (forall k' v', In (k', v') (attrs def) -> lower k' <> k) ->
  getAttribute (convert el def) k
  = if mem k Object_prototype then None else Some v.
Proof.
  intros (Hnd & Hlow & _) Hin Hclass Hkeys.
  assert (Hk : lower k = k).
  { rewrite Forall_forall in Hlow. apply Hlow.
    change k with (fst (k, v)). apply in_map. exact Hin. }
  assert (Hget : getAttribute el k = Some v).
  { unfold getAttribute. rewrite Hk. apply obj_get_In; assumption. }
  rewrite convert_element. unfold getAttribute at 1. cbn [attributes]. rewrite Hk.
  unfold built_attrs. rewrite fold_ops_get by apply created_init_NoDup.
  rewrite fold_add_class_get by exact Hclass.
  rewrite (merge_attrs_spec el (attrs def) Hnd), final_value_app.
  rewrite (final_value_untouched k (attrs def)) by exact Hkeys.
  assert (Hnone : obj_get (attrs def) k = None).
  { destruct (obj_get (attrs def) k) eqn:E; [|reflexivity].
    apply obj_get_Some_In in E. exfalso. exact (Hkeys _ _ E Hk). }
  set (names := filter (fun n => negb (mem n ["class"]) && is_undefined (attrs def) n)
                       (getAttributeNames el)).
  assert (Hnames_nd : NoDup (obj_keys (map (fun n => (n, getAttribute el n)) names))).
  { unfold obj_keys. rewrite map_map. simpl. rewrite map_id.
    apply NoDup_filter. exact Hnd. }
  assert (Hnames_low :
            Forall (fun k' => lower k' = k')
                   (obj_keys (map (fun n => (n, getAttribute el n)) names))).
  { unfold obj_keys. rewrite map_map. simpl. rewrite map_id.
    apply Forall_forall. intros n Hn. apply filter_In in Hn.
    rewrite Forall_forall in Hlow. apply Hlow. tauto. }
  destruct (mem k Object_prototype) eqn:Ep.
  - rewrite final_value_untouched.
    + destruct (id def) as [i|]; [|reflexivity].
      cbn [obj_get]. destruct (String.eqb_spec "id" k) as [<-|]; [discriminate Ep | reflexivity].
    + intros k' v' Hin' Hl.
      apply in_map_iff in Hin'. destruct Hin' as (n & Hn & Hf).
      injection Hn as E1 E2. rewrite <- E1 in Hl. clear E1 E2.
      apply filter_In in Hf. destruct Hf as [Hf1 Hf2].
      rewrite Forall_forall in Hlow. rewrite (Hlow _ Hf1) in Hl. rewrite Hl in Hf2.
      apply andb_prop in Hf2. destruct Hf2 as [_ Hu].
      unfold is_undefined in Hu. rewrite Hnone, Ep in Hu. discriminate Hu.
  - apply (final_value_unique k (Some v)); [assumption | assumption |].
    apply in_map_iff. exists k. split; [rewrite Hget; reflexivity|].
    apply filter_In. split.
    + change k with (fst (k, v)). apply in_map. exact Hin.
    + unfold is_undefined. rewrite Hnone, Ep.
      destruct (mem k ["class"]) eqn:Ec; [|reflexivity].
      apply mem_In in Ec. destruct Ec as [Ec|[]]. congruence.
Qed.

Lemma convert_carries_attributes_witness :
  getAttribute (convert (Element "p" [("title", "t"); ("constructor", "c")] [])
                        (mkDescriptor "div" (Some "d") ["x"] [("href", Some "h")]))
               "constructor"
  = None.
Proof.
  apply (convert_carries_attributes
           (Element "p" [("title", "t"); ("constructor", "c")] [])
           (mkDescriptor "div" (Some "d") ["x"] [("href", Some "h")])
           "constructor" "c").
  - repeat split; repeat constructor; simpl; intuition discriminate.
  - right. left. reflexivity.
  - discriminate.
  - intros k' v' [H|[]]. inversion H; subst. discriminate.
Defined.

Lemma obj_set_keys_in {V} (a : obj V) k v :
  In k (obj_keys a) -> obj_keys (obj_set a k v) = obj_keys a.
Proof.
  induction a as [|[k0 v0] a IH]; simpl; [tauto|].
  intros H. destruct (String.eqb k0 k) eqn:E; simpl; [reflexivity|].
  f_equal. apply IH. destruct H as [H|H]; [|exact H].
  subst. rewrite String.eqb_refl in E. discriminate.
Qed.

Lemma fold_set_keys (ops : list (string * string)) (f : string -> string)
      (a : list (string * string)) :
  (forall kv, In kv ops -> In (lower (fst kv)) (obj_keys a)) ->
  obj_keys (fold_left apply_op (map (fun kv => (fst kv, Some (f (snd kv)))) ops) a)
  = obj_keys a.
Proof.
  revert a. induction ops as [|kv ops IH]; intros a H; [reflexivity|].
  cbn [map fold_left]. unfold apply_op at 2. cbn [fst snd].
  assert (E : obj_keys (obj_set a (lower (fst kv)) (f (snd kv))) = obj_keys a)
    by (apply obj_set_keys_in, H; left; reflexivity).
  rewrite IH; [exact E|].
  intros kv' Hin. rewrite E. apply H. right. exact Hin.
Qed.

(** X9. The substitution of the placeholders changes values only: the
    target node keeps the tag, the children, and the names and the order
    of the attributes that [convert] gave it. *)
Theorem substitution_keeps_names (target : descriptor) (el : Node) :
  tagName (convertMatched target el) = tagName (convert el target)
  /\ childNodes (convertMatched target el) = childNodes (convert el target)
  /\ getAttributeNames (convertMatched target el)
     = getAttributeNames (convert el target).
Proof.
  rewrite convertMatched_element, convert_element.
  split; [reflexivity|]. split; [reflexivity|].
  unfold getAttributeNames. cbn [attributes]. unfold substituted_attrs.
  apply (fold_set_keys (filter not_proto (built_attrs el target))
                       (substitute (getAttrs el))).
  intros kv Hin. apply filter_In in Hin. destruct Hin as [Hin _].
  destruct (built_attrs_keys el target) as [_ Hlow].
  unfold lower_keys in Hlow. rewrite Forall_forall in Hlow.
  assert (Hk : In (fst kv) (obj_keys (built_attrs el target)))
    by (apply in_map; exact Hin).
  rewrite (Hlow _ Hk). exact Hk.
Qed.

Lemma createElement_append n d :
  append [n] (createElement d)
  = Element (lower (tag d)) (created_attrs d) [n].
Proof. rewrite createElement_element. reflexivity. Qed.

(** X8. The chain, nested: every ancestor is the node that
    [createElement] builds for its descriptor, whatever the matched node
    is, with one child; the innermost ancestor holds the target node,
    which holds the children of the matched node. *)
Theorem chain_nesting (elements : list descriptor) (target : descriptor) (el : Node) :
  only_child (List.length elements) (convertElement elements target el)
  = Some (convertMatched target el)
  /\ childNodes (convertMatched target el) = childNodes el
  /\ (forall i e, nth_error elements i = Some e ->
        exists n, only_child i (convertElement elements target el) = Some n /\
                  tagName n = tagName (createElement e) /\
                  attributes n = attributes (createElement e) /\
                  List.length (childNodes n) = 1).
Proof.
  unfold convertElement. split; [|split].
  - induction elements as [|e r IH]; [reflexivity|].
    cbn [List.length nest only_child]. rewrite createElement_append.
    cbn [childNodes]. exact IH.
  - rewrite convertMatched_element. reflexivity.
  - induction elements as [|e r IH]; intros i e0 Hi; [destruct i; discriminate|].
    cbn [nest]. rewrite createElement_append. destruct i as [|i].
    + injection Hi as <-. eexists. split; [reflexivity|].
      rewrite createElement_element. repeat split.
    + cbn [only_child childNodes]. apply IH. exact Hi.
Qed.

Lemma chain_nesting_witness :
  exists n,
    only_child 0 (convertElement [mkDescriptor "li" None ["x"] [("title", Some "${id}")]]
                    (mkDescriptor "a" None [] []) (Element "o" [("id", "7")] [Text "t"]))
    = Some n /\
    tagName n = tagName (createElement (mkDescriptor "li" None ["x"] [("title", Some "${id}")])) /\
    attributes n
    = attributes (createElement (mkDescriptor "li" None ["x"] [("title", Some "${id}")])) /\
    List.length (childNodes n) = 1.
Proof.
  apply (proj2 (proj2 (chain_nesting
                         [mkDescriptor "li" None ["x"] [("title", Some "${id}")]]
                         (mkDescriptor "a" None [] [])
                         (Element "o" [("id", "7")] [Text "t"])))
               0 (mkDescriptor "li" None ["x"] [("title", Some "${id}")])).
  reflexivity.
Defined.

Lemma pop_nonempty (elements : list descriptor) :
  elements <> [] -> exists target, fst (pop elements) = Some target.
Proof.
  unfold pop. cbn [fst]. induction elements as [|e r IH]; intros H; [contradiction|].
  destruct r as [|e' r']; [exists e; reflexivity|].
  destruct IH as [t Ht]; [discriminate|]. exists t. exact Ht.
Qed.

Section Outcome.

Variable Document : Type.
Variable NodeRef : Type.
Variable querySelectorAll : string -> Document -> list NodeRef.
Variable node_of : Document -> NodeRef -> Node.
Variable replaceChild : Document -> NodeRef -> Node -> Document.

(** A rule either is applied, silently, or throws the [TypeError] of a
    definition that does not parse, after the lines of [parse]. *)
Lemma convertRule_cases o conversion doc :
  (parses conversion /\
   exists doc', convertRule Document NodeRef querySelectorAll node_of replaceChild
                            o conversion doc = (Normal doc', []))
  \/ (exists log, log <> [] /\ parse conversion = Some (None, log) /\
        convertRule Document NodeRef querySelectorAll node_of replaceChild
                    o conversion doc = (Throw "TypeError", log)).
Proof.
  unfold convertRule, parses.
  destruct (parse_with_total (2 * String.length conversion + 2) conversion)
    as [[r log] E]; [lia|].
  pose proof (parse_with_console _ _ _ _ E) as H.
  unfold parse. rewrite E. destruct r as [chain|].
  - destruct H as [-> Hne]. left. split; [eauto|].
    destruct (pop_nonempty chain Hne) as [target Ht].
    destruct (pop chain) as [t rest]. cbn [fst] in Ht. subst t. eauto.
  - right. exists log. auto.
Qed.

(** X11. [convertTags] ends normally exactly when every definition
    parses, and then the console is silent; otherwise it ends with the
    [TypeError] of the first definition that does not parse, the console
    holds the lines of that call of [parse], and the document is as the
    rules before it have left it. *)
Theorem convertTags_outcome
        (rules : list (string * string)) (doc doc' : Document)
        (c : completion unit) (log : list SyntaxError) :
  convertTags Document NodeRef querySelectorAll node_of replaceChild (Some rules) doc
  = (doc', c, log) ->
  (c = Normal tt /\ log = [] /\ Forall (fun r => parses (snd r)) rules)
  \/ (c = Throw "TypeError" /\ log <> [] /\
      exists rules1 o conversion rules2,
        rules = rules1 ++ (o, conversion) :: rules2 /\
        Forall (fun r => parses (snd r)) rules1 /\
        parse conversion = Some (None, log) /\
        convertTags Document NodeRef querySelectorAll node_of replaceChild
                    (Some rules1) doc = (doc', Normal tt, [])).
Proof.
  cbn [convertTags]. revert doc doc' c log.
  induction rules as [|[o conversion] rest IH]; intros doc doc' c log E.
  - cbn [convertRules] in E. injection E as <- <- <-. left. auto.
  - cbn [convertRules] in E.
    destruct (convertRule_cases o conversion doc)
      as [[Hp [doc1 E1]]|(log1 & Hne & Hparse & E1)]; rewrite E1 in E.
    + destruct (convertRules Document NodeRef querySelectorAll node_of replaceChild
                             rest doc1) as [[doc2 c2] log2] eqn:E2.
      injection E as <- <- <-. cbn [app].
      destruct (IH doc1 doc2 c2 log2 E2)
        as [(-> & -> & Hall)|(-> & Hlog & rules1 & o' & conv' & rules2 & -> & Hall & Hp' & E3)].
      * left. repeat split. constructor; assumption.
      * right. split; [reflexivity|]. split; [exact Hlog|].
        exists ((o, conversion) :: rules1), o', conv', rules2.
        repeat split; [constructor; assumption | exact Hp' |].
        cbn [convertTags convertRules app]. rewrite E1.
        cbn [convertTags] in E3. rewrite E3. reflexivity.
    + injection E as <- <- <-. right. split; [reflexivity|]. split; [exact Hne|].
      exists [], o, conversion, rest. repeat split; [constructor | exact Hparse].
Qed.

End Outcome.

Lemma convertTags_outcome_witness :
  (Normal tt = Normal tt /\ @nil SyntaxError = [] /\
   Forall (fun r => parses (snd r)) [("i", "em")])
  \/ (Normal tt = Throw "TypeError" /\ @nil SyntaxError <> [] /\
      exists rules1 o conversion rules2,
        [("i", "em")] = rules1 ++ (o, conversion) :: rules2 /\
        Forall (fun r : string * string => parses (snd r)) rules1 /\
        parse conversion = Some (None, []) /\
        convertTags flat_document nat flat_query flat_node flat_replace
                    (Some rules1) [Element "i" [] [Text "x"]]
        = ([Element "em" [] [Text "x"]], Normal tt, [])).
Proof.
  apply (convertTags_outcome flat_document nat flat_query flat_node flat_replace
           [("i", "em")] [Element "i" [] [Text "x"]]).
  vm_compute. reflexivity.
Defined.

Lemma GetSubstitution_app_plain matched before after v r :
  string_exists is_dollar v = false ->
  GetSubstitution matched before after (v ++ r)
  = (v ++ GetSubstitution matched before after r)%string.
Proof.
  induction v as [|c v IH]; intros H; [reflexivity|].
  simpl in H. apply orb_false_iff in H. destruct H as [Hc Hv].
  unfold is_dollar in Hc. cbn [String.append GetSubstitution]. rewrite Hc, (IH Hv).
  reflexivity.
Qed.

(** X10. A dollar sign in the value that replaces a placeholder is not
    always inserted as it is: in the replacement text [$$] stands for
    one dollar sign, [$&] for the placeholder itself, [$`] for what
    precedes the placeholder in the value being rewritten and [$'] for
    what follows it. *)
Theorem dollar_patterns (name before after v1 v2 : string) :
  (forall b' a',
      (before ++ placeholder name ++ after)%string
      = (b' ++ placeholder name ++ a')%string ->
      String.length before <= String.length b') ->
  string_exists is_dollar v1 = false ->
  string_exists is_dollar v2 = false ->
  js_replace (before ++ placeholder name ++ after) (placeholder name) (v1 ++ "$$" ++ v2)
  = (before ++ (v1 ++ "$" ++ v2) ++ after)%string
  /\ js_replace (before ++ placeholder name ++ after) (placeholder name) (v1 ++ "$&" ++ v2)
     = (before ++ (v1 ++ placeholder name ++ v2) ++ after)%string
  /\ js_replace (before ++ placeholder name ++ after) (placeholder name) (v1 ++ "$`" ++ v2)
     = (before ++ (v1 ++ before ++ v2) ++ after)%string
  /\ js_replace (before ++ placeholder name ++ after) (placeholder name) (v1 ++ "$'" ++ v2)
     = (before ++ (v1 ++ after ++ v2) ++ after)%string.
Proof.
  intros Hmin H1 H2. unfold js_replace. rewrite (find_first_min _ _ _ Hmin).
  rewrite !(GetSubstitution_app_plain _ _ _ v1 _ H1).
  cbn [String.append GetSubstitution Ascii.eqb Bool.eqb]. cbv iota.
  rewrite (GetSubstitution_plain _ _ _ _ H2).
  repeat split; reflexivity.
Qed.

Lemma dollar_patterns_witness :
  js_replace "${t} b" (placeholder "t") "5$$" = "5$ b".
Proof.
  refine (proj1 (dollar_patterns "t" EmptyString " b" "5" EmptyString _ _ _));
    [|reflexivity|reflexivity].
  intros b' a' _. simpl. lia.
Defined.

Lemma obj_get_filter_proto (a : list (string * string)) k :
  k <> "__proto__" -> obj_get (filter not_proto a) k = obj_get a k.
Proof.
  intros Hk. induction a as [|[k0 v0] a IH]; [reflexivity|].
  cbn [filter]. unfold not_proto at 1. cbn [fst].
  destruct (String.eqb_spec k0 "__proto__") as [->|Hne]; cbn [negb obj_get].
  - rewrite IH. destruct (String.eqb_spec "__proto__" k); [congruence | reflexivity].
  - rewrite IH. reflexivity.
Qed.

(** X16. [getAttrs] lists the attributes of an element whose attribute
    names differ and do not start with a digit, in their order and with
    their values, except an attribute named [__proto__], which it leaves
    out.  A name that starts with a digit may be an array index, which
    the object lists before its other keys; such names are left out of
    the statement. *)
Theorem getAttrs_lists (el : Node) :
  NoDup (getAttributeNames el) ->
  Forall (fun n => starts_with_digit n = false) (getAttributeNames el) ->
  getAttrs el
  = filter (fun kv => negb (String.eqb (fst kv) "__proto__")) (attributes el)
  /\ obj_get (getAttrs el) "__proto__" = None
  /\ (forall k, k <> "__proto__" -> obj_get (getAttrs el) k = obj_get (attributes el) k).
Proof.
  intros Hnd _. rewrite (getAttrs_spec el Hnd). split; [reflexivity|]. split.
  - apply obj_get_None. intros Hin. unfold obj_keys in Hin.
    apply in_map_iff in Hin. destruct Hin as ([k v] & Hk & Hf). cbn [fst] in Hk. subst k.
    apply filter_In in Hf. destruct Hf as [_ Hf]. discriminate Hf.
  - intros k Hk. apply obj_get_filter_proto. exact Hk.
Qed.

Lemma getAttrs_lists_witness :
  getAttrs (Element "a" [("href", "x"); ("__proto__", "p"); ("title", "t")] [])
  = filter (fun kv => negb (String.eqb (fst kv) "__proto__"))
           [("href", "x"); ("__proto__", "p"); ("title", "t")].
Proof.
  refine (proj1 (getAttrs_lists
                   (Element "a" [("href", "x"); ("__proto__", "p"); ("title", "t")] []) _ _)).
  - repeat constructor; simpl; intuition discriminate.
  - repeat constructor.
Defined.

(* ================================================================== *)
(** * The listener *)
(* ================================================================== *)

Section ReadyProofs.

Variable Document : Type.
Variable NodeRef : Type.
Variable same_node : NodeRef -> NodeRef -> bool.
Variable querySelectorAll : string -> Document -> list NodeRef.
Variable node_of : Document -> NodeRef -> Node.
Variable replaceChild : Document -> NodeRef -> Node -> Document.
Variable set_node : Document -> NodeRef -> Node -> Document.
Variable parse_fragment : string -> list Node.

(** The rules up to a definition that does not parse are applied, and
    the loop ends there. *)
Lemma convertRules_stops rules1 o conversion rules2 log doc :
  Forall (fun r => parses (snd r)) rules1 ->
  parse conversion = Some (None, log) ->
  exists doc1,
    convertRules Document NodeRef querySelectorAll node_of replaceChild rules1 doc
    = (doc1, Normal tt, [])
    /\ convertRules Document NodeRef querySelectorAll node_of replaceChild
                    (rules1 ++ (o, conversion) :: rules2) doc
       = (doc1, Throw "TypeError", log).
Proof using.
  intros Hall Hbad. revert doc.
  induction rules1 as [|[o1 c1] rules1 IH]; intros doc.
  - exists doc. split; [reflexivity|]. cbn [app convertRules].
    unfold convertRule. rewrite Hbad. reflexivity.
  - inversion Hall as [|? ? Hp Hrest]; subst. cbn [snd] in Hp.
    destruct (convertRule_cases Document NodeRef querySelectorAll node_of replaceChild
                                o1 c1 doc)
      as [[_ [doc' E]]|(log1 & _ & Hparse & _)].
    + destruct (IH Hrest doc') as (doc1 & E1 & E2). exists doc1.
      cbn [app convertRules]. rewrite E, E1, E2. split; reflexivity.
    + destruct Hp as [chain Hc]. rewrite Hc in Hparse. discriminate.
Qed.

(** X12. One definition that does not parse keeps the icons from being
    converted: the listener of [DOMContentLoaded] ends with the
    [TypeError] of [convertTags], after the rules that come before that
    definition, and [convertIcons] is not called, whatever the options
    are. *)
Theorem malformed_definition_disables_icons
        (rules1 rules2 : list (string * string)) (o conversion : string)
        (log : list SyntaxError) (current : obj jsvalue) (doc : Document) :
  Forall (fun r => parses (snd r)) rules1 ->
  parse conversion = Some (None, log) ->
  exists doc1,
    convertTags Document NodeRef querySelectorAll node_of replaceChild (Some rules1) doc
    = (doc1, Normal tt, [])
    /\ onDOMContentLoaded Document NodeRef same_node querySelectorAll node_of
                          replaceChild set_node parse_fragment
                          (Some (rules1 ++ (o, conversion) :: rules2)) current doc
       = (doc1, Throw "TypeError", log).
Proof using.
  intros Hall Hbad.
  destruct (convertRules_stops rules1 o conversion rules2 log doc Hall Hbad)
    as (doc1 & E1 & E2).
  exists doc1. split; [exact E1|].
  unfold onDOMContentLoaded. cbn [convertTags]. rewrite E2. reflexivity.
Qed.

End ReadyProofs.

Lemma malformed_definition_disables_icons_witness :
  exists doc1,
    flat_convertTags (Some [("i", "em")])
                     [Element "i" [("data-icon", "home")] [Text "x"]]
    = (doc1, Normal tt, [])
    /\ onDOMContentLoaded flat_document nat Nat.eqb flat_query flat_node flat_replace
         flat_replace (fun s => [Text s])
         (Some ([("i", "em")] ++ [("p", "b(")])) defaults
         [Element "i" [("data-icon", "home")] [Text "x"]]
       = (doc1, Throw "TypeError", [mkSyntaxError 2 None "unexpected attribute"]).
Proof.
  apply (malformed_definition_disables_icons flat_document nat Nat.eqb flat_query
           flat_node flat_replace flat_replace (fun s => [Text s])
           [("i", "em")] [] "p" "b(" [mkSyntaxError 2 None "unexpected attribute"]
           defaults [Element "i" [("data-icon", "home")] [Text "x"]]).
  - repeat constructor. exists [mkDescriptor "em" None [] []]. vm_compute. reflexivity.
  - vm_compute. reflexivity.
Defined.

(* ================================================================== *)
(** * Options and icons *)
(* ================================================================== *)


Lemma prop_set_eq (d : obj jsvalue) k v : get_prop (obj_set d k v) k = v.
Proof. unfold get_prop. rewrite obj_get_set_eq. reflexivity. Qed.

Lemma prop_set_neq (d : obj jsvalue) k k' v :
  k <> k' -> get_prop (obj_set d k v) k' = get_prop d k'.
Proof. intros H. unfold get_prop. rewrite obj_get_set_neq by exact H. reflexivity. Qed.

Lemma configure_fold options keys d :
  fold_left (fun d k =>
               match get_prop options k with
               | VUndefined => d
               | v => obj_set d k v
               end) keys d
  = fold_left (configure_step options) keys d.
Proof. reflexivity. Qed.

Lemma configure_step_keys options d k :
  In k (obj_keys d) -> obj_keys (configure_step options d k) = obj_keys d.
Proof.
  intros H. unfold configure_step.
  destruct (get_prop options k); try reflexivity; apply obj_set_keys_in; exact H.
Qed.

Lemma configure_step_prop options d k k' :
  get_prop (configure_step options d k) k'
  = if String.eqb k k'
    then match get_prop options k with VUndefined => get_prop d k' | v => v end
    else get_prop d k'.
Proof.
  unfold configure_step. destruct (String.eqb_spec k k') as [<-|Hne].
  - destruct (get_prop options k); try reflexivity; apply prop_set_eq.
  - destruct (get_prop options k); try reflexivity; apply prop_set_neq; exact Hne.
Qed.

Lemma fold_configure_keys options keys d :
  (forall k, In k keys -> In k (obj_keys d)) ->
  obj_keys (fold_left (configure_step options) keys d) = obj_keys d.
Proof.
  revert d. induction keys as [|k keys IH]; intros d H; [reflexivity|].
  cbn [fold_left].
  assert (E : obj_keys (configure_step options d k) = obj_keys d)
    by (apply configure_step_keys, H; left; reflexivity).
  rewrite IH; [exact E|]. intros k' Hk'. rewrite E. apply H. right. exact Hk'.
Qed.

Lemma fold_configure_notin options keys d k :
  ~ In k keys -> get_prop (fold_left (configure_step options) keys d) k = get_prop d k.
Proof.
  revert d. induction keys as [|k0 keys IH]; intros d H; [reflexivity|].
  cbn [fold_left]. rewrite IH by (intros Hin; apply H; right; exact Hin).
  rewrite configure_step_prop.
  destruct (String.eqb_spec k0 k) as [->|]; [|reflexivity].
  exfalso. apply H. left. reflexivity.
Qed.

Lemma fold_configure_in options keys d k :
  In k keys ->
  get_prop (fold_left (configure_step options) keys d) k
  = match get_prop options k with VUndefined => get_prop d k | v => v end.
Proof.
  revert d. induction keys as [|k0 keys IH]; intros d H; [destruct H|].
  cbn [fold_left]. destruct (in_dec string_dec k keys) as [Hin|Hnin].
  - rewrite (IH _ Hin). rewrite configure_step_prop.
    destruct (String.eqb_spec k0 k) as [->|]; [|reflexivity].
    destruct (get_prop options k); reflexivity.
  - rewrite (fold_configure_notin _ _ _ _ Hnin), configure_step_prop.
    destruct H as [->|H]; [|contradiction]. rewrite String.eqb_refl. reflexivity.
Qed.

Lemma obj_set_same {V} (a : obj V) k v :
  obj_get a k = Some v -> obj_set a k v = a.
Proof.
  induction a as [|[k0 v0] a IH]; simpl; [discriminate|].
  destruct (String.eqb k0 k) eqn:E.
  - intros H. injection H as ->. reflexivity.
  - intros H. rewrite (IH H). reflexivity.
Qed.

Lemma fold_configure_fixed options keys d :
  (forall k, In k keys -> get_prop options k <> VUndefined ->
             obj_get d k = Some (get_prop options k)) ->
  fold_left (configure_step options) keys d = d.
Proof.
  induction keys as [|k keys IH]; intros H; [reflexivity|].
  cbn [fold_left].
  assert (E : configure_step options d k = d).
  { unfold configure_step. specialize (H k (or_introl eq_refl)).
    destruct (get_prop options k); try reflexivity;
      apply obj_set_same, H; discriminate. }
  rewrite E. apply IH. intros k' Hk'. apply H. right. exact Hk'.
Qed.

(** X13. [configure] gives every option that the argument defines the
    value from the argument and leaves the others as they are; it adds
    no option, keeps their order, and a second call with the same
    argument changes nothing. *)
Theorem configure_overrides (options current : obj jsvalue) :
  obj_keys (configure options current) = obj_keys current
  /\ (forall k, In k (obj_keys current) ->
        get_prop (configure options current) k
        = match get_prop options k with
          | VUndefined => get_prop current k
          | v => v
          end)
  /\ (forall k, ~ In k (obj_keys current) ->
        get_prop (configure options current) k = VUndefined)
  /\ configure options (configure options current) = configure options current.
Proof.
  unfold configure. rewrite !configure_fold.
  assert (Hkeys : obj_keys (fold_left (configure_step options) (obj_keys current) current)
                  = obj_keys current)
    by (apply fold_configure_keys; auto).
  split; [exact Hkeys|]. split; [|split].
  - intros k Hk. apply fold_configure_in. exact Hk.
  - intros k Hk. rewrite (fold_configure_notin _ _ _ _ Hk).
    unfold get_prop. apply obj_get_None in Hk. rewrite Hk. reflexivity.
  - rewrite Hkeys. apply fold_configure_fixed.
    intros k Hk Hdef.
    pose proof (fold_configure_in options (obj_keys current) current k Hk) as E.
    unfold get_prop in E at 1.
    destruct (obj_get (fold_left (configure_step options) (obj_keys current) current) k)
      as [v|] eqn:Eg.
    + rewrite E. destruct (get_prop options k); try reflexivity. contradiction.
    + destruct (get_prop options k); try discriminate E. contradiction.
Qed.

Lemma configure_overrides_witness :
  get_prop (configure [("icon_class", VStr "fas"); ("colour", VStr "red");
                   ("convert_icons", VUndefined)] defaults) "convert_icons"
  = VBool true.
Proof.
  apply (proj1 (proj2 (configure_overrides
                         [("icon_class", VStr "fas"); ("colour", VStr "red");
                          ("convert_icons", VUndefined)] defaults)) "convert_icons").
  right. right. left. reflexivity.
Defined.


Lemma exists_forall_neg f (t : string) :
  string_exists f t = false <-> string_forall (fun a => negb (f a)) t = true.
Proof.
  induction t as [|a t IH]; simpl; [tauto|].
  rewrite orb_false_iff, andb_true_iff, negb_true_iff, IH. tauto.
Qed.

Lemma token_error_None t : token_error t = None <-> is_token t = true.
Proof.
  unfold token_error, is_token. destruct t as [|a t].
  - cbn. split; discriminate.
  - cbn [String.eqb]. 
    destruct (string_exists is_ascii_ws (String a t)) eqn:E.
    + split; [discriminate|]. intros H. apply exists_forall_neg in H. congruence.
    + split; [|reflexivity]. intros _. apply exists_forall_neg. exact E.
Qed.

Lemma first_token_error_None ts :
  first_token_error ts = None <-> Forall (fun t => is_token t = true) ts.
Proof.
  induction ts as [|t ts IH]; cbn [first_token_error].
  - split; [constructor | reflexivity].
  - destruct (token_error t) eqn:E.
    + split; [discriminate|]. intros H. inversion H; subst.
      apply token_error_None in H2. congruence.
    + rewrite IH. apply token_error_None in E.
      split; [intros H; constructor; assumption | intros H; inversion H; assumption].
Qed.

Lemma classList_one cls ch :
  is_token cls = true -> classList (Element "i" [("class", cls)] ch) = [cls].
Proof.
  intros H. unfold classList, getAttribute. cbn [attributes].
  change (lower "class") with "class". cbn [obj_get]. rewrite String.eqb_refl.
  rewrite (split_token cls H). reflexivity.
Qed.

Lemma add_icon_class cls :
  token_error cls = None ->
  classList_add_all [cls] (document_createElement "i")
  = Normal (Element "i" [("class", cls)] []).
Proof.
  intros H. unfold classList_add_all. cbn [first_token_error]. rewrite H.
  reflexivity.
Qed.

Section IconProofs.

Variable parse_fragment : string -> list Node.

Lemma make_icon_text options v icon :
  ToBoolean (get_prop options "icon_as_class") = false ->
  make_icon parse_fragment options v icon
  = match token_error (ToString v) with
    | Some e => Throw e
    | None => Normal (text_icon parse_fragment (ToString v) icon)
    end.
Proof.
  intros H. unfold make_icon. rewrite H.
  destruct (token_error (ToString v)) eqn:E.
  - unfold classList_add_all. cbn [first_token_error]. rewrite E. reflexivity.
  - rewrite (add_icon_class _ E). reflexivity.
Qed.

Lemma make_icon_classes options v icon :
  ToBoolean (get_prop options "icon_as_class") = true ->
  token_error (ToString v) = None ->
  make_icon parse_fragment options v icon
  = match first_token_error (js_split " " icon EmptyString) with
    | Some e => Throw e
    | None => Normal (class_icon (ToString v) (js_split " " icon EmptyString))
    end.
Proof.
  intros H E. unfold make_icon. rewrite H, (add_icon_class _ E).
  unfold classList_add_all.
  destruct (first_token_error (js_split " " icon EmptyString)); [reflexivity|].
  rewrite (classList_one _ _ (proj1 (token_error_None _) E)). reflexivity.
Qed.

Lemma or_default_idem v options :
  or_default (or_default v options) options = or_default v options.
Proof.
  unfold or_default. destruct (ToBoolean v) eqn:E; [rewrite E; reflexivity|].
  destruct (ToBoolean (get_prop options "icon_class")); reflexivity.
Qed.

Lemma icon_class_of_eq options el :
  ToString (or_default match dataset el "data-icon-class" with
                       | Some c => VStr c
                       | None => VUndefined
                       end options)
  = icon_class_of options el.
Proof.
  unfold icon_class_of, or_default.
  destruct (dataset el "data-icon-class") as [c|]; [|reflexivity].
  cbn [ToBoolean]. destruct (String.eqb c EmptyString); reflexivity.
Qed.

Lemma convertIcon_unfold options el :
  convertIcon parse_fragment options el
  = match left_icon el with
    | None =>
        match dataset el "data-icon-right" with
        | None => (el, Normal tt)
        | Some r =>
            match make_icon parse_fragment options
                    (or_default match dataset el "data-icon-class" with
                                | Some c => VStr c
                                | None => VUndefined
                                end options) r with
            | Throw e => (el, Throw e)
            | Normal i => (appendChild i el, Normal tt)
            end
        end
    | Some l =>
        match make_icon parse_fragment options
                (or_default match dataset el "data-icon-class" with
                            | Some c => VStr c
                            | None => VUndefined
                            end options) l with
        | Throw e => (el, Throw e)
        | Normal i =>
            match dataset el "data-icon-right" with
            | None => (prepend i el, Normal tt)
            | Some r =>
                match make_icon parse_fragment options
                        (or_default match dataset el "data-icon-class" with
                                    | Some c => VStr c
                                    | None => VUndefined
                                    end options) r with
                | Throw e => (prepend i el, Throw e)
                | Normal i' => (appendChild i' (prepend i el), Normal tt)
                end
            end
        end
    end.
Proof.
  unfold convertIcon, left_icon. rewrite or_default_idem.
  destruct (dataset el "data-icon-left"); reflexivity.
Qed.

End IconProofs.

(** X14. Icons as text.  Without the option [icon_as_class], an element
    gets an [i] before its children for [data-icon-left], or else for
    [data-icon], and an [i] after them for [data-icon-right]; both have
    the one class [data-icon-class], or the option [icon_class] where
    that is missing or empty, and the icon as their markup; the
    attributes of the element stay.  A class that is no token makes the
    first icon throw, and the element stays as it is. *)
Theorem convertIcon_as_text
        (parse_fragment : string -> list Node) (options : obj jsvalue)
        (t : string) (a : list (string * string)) (c : list Node) :
  ToBoolean (get_prop options "icon_as_class") = false ->
  convertIcon parse_fragment options (Element t a c)
  = match token_error (icon_class_of options (Element t a c)) with
    | None =>
        (Element t a
           (map (text_icon parse_fragment (icon_class_of options (Element t a c)))
                (opt_list (left_icon (Element t a c)))
            ++ c
            ++ map (text_icon parse_fragment (icon_class_of options (Element t a c)))
                   (opt_list (dataset (Element t a c) "data-icon-right"))),
         Normal tt)
    | Some e =>
        match left_icon (Element t a c), dataset (Element t a c) "data-icon-right" with
        | None, None => (Element t a c, Normal tt)
        | _, _ => (Element t a c, Throw e)
        end
    end.
Proof.
  intros H. rewrite convertIcon_unfold.
  destruct (left_icon (Element t a c)) as [l|];
    destruct (dataset (Element t a c) "data-icon-right") as [r|];
    rewrite ?(make_icon_text _ _ _ _ H), ?icon_class_of_eq;
    destruct (token_error (icon_class_of options (Element t a c)));
    cbn [opt_list map app prepend appendChild append];
    rewrite ?app_nil_r; reflexivity.
Qed.

Lemma convertIcon_as_text_witness :
  convertIcon (fun s => [Text s]) defaults
              (Element "button" [("data-icon", "home"); ("data-icon-right", "menu")]
                       [Text "Home"])
  = (Element "button" [("data-icon", "home"); ("data-icon-right", "menu")]
             [Element "i" [("class", "material-icons-outlined")] [Text "home"];
              Text "Home";
              Element "i" [("class", "material-icons-outlined")] [Text "menu"]],
     Normal tt).
Proof.
  apply (convertIcon_as_text (fun s => [Text s]) defaults "button"
           [("data-icon", "home"); ("data-icon-right", "menu")] [Text "Home"]).
  reflexivity.
Defined.

Lemma js_split_app_token t s cur :
  no_space t = true ->
  js_split " " (t ++ s) cur = js_split " " s (cur ++ t).
Proof.
  revert cur. induction t as [|x t IH]; intros cur H; cbn [String.append].
  - rewrite append_empty_r. reflexivity.
  - cbn [no_space string_forall] in H. apply andb_prop in H. destruct H as [Hx Ht].
    apply negb_true_iff in Hx. cbn [js_split]. rewrite Hx.
    rewrite (IH _ Ht), append_assoc_s. reflexivity.
Qed.

(** Joining pieces with single spaces and splitting at the spaces gives
    the pieces back. *)
Lemma js_split_join ts :
  ts <> [] -> Forall (fun t => no_space t = true) ts ->
  js_split " " (String.concat " " ts) EmptyString = ts.
Proof.
  induction ts as [|t ts IH]; intros Hne H; [contradiction|].
  inversion H as [|? ? Ht Hts]; subst.
  destruct ts as [|t2 ts].
  - cbn [String.concat]. rewrite <- (append_empty_r t) at 1.
    rewrite (js_split_app_token t EmptyString EmptyString Ht). reflexivity.
  - change (String.concat " " (t :: t2 :: ts))
      with (t ++ (String " " (String.concat " " (t2 :: ts))))%string.
    rewrite (js_split_app_token t _ EmptyString Ht).
    cbn [js_split Ascii.eqb Bool.eqb String.append]. cbv iota.
    rewrite IH; [reflexivity | discriminate | exact Hts].
Qed.

(** X15. Icons as classes.  With the option [icon_as_class], the icon is
    cut at its spaces and every piece is added as a class to the [i],
    after the class of the icons, each class once; the [i] has no
    children.  A piece that is empty, as an empty icon or two spaces in
    a row give one, or that holds other white space, makes the call
    throw, and the element stays as it is. *)
Theorem convertIcon_as_classes
        (parse_fragment : string -> list Node) (options : obj jsvalue)
        (t : string) (a : list (string * string)) (c : list Node)
        (ts : list string) :
  ToBoolean (get_prop options "icon_as_class") = true ->
  token_error (icon_class_of options (Element t a c)) = None ->
  ts <> [] ->
  Forall (fun x => no_space x = true) ts ->
  left_icon (Element t a c) = Some (String.concat " " ts) ->
  dataset (Element t a c) "data-icon-right" = None ->
  convertIcon parse_fragment options (Element t a c)
  = match first_token_error ts with
    | Some e => (Element t a c, Throw e)
    | None =>
        (Element t a (class_icon (icon_class_of options (Element t a c)) ts :: c),
         Normal tt)
    end
  /\ (first_token_error ts = None ->
      classList (class_icon (icon_class_of options (Element t a c)) ts)
      = fold_left set_append ts [icon_class_of options (Element t a c)]).
Proof.
  intros H Hcls Hne Hts Hl Hr. split.
  - rewrite convertIcon_unfold, Hl, Hr.
    rewrite (make_icon_classes _ _ _ _ H) by (rewrite icon_class_of_eq; exact Hcls).
    rewrite icon_class_of_eq, (js_split_join ts Hne Hts).
    destruct (first_token_error ts); reflexivity.
  - intros Hok. apply first_token_error_None in Hok.
    apply token_error_None in Hcls.
    set (cls := icon_class_of options (Element t a c)) in *.
    set (L := fold_left set_append ts [cls]).
    assert (HL : Forall (fun x => is_token x = true) L)
      by (apply fold_set_append_tokens; [repeat constructor; exact Hcls | exact Hok]).
    assert (Hnd : NoDup L)
      by (apply fold_set_append_NoDup; repeat constructor; simpl; tauto).
    unfold class_icon. fold L. unfold classList, getAttribute.
    cbn [attributes]. change (lower "class") with "class".
    cbn [obj_get]. rewrite String.eqb_refl.
    rewrite (split_join L HL). apply (fold_set_append_id L []). exact Hnd.
Qed.

Lemma convertIcon_as_classes_witness :
  convertIcon (fun s => [Text s])
              (configure [("icon_as_class", VBool true); ("icon_class", VStr "fas")] defaults)
              (Element "a" [("data-icon", "fa-chevron-up  me-1")] [Text "large"])
  = (Element "a" [("data-icon", "fa-chevron-up  me-1")] [Text "large"],
     Throw "SyntaxError").
Proof.
  refine (proj1 (convertIcon_as_classes (fun s => [Text s])
            (configure [("icon_as_class", VBool true); ("icon_class", VStr "fas")] defaults)
            "a" [("data-icon", "fa-chevron-up  me-1")] [Text "large"]
            ["fa-chevron-up"; EmptyString; "me-1"] _ _ _ _ _ _));
    [reflexivity | reflexivity | discriminate | repeat constructor
    | reflexivity | reflexivity].
Defined.
